(** * Replication dynamics: the simulation engine of [streamlit_app.py] and
      [replication_dynamics.py]

    Both source files define [simulate_replication_dynamics]: a loop that,
    period after period, turns a payoff matrix and a vector of population
    shares into a new vector of shares.  This development embeds both
    functions and states the properties of the engine over the embedding.

    The source computes with NumPy's [float64].  The embedding is written
    once, over an interface [Num] of the arithmetic the source uses, and is
    instantiated twice: with binary64 floating point (the kernel's primitive
    floats, what the program runs on) and with the rationals (exact
    arithmetic, what the update rule means on paper).  Python exceptions are
    values of [result]. *)

From Stdlib Require Import ZArith QArith Qminmax Floats Uint63 Lia Lqa.
From stdpp Require Import base option list gmap strings pretty.

Local Open Scope Z_scope.
Local Open Scope stdpp_scope.

(* ================================================================== *)
(** * Python: exceptions, dictionaries, loops *)
(* ================================================================== *)

(** The exceptions the engine can raise: a dictionary lookup on a missing
    key, a list index out of range, and NumPy's reduction of an empty array
    ([np.min], [np.argmax]). *)
Inductive exn : Type :=
  | KeyError (key : string)
  | IndexError
  | ValueError.

Inductive result (A : Type) : Type :=
  | Ok (a : A)
  | Raise (e : exn).
Arguments Ok {A} a.
Arguments Raise {A} e.

#[global] Instance result_ret : MRet result := fun _ a => Ok a.
#[global] Instance result_bind : MBind result := fun _ _ f m =>
  match m with Ok a => f a | Raise e => Raise e end.
#[global] Instance result_fmap : FMap result := fun _ _ f m =>
  match m with Ok a => Ok (f a) | Raise e => Raise e end.

(** [d[k]] on a [dict]. *)
Definition dict_get {V : Type} (d : gmap string V) (k : string) : result V :=
  match d !! k with
  | Some v => Ok v
  | None => Raise (KeyError k)
  end.

(** [l[i]] on a list or array, for a non-negative index. *)
Definition list_get {A : Type} (l : list A) (i : nat) : result A :=
  match l !! i with
  | Some x => Ok x
  | None => Raise IndexError
  end.

(** [d[k].append(x)] on a [defaultdict(list)]: a missing key starts from the
    empty list. *)
Definition defaultdict_append {A : Type}
    (d : gmap string (list A)) (k : string) (x : A) : gmap string (list A) :=
  <[k := default [] (d !! k) ++ [x]]> d.

(** [enumerate(l)]. *)
Definition enumerate {A : Type} (l : list A) : list (nat * A) :=
  zip (seq 0 (length l)) l.

(** [range(n)] for an [int] [n]: empty when [n <= 0]. *)
Definition range (n : Z) : list Z := seqZ 0 n.

(** [for x in l: body], threading the variables the body assigns. *)
Fixpoint for_each {A S : Type} (l : list A) (body : A -> S -> result S)
    (s : S) : result S :=
  match l with
  | [] => Ok s
  | x :: l' => s' ← body x s; for_each l' body s'
  end.

(** A list comprehension [[f(x) for x in l]] whose element expression can
    raise. *)
Fixpoint comprehension {A B : Type} (f : A -> result B) (l : list A)
    : result (list B) :=
  match l with
  | [] => Ok []
  | x :: l' => y ← f x; ys ← comprehension f l'; Ok (y :: ys)
  end.

(* ================================================================== *)
(** * Arithmetic *)
(* ================================================================== *)

(** The operations on numbers the engine uses. *)
Class Num (F : Type) : Type := {
  zero : F;
  one : F;
  add : F -> F -> F;
  sub : F -> F -> F;
  mul : F -> F -> F;
  div : F -> F -> F;
  ltb : F -> F -> bool;
  leb : F -> F -> bool;
  is_nan : F -> bool;
  of_Z : Z -> F
}.

(** ** binary64 *)

(** The conversion of a Python [int] to [float64]: the nearest binary64
    number, ties to even.  The engine converts the length of the strategy
    list and the integer literals of the payoff table.  (An integer of
    magnitude [2^1024] or more has no binary64 value: Python raises
    [OverflowError] where this conversion gives an infinity; no list is
    that long.) *)
Definition float_of_Z (z : Z) : float :=
  SF2Prim (binary_normalize prec emax z 0 false).

#[global] Instance float_num : Num float := {|
  zero := float_of_Z 0;
  one := float_of_Z 1;
  add := PrimFloat.add;
  sub := PrimFloat.sub;
  mul := PrimFloat.mul;
  div := PrimFloat.div;
  ltb := PrimFloat.ltb;
  leb := PrimFloat.leb;
  is_nan := PrimFloat.is_nan;
  of_Z := float_of_Z
|}.

(** ** Exact arithmetic *)

Definition Qltb (x y : Q) : bool := negb (Qle_bool y x).

#[global] Instance Q_num : Num Q := {|
  zero := 0%Q;
  one := 1%Q;
  add := Qplus;
  sub := Qminus;
  mul := Qmult;
  div := Qdiv;
  ltb := Qltb;
  leb := Qle_bool;
  is_nan := fun _ => false;
  of_Z := inject_Z
|}.

(* ================================================================== *)
(** * NumPy *)
(* ================================================================== *)

Section NumPy.
Context {F : Type} `{Num F}.

(** [np.zeros(n)], [np.ones(n)]. *)
Definition np_zeros (n : nat) : list F := replicate n zero.
Definition np_ones (n : nat) : list F := replicate n one.

(** The loop [res = 0.0; for x in a: res += x]: the elements added one by
    one, from left to right.  This is how the engine's own loops add up
    ([payoffs[i] += ...] on an array of [np.zeros]). *)
Definition accumulate (a : list F) : F := foldl add zero a.

(** [np.sum(a)] on a one-dimensional [float64] array does not add from left
    to right: NumPy's [add.reduce] uses pairwise summation.

    - Fewer than 8 elements are added from left to right.
    - Up to 128 elements are added in eight lanes: lane [k] starts at
      [a[k]] and receives [a[8 + k]], [a[16 + k]], ... for every further
      full block of eight; the lanes are then combined as
      [((r0 + r1) + (r2 + r3)) + ((r4 + r5) + (r6 + r7))], and the up to
      seven elements left after the last full block are added one by one.
    - A longer array is split at [n / 2] rounded down to a multiple of 8
      and the sums of the two parts are added.

    The reduction starts from the identity [0] of the addition, to which
    the pairwise sum is added.  (Whether that zero is [0.0] or [-0.0]
    depends on NumPy's version; it only shows in the sign of a zero sum,
    which the engine does not observe.) *)
Fixpoint lanes (blocks : nat) (r a : list F) : list F * list F :=
  match blocks with
  | O => (r, a)
  | S blocks' => lanes blocks' (zip_with add r (take 8 a)) (drop 8 a)
  end.

Definition lanes_total (r : list F) : F :=
  match r with
  | [r0; r1; r2; r3; r4; r5; r6; r7] =>
      add (add (add r0 r1) (add r2 r3)) (add (add r4 r5) (add r6 r7))
  | _ => accumulate r
  end.

Definition pairwise_block (a : list F) : F :=
  let '(r, rest) := lanes (length a / 8 - 1) (take 8 a) (drop 8 a) in
  foldl add (lanes_total r) rest.

(** The recursion halves the array, so [fuel = length a] is never used
    up. *)
Fixpoint pairwise_sum (fuel : nat) (a : list F) : F :=
  let n := length a in
  if (n <? 8)%nat then accumulate a
  else if (n <=? 128)%nat then pairwise_block a
  else
    match fuel with
    | O => pairwise_block a
    | S fuel' =>
        let n2 := (n / 2 - (n / 2) mod 8)%nat in
        add (pairwise_sum fuel' (take n2 a)) (pairwise_sum fuel' (drop n2 a))
    end.

Definition np_sum (a : list F) : F := add zero (pairwise_sum (length a) a).

(** [np.minimum(x, y)]: the smaller one, a NaN in [x] winning. *)
Definition np_minimum (x y : F) : F :=
  if ltb x y || is_nan x then x else y.

(** [np.min(a)]: [ValueError] on an empty array. *)
Definition np_min (a : list F) : result F :=
  match a with
  | [] => Raise ValueError
  | x :: a' => Ok (foldl np_minimum x a')
  end.

(** [np.argmax(a)]: the first index of the largest element, the scan
    stopping at the first NaN; [ValueError] on an empty sequence. *)
Fixpoint argmax_scan (mp : F) (max_ind i : nat) (a : list F) : nat :=
  if is_nan mp then max_ind else
  match a with
  | [] => max_ind
  | x :: a' =>
      if leb x mp then argmax_scan mp max_ind (S i) a'
      else argmax_scan x i (S i) a'
  end.

Definition np_argmax (a : list F) : result nat :=
  match a with
  | [] => Raise ValueError
  | x :: a' => Ok (argmax_scan x 0%nat 1%nat a')
  end.
End NumPy.

(* ================================================================== *)
(** * pandas *)
(* ================================================================== *)

(** A [DataFrame]: row labels, column labels, and the cells row by row. *)
Record DataFrame (F : Type) : Type := mkDataFrame {
  df_index : list string;
  df_columns : list string;
  df_values : list (list F)
}.
Arguments mkDataFrame {F} _ _ _.
Arguments df_index {F} _.
Arguments df_columns {F} _.
Arguments df_values {F} _.

(** [pd.DataFrame(v, index=..., columns=...)] for a scalar [v]. *)
Definition df_full {F : Type} (v : F) (index columns : list string)
    : DataFrame F :=
  mkDataFrame index columns
    (replicate (length index) (replicate (length columns) v)).

(** [df.loc[r, c] = v]: every cell whose row is labelled [r] and whose
    column is labelled [c]. *)
Definition df_loc_set {F : Type} (df : DataFrame F) (r c : string) (v : F)
    : DataFrame F :=
  mkDataFrame (df_index df) (df_columns df)
    (zip_with
       (fun lr row =>
          if decide (lr = r)
          then zip_with (fun lc x => if decide (lc = c) then v else x)
                 (df_columns df) row
          else row)
       (df_index df) (df_values df)).

(** [pd.DataFrame(a.reshape(-1, 1), index=..., columns=[name])]. *)
Definition df_column {F : Type} (a : list F) (index : list string)
    (name : string) : DataFrame F :=
  mkDataFrame index [name] ((fun x => [x]) <$> a).

(* ================================================================== *)
(** * The engine *)
(* ================================================================== *)

(** ** The parts of one period that both source files share *)

Section Reweighting.
Context {F : Type} `{Num F}.

(** [[
      min_payoff = np.min(payoffs)
      if min_payoff < 0:
          payoffs_adjusted = payoffs - min_payoff + 1
      else:
          payoffs_adjusted = payoffs + 1
    ]] *)
Definition adjust_payoffs (payoffs : list F) : result (list F) :=
  min_payoff ← np_min payoffs;
  if ltb min_payoff zero
  then Ok ((fun x => add (sub x min_payoff) one) <$> payoffs)
  else Ok ((fun x => add x one) <$> payoffs).

(** [[
      probabilities = probabilities * payoffs_adjusted
      probabilities = probabilities / np.sum(probabilities)
    ]] *)
Definition reweight (probabilities payoffs_adjusted : list F) : list F :=
  let probabilities := zip_with mul probabilities payoffs_adjusted in
  (fun x => div x (np_sum probabilities)) <$> probabilities.

(** [np.ones(n_automatons) / n_automatons] *)
Definition initial_probabilities (automatons : list string) : list F :=
  let n_automatons := length automatons in
  (fun x => div x (of_Z (Z.of_nat n_automatons))) <$> np_ones n_automatons.

(** [for i, automaton in enumerate(automatons):
       payoff_history[automaton].append(payoffs[i])] *)
Definition store_payoffs (automatons : list string) (payoffs : list F)
    (payoff_history : gmap string (list F))
    : result (gmap string (list F)) :=
  for_each (enumerate automatons)
    (fun '(i, automaton) payoff_history =>
       x ← list_get payoffs i;
       Ok (defaultdict_append payoff_history automaton x))
    payoff_history.
End Reweighting.

(** ** [streamlit_app.py] *)

Module StreamlitApp.
Section Engine.
Context {F : Type} `{Num F}.

(** The module's globals. *)
Variable automatons : list string.
Variable default_payoff_matrix : gmap string (gmap string F).

(** What [simulate_replication_dynamics] returns. *)
Record simulation : Type := mkSimulation {
  history : list (list F);
  payoff_history : gmap string (list F);
  strategy_history : list (gmap string string);
  payoff_matrices : list (DataFrame F);
  pairwise_payoffs_history : list (DataFrame F)
}.

(** The body of the two nested loops over [enumerate(automatons)]. *)
Definition pairwise_step (payoff_matrix : gmap string (gmap string F))
    (probabilities : list F) (i : nat) (automaton_i : string)
    (j : nat) (automaton_j : string) (st : list F * DataFrame F)
    : result (list F * DataFrame F) :=
  let '(payoffs, pairwise_payoffs_period) := st in
  row ← dict_get payoff_matrix automaton_i;
  entry ← dict_get row automaton_j;
  p_j ← list_get probabilities j;
  let pairwise_payoff := mul entry p_j in
  let pairwise_payoffs_period :=
    df_loc_set pairwise_payoffs_period automaton_i automaton_j
      pairwise_payoff in
  old ← list_get payoffs i;
  Ok (<[i := add old pairwise_payoff]> payoffs, pairwise_payoffs_period).

Definition pairwise_payoffs (payoff_matrix : gmap string (gmap string F))
    (probabilities : list F) : result (list F * DataFrame F) :=
  for_each (enumerate automatons)
    (fun '(i, automaton_i) st =>
       for_each (enumerate automatons)
         (fun '(j, automaton_j) st =>
            pairwise_step payoff_matrix probabilities
              i automaton_i j automaton_j st)
         st)
    (np_zeros (length automatons), df_full zero automatons automatons).

(** "Determine dominant strategy for each automaton". *)
Definition period_strategies (payoff_matrix : gmap string (gmap string F))
    : result (gmap string string) :=
  for_each (enumerate automatons)
    (fun '(i, automaton) period_strategies =>
       entries ← comprehension
         (fun opp => row ← dict_get payoff_matrix automaton;
                     dict_get row opp)
         automatons;
       best_opponent_idx ← np_argmax entries;
       best_opponent ← list_get automatons best_opponent_idx;
       Ok (<[automaton := best_opponent]> period_strategies))
    ∅.

(** The variables the loop over the periods assigns. *)
Record loop_state : Type := mkLoopState {
  probabilities : list F;
  run : simulation
}.

(** One iteration of [for period in range(num_periods)]. *)
Definition period_body (payoff_matrix : gmap string (gmap string F))
    (period : Z) (st : loop_state) : result loop_state :=
  '(payoffs, pairwise_payoffs_period) ←
    pairwise_payoffs payoff_matrix (probabilities st);
  let pairwise_payoffs_history :=
    pairwise_payoffs_history (run st) ++ [pairwise_payoffs_period] in
  let payoff_matrix_period :=
    df_column payoffs automatons ("t=" +:+ pretty period) in
  let payoff_matrices := payoff_matrices (run st) ++ [payoff_matrix_period] in
  strategies ← period_strategies payoff_matrix;
  let strategy_history := strategy_history (run st) ++ [strategies] in
  payoff_history ← store_payoffs automatons payoffs (payoff_history (run st));
  payoffs_adjusted ← adjust_payoffs payoffs;
  let probabilities := reweight (probabilities st) payoffs_adjusted in
  Ok (mkLoopState probabilities
        (mkSimulation (history (run st) ++ [probabilities])
           payoff_history strategy_history payoff_matrices
           pairwise_payoffs_history)).

Definition initial_state : loop_state :=
  let probabilities := initial_probabilities automatons in
  mkLoopState probabilities (mkSimulation [probabilities] ∅ [] [] []).

Definition simulate_replication_dynamics (num_periods : Z)
    (payoff_matrix : option (gmap string (gmap string F)))
    : result simulation :=
  let payoff_matrix := default default_payoff_matrix payoff_matrix in
  run <$> for_each (range num_periods) (period_body payoff_matrix)
            initial_state.
End Engine.
Arguments simulation : clear implicits.
Arguments loop_state : clear implicits.
End StreamlitApp.

(** ** [replication_dynamics.py] *)

Module ReplicationDynamics.
Section Engine.
Context {F : Type} `{Num F}.

(** The module's globals. *)
Variable automatons : list string.
Variable payoff_matrix : gmap string (gmap string F).

(** [payoffs[i] += payoff_matrix[automaton_i][automaton_j] * probabilities[j]] *)
Definition payoff_step (probabilities : list F) (i : nat)
    (automaton_i : string) (j : nat) (automaton_j : string)
    (payoffs : list F) : result (list F) :=
  old ← list_get payoffs i;
  row ← dict_get payoff_matrix automaton_i;
  entry ← dict_get row automaton_j;
  p_j ← list_get probabilities j;
  Ok (<[i := add old (mul entry p_j)]> payoffs).

Definition round_payoffs (probabilities : list F) : result (list F) :=
  for_each (enumerate automatons)
    (fun '(i, automaton_i) payoffs =>
       for_each (enumerate automatons)
         (fun '(j, automaton_j) payoffs =>
            payoff_step probabilities i automaton_i j automaton_j payoffs)
         payoffs)
    (np_zeros (length automatons)).

(** The variables the loop over the periods assigns: [probabilities],
    [history], [payoff_history]. *)
Definition loop_state : Type :=
  list F * list (list F) * gmap string (list F).

Definition period_body (period : Z) (st : loop_state) : result loop_state :=
  let '(probabilities, history, payoff_history) := st in
  payoffs ← round_payoffs probabilities;
  payoff_history ← store_payoffs automatons payoffs payoff_history;
  payoffs_adjusted ← adjust_payoffs payoffs;
  let probabilities := reweight probabilities payoffs_adjusted in
  Ok (probabilities, history ++ [probabilities], payoff_history).

Definition simulate_replication_dynamics (num_periods : Z)
    : result (list (list F) * gmap string (list F)) :=
  let probabilities := initial_probabilities automatons in
  '(_, history, payoff_history) ←
    for_each (range num_periods) period_body
      (probabilities, [probabilities], ∅);
  Ok (history, payoff_history).
End Engine.
End ReplicationDynamics.

(* ================================================================== *)
(** * The globals of the two modules *)
(* ================================================================== *)

Definition automatons : list string :=
  ["DOVE"; "HAWK"; "GRIM"; "TIT-FOR-TAT"; "TAT-FOR-TIT";
   "TWEEDLEDUM"; "TWEEDLEDEE"; "TWEETYPIE"].

Section Defaults.
Context {F : Type} `{Num F}.

(** A decimal or fraction literal [n/d] of the source. *)
Definition frac (n d : Z) : F := div (of_Z n) (of_Z d).

(** One row of the table: the payoffs against the eight opponents, in the
    order of [automatons]. *)
Definition payoff_row (entries : list F) : gmap string F :=
  list_to_map (zip automatons entries).

(** [default_payoff_matrix] of [streamlit_app.py], which is also
    [payoff_matrix] of [replication_dynamics.py]. *)
Definition default_payoff_matrix : gmap string (gmap string F) :=
  let i := of_Z in
  list_to_map (zip automatons [
    payoff_row [i 1; frac (-1) 2; i 1; i 1; i 1; i 1; i 1; frac (-1) 2];
    payoff_row [i 3; i 0; i 0; i 0; frac 3 2; frac 3 2; frac 3 2; i 3];
    payoff_row [i 2; i 0; i 2; i 2; i 0; i 2; i 2; i (-1)];
    payoff_row [i 2; i 0; i 2; i 2; frac 2 3; i 2; i 2; i 2];
    payoff_row [frac (-1) 2; frac 3 4; i 0; frac 2 3; i 2; i 2; i 2; i 2];
    payoff_row [i 2; frac 3 4; i 2; i 2; i 2; i 2; i 2; i 2];
    payoff_row [i 2; frac 3 4; i 2; i 2; i 2; i 2; i 2; i 2];
    payoff_row [frac (-1) 2; i 3; i (-1); i 2; i 2; i 2; i 2; i 2]
  ]).
End Defaults.

(* ================================================================== *)
(** * The update rule, as the specification words it *)
(* ================================================================== *)

Module Spec.
Section Spec.
Context {F : Type} `{Num F}.
Variable strategies : list string.
Variable payoff_matrix : gmap string (gmap string F).

(** [payoff_matrix[i][j]], for a pair the matrix defines. *)
Definition entry (s o : string) : F :=
  default zero (payoff_matrix !! s ≫= (.!! o)).

(** The matrix defines a value for every ordered pair of strategies. *)
Definition has_entry (s o : string) : bool :=
  bool_decide (is_Some (payoff_matrix !! s ≫= (.!! o))).
Definition complete : bool :=
  forallb (fun s => forallb (has_entry s) strategies) strategies.

(** [π_i = Σ_j payoff_matrix[i][j] * p_j] *)
Definition expected_payoff (p : list F) (s : string) : F :=
  accumulate (zip_with (fun o p_j => mul (entry s o) p_j) strategies p).

Definition expected_payoffs (p : list F) : list F :=
  expected_payoff p <$> strategies.

(** [adj_i = π_i - m + 1] if [m < 0], else [adj_i = π_i + 1]. *)
Definition multiplier (m π_i : F) : F :=
  if ltb m zero then add (sub π_i m) one else add π_i one.

(** The multipliers of a period, [m = min_i(π_i)]; there is no minimum
    over an empty strategy set. *)
Definition multipliers (p : list F) : option (list F) :=
  match np_min (expected_payoffs p) with
  | Ok m => Some (multiplier m <$> expected_payoffs p)
  | Raise _ => None
  end.

(** [p_i ← p_i * adj_i], then [p_i ← p_i / Σ_k p_k]. *)
Definition renormalize (w : list F) : list F :=
  (fun w_i => div w_i (np_sum w)) <$> w.

Definition update (p : list F) : option (list F) :=
  adj ← multipliers p;
  Some (renormalize (zip_with mul p adj)).

(** [p_0 = [1/K, 1/K, ..., 1/K]] *)
Definition uniform : list F :=
  let K := length strategies in
  replicate K (div one (of_Z (Z.of_nat K))).

(** The opponent [j] that maximizes [payoff_matrix[i][j]]: [o] is among
    the strategies and no opponent earns [s] more. *)
Definition best_opponent (s o : string) : Prop :=
  o ∈ strategies ∧
  ∀ o', o' ∈ strategies → leb (entry s o') (entry s o) = true.
End Spec.
End Spec.

(* ================================================================== *)
(** * The scenarios of the specification *)
(* ================================================================== *)

Section Scenarios.
Context {F : Type} `{Num F}.

(** [K = 2], [A:{A:3,B:3}, B:{A:0,B:0}]: [A] strictly dominates. *)
Definition strategies_AB : list string := ["A"; "B"].
Definition dominant_matrix : gmap string (gmap string F) :=
  list_to_map [
    ("A", list_to_map [("A", of_Z 3); ("B", of_Z 3)]);
    ("B", list_to_map [("A", of_Z 0); ("B", of_Z 0)])
  ].

End Scenarios.


(* ================================================================== *)
(** * What the loops compute *)
(* ================================================================== *)

Section Loops.
Context {F : Type} `{Num F}.
Variable strategies : list string.
Variable pm : gmap string (gmap string F).

(** The products one row contributes, in the order the inner loop adds
    them. *)
Definition contributions (ai : string) (os : list string) (q : list F)
    : list F :=
  zip_with (fun o p_j => mul (Spec.entry pm ai o) p_j) os q.

(** [automatons[np.argmax([payoff_matrix[s][opp] for opp in automatons])]] *)
Definition best_response (s : string) : string :=
  match np_argmax (Spec.entry pm s <$> strategies) with
  | Ok idx => default s (strategies !! idx)
  | Raise _ => s
  end.

(** The mapping recorded in a period: a function of the matrix alone. *)
Definition best_responses : gmap string string :=
  foldl (fun d s => <[s := best_response s]> d) ∅ strategies.

(** What the loop over [enumerate(automatons)] leaves in
    [payoff_history]. *)
Definition record_payoffs (rs : list string) (payoffs : list F)
    (payoff_history : gmap string (list F)) : gmap string (list F) :=
  foldl (fun ph '(s, x) => defaultdict_append ph s x) payoff_history
    (zip rs payoffs).

(** What holds of the variables of [streamlit_app.py]'s loop after [t]
    periods. *)
Record trace (t : nat) (st : StreamlitApp.loop_state F) : Prop := mkTrace {
  trace_length :
    length (StreamlitApp.history (StreamlitApp.run st)) = S t;
  trace_last :
    StreamlitApp.history (StreamlitApp.run st) !! t
    = Some (StreamlitApp.probabilities st);
  trace_shares :
    length (StreamlitApp.probabilities st) = length strategies;
  trace_first :
    StreamlitApp.history (StreamlitApp.run st) !! 0%nat
    = Some (Spec.uniform strategies);
  trace_step : ∀ t' p, (t' < t)%nat →
    StreamlitApp.history (StreamlitApp.run st) !! t' = Some p →
    ∃ p', StreamlitApp.history (StreamlitApp.run st) !! S t' = Some p'
          ∧ Spec.update strategies pm p = Some p';
  trace_payoffs : ∀ i s, strategies !! i = Some s →
    default [] (StreamlitApp.payoff_history (StreamlitApp.run st) !! s)
    = (fun p => Spec.expected_payoff strategies pm p s)
        <$> take t (StreamlitApp.history (StreamlitApp.run st));
  trace_recorded : ∀ s, s ∈ strategies → t ≠ 0%nat →
    is_Some (StreamlitApp.payoff_history (StreamlitApp.run st) !! s);
  trace_others : ∀ s, s ∉ strategies →
    StreamlitApp.payoff_history (StreamlitApp.run st) !! s = None;
  trace_strategies :
    StreamlitApp.strategy_history (StreamlitApp.run st)
    = replicate t best_responses;
  trace_matrices :
    length (StreamlitApp.payoff_matrices (StreamlitApp.run st)) = t;
  trace_pairwise :
    length (StreamlitApp.pairwise_payoffs_history (StreamlitApp.run st)) = t
}.

(** ** The two modules side by side *)

(** The payoffs of the two modules agree in the middle of a period. *)
Definition same_payoffs (st : list F * DataFrame F) (payoffs : list F)
    : Prop :=
  st.1 = payoffs ∧ length payoffs = length strategies.

(** The loop variables of the two modules agree between periods. *)
Definition same_run (st : StreamlitApp.loop_state F)
    (st' : ReplicationDynamics.loop_state) : Prop :=
  st' = (StreamlitApp.probabilities st,
         StreamlitApp.history (StreamlitApp.run st),
         StreamlitApp.payoff_history (StreamlitApp.run st))
  ∧ length (StreamlitApp.probabilities st) = length strategies.
End Loops.

(** Two computations that raise the same exception or return related
    values. *)
Definition result_rel {A B : Type} (R : A → B → Prop)
    (r1 : result A) (r2 : result B) : Prop :=
  match r1, r2 with
  | Ok a, Ok b => R a b
  | Raise e1, Raise e2 => e1 = e2
  | _, _ => False
  end.

(* ================================================================== *)
(** * The properties of the specification *)
(* ================================================================== *)

(** The laws of the order.  A NaN compares false with everything; the
    numbers, which are all the other values, the infinities included, are
    totally ordered.  Both arithmetics satisfy them. *)
Class OrderLaws (F : Type) `{Num F} : Prop := {
  leb_total : ∀ x y : F,
    is_nan x = false → is_nan y = false → leb x y = true ∨ leb y x = true;
  leb_trans : ∀ x y z : F, leb x y = true → leb y z = true → leb x z = true;
  ltb_leb : ∀ x y : F, ltb x y = true → leb x y = true;
  leb_ltb : ∀ x y : F,
    is_nan x = false → is_nan y = false → ltb x y = false → leb y x = true;
  ltb_number : ∀ x y : F,
    ltb x y = true → is_nan x = false ∧ is_nan y = false
}.

(** No NaN among the values. *)
Definition numbers {F : Type} `{Num F} (l : list F) : Prop :=
  Forall (fun x => is_nan x = false) l.


(** A vector of shares in exact arithmetic: as long as the strategy list,
    non-negative, and summing to one. *)
Definition distribution (strategies : list string) (p : list Q) : Prop :=
  length p = length strategies
  ∧ Forall (fun x => (0 <= x)%Q) p
  ∧ (np_sum p == 1)%Q.

Section Properties.
Context {F : Type} `{Num F}.

(** Equality of numbers, as the comparison of the arithmetic decides it. *)
Definition num_eq (x y : F) : bool := leb x y && leb y x.




Variable strategies : list string.
Variable matrix : gmap string (gmap string F).




(** A non-positive period count is rejected. *)
Definition rejects_period_count (num_periods : Z) : Prop :=
  num_periods < 1 →
  ∃ e, StreamlitApp.simulate_replication_dynamics strategies matrix
         num_periods None = Raise e.

(** An incomplete payoff matrix is rejected. *)
Definition rejects_incomplete (payoff_matrix : gmap string (gmap string F))
    (num_periods : Z) : Prop :=
  Spec.complete strategies payoff_matrix = false →
  ∃ e, StreamlitApp.simulate_replication_dynamics strategies matrix
         num_periods (Some payoff_matrix) = Raise e.
End Properties.

Section Dominance.
Context {F : Type} `{Num F}.

(** In period [t] of a run of the scenario [A:{A:3,B:3}, B:{A:0,B:0}] the
    recorded payoffs are [3] and [0] and the multipliers [4] and [1]. *)
Definition payoffs_as_stated (sim : StreamlitApp.simulation F) (t : nat)
    : bool :=
  match StreamlitApp.payoff_history sim !! "A" ≫= (.!! t),
        StreamlitApp.payoff_history sim !! "B" ≫= (.!! t) with
  | Some π_A, Some π_B =>
      match adjust_payoffs [π_A; π_B] with
      | Ok [adj_A; adj_B] =>
          num_eq π_A (of_Z 3) && num_eq π_B (of_Z 0)
          && num_eq adj_A (of_Z 4) && num_eq adj_B (of_Z 1)
      | _ => false
      end
  | _, _ => false
  end.

(** In period [t] the share of [A] strictly increases and stays strictly
    below [1]. *)
Definition share_grows (sim : StreamlitApp.simulation F) (t : nat) : bool :=
  match StreamlitApp.history sim !! t ≫= head,
        StreamlitApp.history sim !! S t ≫= head with
  | Some a, Some a' => ltb a a' && ltb a' one
  | _, _ => false
  end.

Definition dominance (num_periods : Z) : Prop :=
  ∃ sim,
    StreamlitApp.simulate_replication_dynamics strategies_AB
      dominant_matrix num_periods None = Ok sim
    ∧ ∀ t : nat, Z.of_nat t < num_periods →
        payoffs_as_stated sim t = true ∧ share_grows sim t = true.
End Dominance.

(** The shares in that scenario, in exact arithmetic: two positive numbers
    that sum to one. *)
Definition two_shares (p : list Q) : Prop :=
  ∃ a b, p = [a; b] ∧ (a + b == 1)%Q ∧ (0 < a)%Q ∧ (0 < b)%Q.

(* ================================================================== *)
(** * The rest of the two modules *)
(* ================================================================== *)

Section Lookups.
Context {F : Type} `{Num F}.

(** The first key the nested loops fail to find, scanning the pairs row by
    row: the strategy itself when it has no row in the matrix, else the
    first opponent its row lacks. *)
Fixpoint missing_in_row (row : gmap string F) (opponents : list string)
    : option string :=
  match opponents with
  | [] => None
  | o :: opponents' =>
      match row !! o with
      | Some _ => missing_in_row row opponents'
      | None => Some o
      end
  end.

Fixpoint missing_key (payoff_matrix : gmap string (gmap string F))
    (rows opponents : list string) : option string :=
  match rows with
  | [] => None
  | r :: rows' =>
      match opponents, payoff_matrix !! r with
      | [], _ => missing_key payoff_matrix rows' opponents
      | _ :: _, None => Some r
      | _ :: _, Some row =>
          match missing_in_row row opponents with
          | Some o => Some o
          | None => missing_key payoff_matrix rows' opponents
          end
      end
  end.

(** Two matrices agree on every ordered pair of strategies. *)
Definition agree_on (strategies : list string)
    (pm pm' : gmap string (gmap string F)) : Prop :=
  ∀ s o, s ∈ strategies → o ∈ strategies →
    pm !! s ≫= (.!! o) = pm' !! s ≫= (.!! o).
End Lookups.

Section Tables.
Context {F : Type} `{Num F}.
Variable strategies : list string.
Variable pm : gmap string (gmap string F).

(** The table of pairwise payoffs of a period that starts from the shares
    [p]: the cell of row [s] and column [o] holds
    [payoff_matrix[s][o] * p[o]]. *)
Definition pairwise_table (p : list F) : DataFrame F :=
  mkDataFrame strategies strategies
    ((fun s => contributions pm s strategies p) <$> strategies).

(** The one-column table of the payoffs of period [t]. *)
Definition payoff_column (t : nat) (p : list F) : DataFrame F :=
  df_column (Spec.expected_payoffs strategies pm p) strategies
    ("t=" +:+ pretty (Z.of_nat t)).

(** What holds of the two lists of tables after [t] periods. *)
Definition tables (t : nat) (st : StreamlitApp.loop_state F) : Prop :=
  ∀ t' p, (t' < t)%nat →
    StreamlitApp.history (StreamlitApp.run st) !! t' = Some p →
    StreamlitApp.pairwise_payoffs_history (StreamlitApp.run st) !! t'
    = Some (pairwise_table p)
    ∧ StreamlitApp.payoff_matrices (StreamlitApp.run st) !! t'
      = Some (payoff_column t' p).
End Tables.

(** ** What the pages show of a run *)

(** [l[i]] for a Python [int] index: a negative index counts from the
    end. *)
Definition py_index {A : Type} (l : list A) (i : Z) : result A :=
  if decide (0 ≤ i) then list_get l (Z.to_nat i)
  else if decide (- Z.of_nat (length l) ≤ i)
       then list_get l (length l - Z.to_nat (- i))
       else Raise IndexError.

Section Display.
Context {F : Type} `{Num F}.

(** [final_probs = history[-1]] *)
Definition final_probs (history : list (list F)) : result (list F) :=
  py_index history (-1).

(** [np.sum(final_probs ** 2)], the "Concentration" metric. *)
Definition concentration (final_probs : list F) : F :=
  np_sum ((fun x => mul x x) <$> final_probs).

(** The sum of a row of the matrix over the strategies. *)
Definition row_sum (strategies : list string)
    (payoff_matrix : gmap string (gmap string F)) (s : string) : F :=
  np_sum (Spec.entry payoff_matrix s <$> strategies).

(** [K = 2], [A:{A:2,B:0}, B:{A:0,B:2}]: each strategy only earns against
    itself. *)
Definition self_reinforcing_matrix : gmap string (gmap string F) :=
  list_to_map [
    ("A", list_to_map [("A", of_Z 2); ("B", of_Z 0)]);
    ("B", list_to_map [("A", of_Z 0); ("B", of_Z 2)])
  ].
End Display.

(** ** The sidebar of [streamlit_app.py] *)

Section Sidebar.
Context {F : Type} `{Num F}.

(** The module's globals. *)
Variable automatons : list string.
Variable default_payoff_matrix : gmap string (gmap string F).

(** [st.number_input(label, value=...)]: the number the user leaves in the
    field with that label, which starts at [value]. *)
Variable number_input : string → F → F.

(** The number in the field of a pair.  Its start value is
    [float(default_val)], the entry of the default matrix itself, the
    entries being numbers of [F] already. *)
Definition field_value (automaton opponent : string) : F :=
  number_input (automaton +:+ " vs " +:+ opponent)
    (Spec.entry default_payoff_matrix automaton opponent).

(** [[
      row_data = {}
      for idx, opponent in enumerate(automatons):
          default_val = default_payoff_matrix[automaton][opponent]
          row_data[opponent] = col.number_input(
              f"{automaton} vs {opponent}", value=float(default_val), ...)
    ]] *)
Definition custom_row (automaton : string) : result (gmap string F) :=
  for_each (enumerate automatons)
    (fun '(idx, opponent) row_data =>
       row ← dict_get default_payoff_matrix automaton;
       default_val ← dict_get row opponent;
       Ok (<[opponent :=
               number_input (automaton +:+ " vs " +:+ opponent) default_val]>
             row_data))
    ∅.

(** [[
      custom_payoff_data = {}
      for automaton in automatons:
          ...
          custom_payoff_data[automaton] = row_data
    ]] *)
Definition custom_payoff_data : result (gmap string (gmap string F)) :=
  for_each automatons
    (fun automaton custom_payoff_data =>
       row_data ← custom_row automaton;
       Ok (<[automaton := row_data]> custom_payoff_data))
    ∅.

(** The matrix the sidebar hands to the run: the edited one when "Edit
    Payoff Matrix" is ticked, else the default one. *)
Definition sidebar_payoff_matrix (use_custom_payoff : bool)
    : result (gmap string (gmap string F)) :=
  if use_custom_payoff then custom_payoff_data else Ok default_payoff_matrix.

(** "Run Simulation": the run with the period count of the slider and the
    matrix of the sidebar. *)
Definition run_simulation (num_periods : Z) (use_custom_payoff : bool)
    : result (StreamlitApp.simulation F) :=
  payoff_matrix ← sidebar_payoff_matrix use_custom_payoff;
  StreamlitApp.simulate_replication_dynamics automatons default_payoff_matrix
    num_periods (Some payoff_matrix).
End Sidebar.

(** ** The detailed period analysis of [streamlit_app.py] *)

(** [range(start, stop)]. *)
Definition range_from (start stop : Z) : list Z := seqZ start (stop - start).

Section DetailView.
Context {F : Type} `{Num F}.
Variable automatons : list string.

(** [d[k]] on a [defaultdict(list)]. *)
Definition defaultdict_get (d : gmap string (list F)) (k : string) : list F :=
  default [] (d !! k).

(** The largest period the slider offers:
    [len(payoff_history[automatons[0]]) - 1]. *)
Definition last_period (sim : StreamlitApp.simulation F) : result Z :=
  first ← py_index automatons 0;
  Ok (Z.of_nat
        (length (defaultdict_get (StreamlitApp.payoff_history sim) first)) - 1).

(** What is read of the run for one displayed period:
    [[payoff_history[auto][period] for auto in automatons]],
    [strategy_history[period]] and [pairwise_payoffs_history[period]]. *)
Definition period_details (sim : StreamlitApp.simulation F) (period : Z)
    : result (list F * gmap string string * DataFrame F) :=
  payoffs ← comprehension
    (fun auto =>
       py_index (defaultdict_get (StreamlitApp.payoff_history sim) auto) period)
    automatons;
  period_strategies ← py_index (StreamlitApp.strategy_history sim) period;
  pairwise_matrix ← py_index (StreamlitApp.pairwise_payoffs_history sim) period;
  Ok (payoffs, period_strategies, pairwise_matrix).

(** [for period in range(periods_to_view[0], periods_to_view[1] + 1)] *)
Definition detail_view (sim : StreamlitApp.simulation F)
    (periods_to_view : Z * Z)
    : result (list (list F * gmap string string * DataFrame F)) :=
  comprehension (period_details sim)
    (range_from periods_to_view.1 (periods_to_view.2 + 1)).
End DetailView.
(** ** The strategy timeline of [streamlit_app.py] *)

(** [[
      strategy_timeline_data = {f"t={period}": strategy_history[period]
                                for period in range(len(strategy_history))}
    ]] *)
Definition strategy_timeline_data
    (strategy_history : list (gmap string string))
    : result (gmap string (gmap string string)) :=
  for_each (range (Z.of_nat (length strategy_history)))
    (fun period strategy_timeline_data =>
       period_strategies ← py_index strategy_history period;
       Ok (<["t=" +:+ pretty period := period_strategies]>
             strategy_timeline_data))
    ∅.

(* ================================================================== *)
(** * Proofs *)
(* ================================================================== *)

Import StreamlitApp.

(** ** Loops and ranges *)

Section Python.
Context {A S : Type}.
Implicit Types (l : list A) (body : A -> S -> result S) (s : S).

Lemma for_each_app l1 l2 body s :
  for_each (l1 ++ l2) body s = s' ← for_each l1 body s; for_each l2 body s'.
Proof.
  revert s. induction l1 as [|x l1 IH]; intros s; simpl; [done|].
  destruct (body x s) as [s'|e]; simpl; [apply IH|done].
Qed.

Lemma for_each_snoc l x body s :
  for_each (l ++ [x]) body s = s' ← for_each l body s; body x s'.
Proof.
  rewrite for_each_app. destruct (for_each l body s) as [s'|e]; simpl; [|done].
  by destruct (body x s').
Qed.

End Python.

Lemma range_nonpos n : n ≤ 0 → range n = [].
Proof. intros. unfold range, seqZ. by replace (Z.to_nat n) with 0%nat by lia. Qed.

Lemma range_succ (t : nat) : range (Z.of_nat (S t)) = range (Z.of_nat t) ++ [Z.of_nat t].
Proof.
  unfold range, seqZ. rewrite !Nat2Z.id, seq_S, fmap_app. simpl.
  by rewrite Z.add_0_r.
Qed.

Lemma range_of_nat n : range n = range (Z.of_nat (Z.to_nat n)).
Proof. unfold range, seqZ. by rewrite Nat2Z.id. Qed.

(** ** The nested loops over the strategies *)

Section PairwiseLoop.
Context {F : Type} `{Num F}.
Variable pm : gmap string (gmap string F).
Variable p : list F.

Lemma has_entry_get s o :
  Spec.has_entry pm s o = true →
  ∃ row, dict_get pm s = Ok row ∧ dict_get row o = Ok (Spec.entry pm s o).
Proof.
  unfold Spec.has_entry, Spec.entry, dict_get. intros Hs%bool_decide_eq_true.
  destruct (pm !! s) as [row|]; simpl in *; [|by destruct Hs].
  exists row. split; [done|]. by destruct (row !! o); [|destruct Hs].
Qed.

Lemma no_entry_get s o :
  Spec.has_entry pm s o = false →
  dict_get pm s = Raise (KeyError s) ∨
  ∃ row, dict_get pm s = Ok row ∧ dict_get row o = Raise (KeyError o).
Proof.
  unfold Spec.has_entry, dict_get. intros Hs%bool_decide_eq_false.
  destruct (pm !! s) as [row|]; simpl in *; [|by left].
  right. exists row. split; [done|].
  destruct (row !! o); [|done]. destruct Hs; eauto.
Qed.

Lemma pairwise_step_ok i ai j o payoffs df old p_j :
  Spec.has_entry pm ai o = true →
  p !! j = Some p_j →
  payoffs !! i = Some old →
  StreamlitApp.pairwise_step pm p i ai j o (payoffs, df)
  = Ok (<[i := add old (mul (Spec.entry pm ai o) p_j)]> payoffs,
        df_loc_set df ai o (mul (Spec.entry pm ai o) p_j)).
Proof.
  intros (row & Hrow & He)%has_entry_get Hp Hold.
  unfold StreamlitApp.pairwise_step, list_get.
  rewrite Hrow; simpl. rewrite He; simpl. rewrite Hp; simpl.
  by rewrite Hold.
Qed.

Lemma pairwise_step_missing i ai j o st :
  Spec.has_entry pm ai o = false →
  ∃ k, StreamlitApp.pairwise_step pm p i ai j o st = Raise (KeyError k).
Proof.
  intros Hno. destruct st as [payoffs df]. unfold StreamlitApp.pairwise_step.
  destruct (no_entry_get _ _ Hno) as [Hrow|(row & Hrow & He)].
  - exists ai. by rewrite Hrow.
  - exists o. rewrite Hrow; simpl. by rewrite He.
Qed.

Lemma inner_loop_ok i ai os : ∀ s payoffs df old,
  forallb (Spec.has_entry pm ai) os = true →
  (s + length os ≤ length p)%nat →
  payoffs !! i = Some old →
  ∃ df',
    for_each (zip (seq s (length os)) os)
      (fun '(j, aj) st => StreamlitApp.pairwise_step pm p i ai j aj st)
      (payoffs, df)
    = Ok (<[i := foldl add old (contributions pm ai os (drop s p))]> payoffs, df').
Proof.
  induction os as [|o os IH]; intros s payoffs df old Hc Hlen Hold.
  - exists df. simpl. by rewrite list_insert_id.
  - simpl in Hc, Hlen. apply andb_true_iff in Hc as [Ho Hc].
    destruct (lookup_lt_is_Some_2 p s) as [p_j Hp]; [lia|].
    cbn [length seq zip zip_with for_each].
    rewrite (pairwise_step_ok _ _ _ _ _ _ _ _ Ho Hp Hold). cbn [mbind result_bind].
    edestruct (IH (S s)) as [df' ->]; [done|lia|..].
    { apply list_lookup_insert_eq. by eapply lookup_lt_Some. }
    exists df'. rewrite list_insert_insert_eq.
    by rewrite (drop_S _ _ _ Hp).
Qed.

Lemma inner_loop_missing i ai os : ∀ s payoffs df,
  forallb (Spec.has_entry pm ai) os = false →
  (s + length os ≤ length p)%nat →
  (i < length payoffs)%nat →
  ∃ k,
    for_each (zip (seq s (length os)) os)
      (fun '(j, aj) st => StreamlitApp.pairwise_step pm p i ai j aj st)
      (payoffs, df)
    = Raise (KeyError k).
Proof.
  induction os as [|o os IH]; intros s payoffs df Hc Hlen Hi; [done|].
  simpl in Hc, Hlen. cbn [length seq zip zip_with for_each].
  destruct (Spec.has_entry pm ai o) eqn:Ho.
  - destruct (lookup_lt_is_Some_2 p s) as [p_j Hp]; [lia|].
    destruct (lookup_lt_is_Some_2 payoffs i) as [old Hold]; [done|].
    rewrite (pairwise_step_ok _ _ _ _ _ _ _ _ Ho Hp Hold). cbn [mbind result_bind].
    apply IH; [done|lia|]. by rewrite length_insert.
  - destruct (pairwise_step_missing i ai s o (payoffs, df) Ho) as [k ->].
    by exists k.
Qed.

Lemma row_loop_ok i ai os payoffs df old :
  forallb (Spec.has_entry pm ai) os = true →
  (length os ≤ length p)%nat →
  payoffs !! i = Some old →
  ∃ df',
    for_each (enumerate os)
      (fun '(j, aj) st => StreamlitApp.pairwise_step pm p i ai j aj st)
      (payoffs, df)
    = Ok (<[i := foldl add old (contributions pm ai os p)]> payoffs, df').
Proof. intros. by apply (inner_loop_ok i ai os 0%nat). Qed.

Lemma row_loop_missing i ai os payoffs df :
  forallb (Spec.has_entry pm ai) os = false →
  (length os ≤ length p)%nat →
  (i < length payoffs)%nat →
  ∃ k,
    for_each (enumerate os)
      (fun '(j, aj) st => StreamlitApp.pairwise_step pm p i ai j aj st)
      (payoffs, df)
    = Raise (KeyError k).
Proof. intros. by apply (inner_loop_missing i ai os 0%nat). Qed.

Variable strategies : list string.

Lemma outer_loop_ok rs : ∀ pre df,
  forallb (fun s => forallb (Spec.has_entry pm s) strategies) rs = true →
  (length strategies ≤ length p)%nat →
  ∃ df',
    for_each (zip (seq (length pre) (length rs)) rs)
      (fun '(i, ai) st =>
         for_each (enumerate strategies)
           (fun '(j, aj) st => StreamlitApp.pairwise_step pm p i ai j aj st)
           st)
      (pre ++ replicate (length rs) zero, df)
    = Ok (pre ++ (Spec.expected_payoff strategies pm p <$> rs), df').
Proof.
  induction rs as [|r rs IH]; intros pre df Hc Hlen.
  - exists df. done.
  - simpl in Hc. apply andb_true_iff in Hc as [Hr Hc].
    cbn [length seq zip zip_with for_each replicate].
    edestruct (row_loop_ok (length pre) r strategies
                 (pre ++ zero :: replicate (length rs) zero) df zero)
      as [df1 Hin]; [done|lia|..].
    { by rewrite lookup_app_r, Nat.sub_diag by lia. }
    rewrite Hin. cbn [mbind result_bind].
    rewrite insert_app_r_alt, Nat.sub_diag by lia. cbn [insert list_insert].
    rewrite (cons_middle _ pre), app_assoc.
    destruct (IH (pre ++ [foldl add zero (contributions pm r strategies p)]) df1)
      as [df' Hout]; [done..|].
    rewrite length_app, Nat.add_1_r in Hout. rewrite Hout.
    exists df'. by rewrite <-app_assoc.
Qed.

Lemma outer_loop_missing rs : ∀ s payoffs df,
  forallb (fun s => forallb (Spec.has_entry pm s) strategies) rs = false →
  (length strategies ≤ length p)%nat →
  (s + length rs ≤ length payoffs)%nat →
  ∃ k,
    for_each (zip (seq s (length rs)) rs)
      (fun '(i, ai) st =>
         for_each (enumerate strategies)
           (fun '(j, aj) st => StreamlitApp.pairwise_step pm p i ai j aj st)
           st)
      (payoffs, df)
    = Raise (KeyError k).
Proof.
  induction rs as [|r rs IH]; intros s payoffs df Hc Hlen Hs; [done|].
  simpl in Hc, Hs. cbn [length seq zip zip_with for_each].
  destruct (forallb (Spec.has_entry pm r) strategies) eqn:Hr.
  - destruct (lookup_lt_is_Some_2 payoffs s) as [old Hold]; [lia|].
    edestruct (row_loop_ok s r strategies payoffs df old)
      as [df1 Hin]; [done|lia|done|].
    rewrite Hin. cbn [mbind result_bind].
    apply IH; [done..|]. rewrite length_insert. lia.
  - edestruct (row_loop_missing s r strategies payoffs df)
      as [k Hin]; [done|lia|lia|].
    exists k. by rewrite Hin.
Qed.

Lemma pairwise_payoffs_ok :
  Spec.complete strategies pm = true →
  (length strategies ≤ length p)%nat →
  ∃ df, StreamlitApp.pairwise_payoffs strategies pm p
        = Ok (Spec.expected_payoffs strategies pm p, df).
Proof.
  intros Hc Hlen. unfold StreamlitApp.pairwise_payoffs, enumerate at 1.
  destruct (outer_loop_ok strategies [] (df_full zero strategies strategies) Hc Hlen)
    as [df Hout].
  exists df. apply Hout.
Qed.

Lemma pairwise_payoffs_missing :
  Spec.complete strategies pm = false →
  (length strategies ≤ length p)%nat →
  ∃ k, StreamlitApp.pairwise_payoffs strategies pm p = Raise (KeyError k).
Proof.
  intros Hc Hlen. unfold StreamlitApp.pairwise_payoffs, enumerate at 1.
  apply outer_loop_missing; [done..|]. unfold np_zeros. rewrite length_replicate. lia.
Qed.
End PairwiseLoop.

(** ** The best responses *)

Section Strategies.
Context {F : Type} `{Num F}.
Variable strategies : list string.
Variable pm : gmap string (gmap string F).

Lemma comprehension_ok s os :
  forallb (Spec.has_entry pm s) os = true →
  comprehension (fun opp => row ← dict_get pm s; dict_get row opp) os
  = Ok (Spec.entry pm s <$> os).
Proof.
  induction os as [|o os IH]; intros Hc; [done|].
  simpl in Hc. apply andb_true_iff in Hc as [Ho Hc].
  cbn [comprehension]. rewrite IH by done.
  destruct (has_entry_get _ _ _ Ho) as (row & Hrow & He).
  rewrite Hrow. simpl. by rewrite He.
Qed.

Lemma argmax_scan_lt (a : list F) : ∀ mp max_ind i,
  (max_ind < i)%nat → (argmax_scan mp max_ind i a < i + length a)%nat.
Proof.
  induction a as [|x a IH]; intros mp max_ind i Hlt; simpl.
  - destruct (is_nan mp); lia.
  - destruct (is_nan mp); [lia|].
    destruct (leb x mp).
    + specialize (IH mp max_ind (S i)). lia.
    + specialize (IH x i (S i)). lia.
Qed.

Lemma np_argmax_lt (a : list F) :
  a ≠ [] → ∃ idx, np_argmax a = Ok idx ∧ (idx < length a)%nat.
Proof.
  destruct a as [|x a]; [done|]. intros _. eexists; split; [done|].
  pose proof (argmax_scan_lt a x 0%nat 1%nat). simpl. lia.
Qed.

Lemma strategy_step_ok s (d : gmap string string) :
  s ∈ strategies →
  forallb (Spec.has_entry pm s) strategies = true →
  (entries ← comprehension
       (fun opp => row ← dict_get pm s; dict_get row opp) strategies;
   best_opponent_idx ← np_argmax entries;
   best_opponent ← list_get strategies best_opponent_idx;
   Ok (<[s := best_opponent]> d))
  = Ok (<[s := best_response strategies pm s]> d).
Proof.
  intros Hs Hc. rewrite comprehension_ok by done. simpl.
  unfold best_response.
  destruct (np_argmax_lt (Spec.entry pm s <$> strategies)) as (idx & -> & Hidx).
  { intros Hnil. apply fmap_nil_inv in Hnil. rewrite Hnil in Hs. by apply elem_of_nil in Hs. }
  simpl. rewrite length_fmap in Hidx.
  destruct (lookup_lt_is_Some_2 strategies idx Hidx) as [o Ho].
  unfold list_get. by rewrite Ho.
Qed.

Lemma strategies_loop_ok rs : ∀ s0 (d : gmap string string),
  rs ⊆ strategies →
  forallb (fun s => forallb (Spec.has_entry pm s) strategies) rs = true →
  for_each (zip (seq s0 (length rs)) rs)
    (fun '(i, automaton) period_strategies =>
       entries ← comprehension
         (fun opp => row ← dict_get pm automaton; dict_get row opp)
         strategies;
       best_opponent_idx ← np_argmax entries;
       best_opponent ← list_get strategies best_opponent_idx;
       Ok (<[automaton := best_opponent]> period_strategies))
    d
  = Ok (foldl (fun d s => <[s := best_response strategies pm s]> d) d rs).
Proof.
  induction rs as [|r rs IH]; intros s0 d Hsub Hc; [done|].
  simpl in Hc. apply andb_true_iff in Hc as [Hr Hc].
  cbn [length seq zip zip_with for_each].
  rewrite strategy_step_ok; [|set_solver|done]. cbn [mbind result_bind].
  rewrite IH; [done|set_solver|done].
Qed.

Lemma period_strategies_ok :
  Spec.complete strategies pm = true →
  StreamlitApp.period_strategies strategies pm = Ok (best_responses strategies pm).
Proof. intros Hc. by apply strategies_loop_ok. Qed.

Lemma foldl_insert_lookup (f : string → string) rs : ∀ (d : gmap string string) s,
  foldl (fun d s => <[s := f s]> d) d rs !! s
  = if decide (s ∈ rs) then Some (f s) else d !! s.
Proof.
  induction rs as [|r rs IH]; intros d s.
  - cbn [foldl]. case_decide as Hin; [|done]. by apply elem_of_nil in Hin.
  - cbn [foldl]. rewrite IH.
    destruct (decide (s ∈ rs)) as [Hin|Hin].
    + case_decide as Hin'; [done|]. destruct Hin'. by right.
    + destruct (decide (s = r)) as [->|Hne].
      * rewrite lookup_insert_eq. case_decide as Hin'; [done|].
        destruct Hin'. by left.
      * rewrite lookup_insert_ne by done. case_decide as Hin'; [|done].
        apply elem_of_cons in Hin' as [?|?]; done.
Qed.

Lemma best_responses_lookup s :
  best_responses strategies pm !! s
  = if decide (s ∈ strategies) then Some (best_response strategies pm s) else None.
Proof. unfold best_responses. by rewrite foldl_insert_lookup, lookup_empty. Qed.
End Strategies.

(** ** Recording and adjusting the payoffs *)

Section Store.
Context {F : Type} `{Num F}.

Lemma list_get_ok {A} (l : list A) i x : l !! i = Some x → list_get l i = Ok x.
Proof. unfold list_get. by intros ->. Qed.

Lemma store_loop_ok rs : ∀ s (payoffs : list F) ph,
  (s + length rs ≤ length payoffs)%nat →
  for_each (zip (seq s (length rs)) rs)
    (fun '(i, automaton) payoff_history =>
       x ← list_get payoffs i;
       Ok (defaultdict_append payoff_history automaton x))
    ph
  = Ok (record_payoffs rs (drop s payoffs) ph).
Proof.
  induction rs as [|r rs IH]; intros s payoffs ph Hlen; [done|].
  simpl in Hlen. cbn [length seq zip zip_with for_each].
  destruct (lookup_lt_is_Some_2 payoffs s) as [x Hx]; [lia|].
  rewrite (list_get_ok _ _ _ Hx). cbn [mbind result_bind].
  rewrite IH by lia. by rewrite (drop_S _ _ _ Hx).
Qed.

Lemma store_payoffs_ok rs (payoffs : list F) ph :
  (length rs ≤ length payoffs)%nat →
  store_payoffs rs payoffs ph = Ok (record_payoffs rs payoffs ph).
Proof. intros. by apply (store_loop_ok rs 0%nat). Qed.

Lemma record_payoffs_notin rs : ∀ (payoffs : list F) ph s,
  s ∉ rs → record_payoffs rs payoffs ph !! s = ph !! s.
Proof.
  unfold record_payoffs.
  induction rs as [|r rs IH]; intros payoffs ph s Hs; [done|].
  destruct payoffs as [|x payoffs]; [done|]. cbn [zip zip_with foldl].
  apply not_elem_of_cons in Hs as [Hne Hs].
  rewrite IH by done. unfold defaultdict_append. by rewrite lookup_insert_ne.
Qed.

Lemma record_payoffs_lookup rs : ∀ (payoffs : list F) ph i s x,
  NoDup rs → rs !! i = Some s → payoffs !! i = Some x →
  record_payoffs rs payoffs ph !! s = Some (default [] (ph !! s) ++ [x]).
Proof.
  induction rs as [|r rs IH]; intros payoffs ph i s x Hnd Hs Hx; [done|].
  destruct payoffs as [|y payoffs]; [done|].
  apply NoDup_cons in Hnd as [Hr Hnd].
  destruct i as [|i]; simpl in Hs, Hx.
  - simplify_eq. 
    change (record_payoffs (s :: rs) (x :: payoffs) ph)
      with (record_payoffs rs payoffs (defaultdict_append ph s x)).
    rewrite record_payoffs_notin by done.
    unfold defaultdict_append. by rewrite lookup_insert_eq.
  - change (record_payoffs (r :: rs) (y :: payoffs) ph)
      with (record_payoffs rs payoffs (defaultdict_append ph r y)).
    rewrite (IH _ _ i s x) by done.
    unfold defaultdict_append. rewrite lookup_insert_ne; [done|].
    intros ->. apply Hr. by eapply list_elem_of_lookup_2.
Qed.
End Store.

Section Adjust.
Context {F : Type} `{Num F}.
Variable strategies : list string.
Variable pm : gmap string (gmap string F).

Lemma adjust_payoffs_multipliers p :
  adjust_payoffs (Spec.expected_payoffs strategies pm p)
  = match Spec.multipliers strategies pm p with
    | Some adj => Ok adj
    | None => Raise ValueError
    end.
Proof.
  unfold adjust_payoffs, Spec.multipliers.
  destruct (Spec.expected_payoffs strategies pm p) as [|x π] eqn:Hπ; [done|].
  cbn [np_min mbind result_bind]. unfold Spec.multiplier.
  by destruct (ltb _ zero).
Qed.

Lemma multipliers_nonempty p :
  strategies ≠ [] → ∃ adj, Spec.multipliers strategies pm p = Some adj
                           ∧ length adj = length strategies.
Proof.
  intros Hne. unfold Spec.multipliers, Spec.expected_payoffs.
  destruct strategies as [|s ss]; [done|]. 
  eexists. split; [done|]. by rewrite !length_fmap.
Qed.

Lemma multipliers_empty p :
  strategies = [] → Spec.multipliers strategies pm p = None.
Proof. intros ->. done. Qed.

Lemma update_length p p' :
  length p = length strategies →
  Spec.update strategies pm p = Some p' → length p' = length strategies.
Proof.
  intros Hp. unfold Spec.update.
  destruct (decide (strategies = [])) as [Hnil|Hne].
  - by rewrite multipliers_empty.
  - destruct (multipliers_nonempty p Hne) as (adj & -> & Hadj). simpl.
    intros [= <-]. unfold Spec.renormalize.
    rewrite length_fmap, length_zip_with. lia.
Qed.
End Adjust.

(** ** The loop over the periods *)

Section Run.
Context {F : Type} `{Num F}.
Variable strategies : list string.
Variable pm : gmap string (gmap string F).

Lemma period_body_ok period st p' :
  Spec.complete strategies pm = true →
  length (probabilities st) = length strategies →
  Spec.update strategies pm (probabilities st) = Some p' →
  ∃ df,
    period_body strategies pm period st
    = Ok (mkLoopState p'
        (mkSimulation (history (run st) ++ [p'])
           (record_payoffs strategies
              (Spec.expected_payoffs strategies pm (probabilities st))
              (payoff_history (run st)))
           (strategy_history (run st) ++ [best_responses strategies pm])
           (payoff_matrices (run st) ++
              [df_column (Spec.expected_payoffs strategies pm (probabilities st))
                 strategies ("t=" +:+ pretty period)])
           (pairwise_payoffs_history (run st) ++ [df]))).
Proof.
  intros Hc Hlen Hup. unfold period_body.
  destruct (pairwise_payoffs_ok pm (probabilities st) strategies Hc) as [df ->]; [lia|].
  exists df. cbn [mbind result_bind].
  rewrite period_strategies_ok by done. cbn [mbind result_bind].
  rewrite store_payoffs_ok by (unfold Spec.expected_payoffs; rewrite length_fmap; lia).
  cbn [mbind result_bind].
  rewrite adjust_payoffs_multipliers.
  unfold Spec.update in Hup.
  destruct (Spec.multipliers strategies pm (probabilities st)) as [adj|]; [|done].
  simpl in Hup. injection Hup as <-. done.
Qed.

Lemma period_body_missing period st :
  Spec.complete strategies pm = false →
  length (probabilities st) = length strategies →
  ∃ k, period_body strategies pm period st = Raise (KeyError k).
Proof.
  intros Hc Hlen. unfold period_body.
  destruct (pairwise_payoffs_missing pm (probabilities st) strategies Hc)
    as [k ->]; [lia|].
  by exists k.
Qed.

Lemma period_body_empty period st :
  strategies = [] →
  period_body strategies pm period st = Raise ValueError.
Proof. intros Hnil. unfold period_body. rewrite Hnil. done. Qed.

Lemma initial_probabilities_uniform :
  initial_probabilities strategies = Spec.uniform strategies.
Proof.
  unfold initial_probabilities, Spec.uniform, np_ones.
  by rewrite fmap_replicate.
Qed.

Lemma trace_initial : trace strategies pm 0 (initial_state strategies).
Proof.
  unfold initial_state. rewrite initial_probabilities_uniform.
  split; simpl; try done.
  - unfold Spec.uniform. by rewrite length_replicate.
  - intros; lia.
Qed.

Lemma trace_period t period st :
  Spec.complete strategies pm = true → strategies ≠ [] → NoDup strategies →
  trace strategies pm t st →
  ∃ st', period_body strategies pm period st = Ok st'
         ∧ trace strategies pm (S t) st'.
Proof.
  intros Hc Hne Hnd [Hlen Hlast Hsh Hfirst Hstep Hpay Hrec Hoth Hstr Hmat Hpw].
  destruct (multipliers_nonempty strategies pm (probabilities st) Hne)
    as (adj & Hadj & Hadjlen).
  assert (Hup : Spec.update strategies pm (probabilities st)
                = Some (Spec.renormalize (zip_with mul (probabilities st) adj))).
  { unfold Spec.update. by rewrite Hadj. }
  destruct (period_body_ok period st _ Hc Hsh Hup) as [df Hbody].
  eexists. split; [exact Hbody|].
  set (p' := Spec.renormalize (zip_with mul (probabilities st) adj)) in *.
  split; cbn [run history probabilities payoff_history strategy_history
              payoff_matrices pairwise_payoffs_history].
  - rewrite length_app. simpl. lia.
  - rewrite lookup_app_r by lia. by rewrite Hlen, Nat.sub_diag.
  - by apply (update_length strategies pm (probabilities st)).
  - rewrite lookup_app_l by lia. done.
  - intros t' p Ht' Hp.
    destruct (decide (t' < t)%nat) as [Hlt|Hge].
    + rewrite lookup_app_l in Hp by lia.
      destruct (Hstep t' p Hlt Hp) as (q & Hq & Hupq).
      exists q. split; [|done]. rewrite lookup_app_l; [done|].
      by eapply lookup_lt_Some.
    + assert (t' = t) as -> by lia.
      rewrite lookup_app_l in Hp by lia. rewrite Hlast in Hp. simplify_eq.
      exists p'. split; [|done].
      rewrite lookup_app_r by lia. by rewrite Hlen, Nat.sub_diag.
  - intros i s Hs.
    assert (Hπ : Spec.expected_payoffs strategies pm (probabilities st) !! i
                 = Some (Spec.expected_payoff strategies pm (probabilities st) s)).
    { unfold Spec.expected_payoffs. by rewrite list_lookup_fmap, Hs. }
    rewrite (record_payoffs_lookup _ _ _ i s _ Hnd Hs Hπ). simpl.
    rewrite (Hpay i s Hs).
    rewrite take_app_le by lia.
    rewrite (take_S_r _ _ _ Hlast), fmap_app. done.
  - intros s Hs _. apply list_elem_of_lookup in Hs as [i Hs].
    assert (Hπ : Spec.expected_payoffs strategies pm (probabilities st) !! i
                 = Some (Spec.expected_payoff strategies pm (probabilities st) s)).
    { unfold Spec.expected_payoffs. by rewrite list_lookup_fmap, Hs. }
    by rewrite (record_payoffs_lookup _ _ _ i s _ Hnd Hs Hπ).
  - intros s Hs. rewrite record_payoffs_notin by done. by apply Hoth.
  - rewrite Hstr. by rewrite <-replicate_S_end.
  - rewrite length_app. simpl. lia.
  - rewrite length_app. simpl. lia.
Qed.

Lemma trace_loop (t : nat) :
  Spec.complete strategies pm = true → strategies ≠ [] → NoDup strategies →
  ∃ st, for_each (range (Z.of_nat t)) (period_body strategies pm)
          (initial_state strategies) = Ok st
        ∧ trace strategies pm t st.
Proof.
  intros Hc Hne Hnd. induction t as [|t (st & Hrun & Htr)].
  - exists (initial_state strategies). split; [done|]. apply trace_initial.
  - rewrite range_succ, for_each_snoc, Hrun. cbn [mbind result_bind].
    by apply trace_period.
Qed.
End Run.

(** ** [replication_dynamics.py] against [streamlit_app.py] *)

Lemma for_each_rel {A S1 S2 : Type} (R : S1 → S2 → Prop) (l : list A)
    (body1 : A → S1 → result S1) (body2 : A → S2 → result S2) :
  Forall (fun x => ∀ s1 s2, R s1 s2 → result_rel R (body1 x s1) (body2 x s2)) l →
  ∀ s1 s2, R s1 s2 → result_rel R (for_each l body1 s1) (for_each l body2 s2).
Proof.
  induction 1 as [|x l Hx _ IH]; intros s1 s2 HR; [done|].
  simpl. specialize (Hx s1 s2 HR).
  destruct (body1 x s1) as [s1'|e1], (body2 x s2) as [s2'|e2]; simpl in *; try done.
  by apply IH.
Qed.

Lemma enumerate_lookup_lt {A} (l : list A) i x :
  (i, x) ∈ enumerate l → (i < length l)%nat.
Proof.
  unfold enumerate. intros Hin. apply elem_of_zip_l in Hin.
  apply elem_of_seq in Hin. lia.
Qed.

Section Link.
Context {F : Type} `{Num F}.
Variable strategies : list string.
Variable pm : gmap string (gmap string F).

Lemma payoff_step_rel p i ai j aj st payoffs :
  (i < length strategies)%nat → (j < length p)%nat →
  same_payoffs strategies st payoffs →
  result_rel (same_payoffs strategies)
    (StreamlitApp.pairwise_step pm p i ai j aj st)
    (ReplicationDynamics.payoff_step pm p i ai j aj payoffs).
Proof.
  intros Hi Hj [Hst Hlen]. destruct st as [payoffs' df]. simpl in Hst. subst payoffs'.
  unfold StreamlitApp.pairwise_step, ReplicationDynamics.payoff_step.
  destruct (lookup_lt_is_Some_2 payoffs i) as [old Hold]; [lia|].
  destruct (lookup_lt_is_Some_2 p j) as [p_j Hp]; [lia|].
  rewrite (list_get_ok _ _ _ Hold), (list_get_ok _ _ _ Hp).
  destruct (dict_get pm ai) as [row|e]; simpl; [|done].
  destruct (dict_get row aj) as [entry|e]; simpl; [|done].
  split; [done|]. by rewrite length_insert.
Qed.

Lemma round_payoffs_rel p :
  length p = length strategies →
  result_rel (same_payoffs strategies)
    (StreamlitApp.pairwise_payoffs strategies pm p)
    (ReplicationDynamics.round_payoffs strategies pm p).
Proof.
  intros Hp. unfold StreamlitApp.pairwise_payoffs, ReplicationDynamics.round_payoffs.
  apply for_each_rel.
  - apply Forall_forall. intros [i ai] Hi%enumerate_lookup_lt st payoffs Hst.
    apply for_each_rel; [|done].
    apply Forall_forall. intros [j aj] Hj%enumerate_lookup_lt st' payoffs' Hst'.
    apply payoff_step_rel; [done|lia|done].
  - split; [done|]. unfold np_zeros. by rewrite length_replicate.
Qed.

Lemma reweight_length (p adj : list F) :
  length (reweight p adj) = Nat.min (length p) (length adj).
Proof. unfold reweight. by rewrite length_fmap, length_zip_with. Qed.

Lemma period_body_rel period st st' :
  same_run strategies st st' →
  result_rel (same_run strategies)
    (StreamlitApp.period_body strategies pm period st)
    (ReplicationDynamics.period_body strategies pm period st').
Proof.
  intros [-> Hlen]. pose proof (round_payoffs_rel _ Hlen) as Hrel.
  destruct (Spec.complete strategies pm) eqn:Hc.
  - destruct (pairwise_payoffs_ok pm (StreamlitApp.probabilities st) strategies Hc)
      as [df Hpw]; [lia|].
    unfold StreamlitApp.period_body, ReplicationDynamics.period_body.
    rewrite Hpw in Hrel |- *.
    destruct (ReplicationDynamics.round_payoffs _ _ _) as [payoffs|e]; [|done].
    destruct Hrel as [Hpay Hplen]. simpl in Hpay. subst payoffs.
    cbn [mbind result_bind]. rewrite period_strategies_ok by done.
    cbn [mbind result_bind].
    destruct (store_payoffs _ _ _) as [ph|e]; [|done]. cbn [mbind result_bind].
    destruct (adjust_payoffs _) as [adj|e] eqn:Hadj; [|done]. cbn [mbind result_bind].
    split; [done|]. simpl. rewrite reweight_length.
    rewrite adjust_payoffs_multipliers in Hadj.
    destruct (decide (strategies = [])) as [Hnil|Hne].
    { by rewrite multipliers_empty in Hadj. }
    destruct (multipliers_nonempty strategies pm (StreamlitApp.probabilities st) Hne)
      as (adj' & Hadj' & Hlen').
    rewrite Hadj' in Hadj. simplify_eq. lia.
  - destruct (pairwise_payoffs_missing pm (StreamlitApp.probabilities st) strategies Hc)
      as [k Hpw]; [lia|].
    unfold StreamlitApp.period_body, ReplicationDynamics.period_body.
    rewrite Hpw in Hrel |- *.
    destruct (ReplicationDynamics.round_payoffs _ _ _) as [payoffs|e]; [done|].
    simpl in Hrel. by subst e.
Qed.

(** [replication_dynamics.py] returns the first two components of what
    [streamlit_app.py] returns for the same matrix, and raises what it
    raises. *)
Lemma replication_dynamics_streamlit_app dflt num_periods :
  ReplicationDynamics.simulate_replication_dynamics strategies pm num_periods
  = (fun sim => (StreamlitApp.history sim, StreamlitApp.payoff_history sim))
      <$> StreamlitApp.simulate_replication_dynamics strategies dflt
            num_periods (Some pm).
Proof.
  unfold ReplicationDynamics.simulate_replication_dynamics,
    StreamlitApp.simulate_replication_dynamics. cbn [default].
  assert (Hinit : same_run strategies (StreamlitApp.initial_state strategies)
    (initial_probabilities strategies, [initial_probabilities strategies], ∅)).
  { split; [done|]. cbn. unfold initial_probabilities, np_ones.
    by rewrite length_fmap, length_replicate. }
  pose proof (for_each_rel (same_run strategies) (range num_periods)
    (StreamlitApp.period_body strategies pm)
    (ReplicationDynamics.period_body strategies pm)
    ltac:(apply Forall_forall; intros; by apply period_body_rel)
    _ _ Hinit) as Hrel.
  unfold result_rel in Hrel.
  destruct (for_each _ (StreamlitApp.period_body _ _) _) as [st|e],
           (for_each _ (ReplicationDynamics.period_body _ _) _) as [st'|e'];
    cbn [fmap result_fmap mbind result_bind]; try done.
  - by destruct Hrel as [-> _].
  - by rewrite Hrel.
Qed.
End Link.

(** ** Pairwise summation *)

(** Where addition is associative and commutative with [0] as its unit,
    the order in which [np.sum] adds does not matter: it returns what
    adding from left to right returns. *)
Section PairwiseSum.
Context {F : Type} `{Num F}.
Hypothesis add_assoc : ∀ x y z : F, add x (add y z) = add (add x y) z.
Hypothesis add_comm : ∀ x y : F, add x y = add y x.
Hypothesis add_zero_l : ∀ x : F, add zero x = x.

Lemma foldl_add (acc : F) (l : list F) :
  foldl add acc l = add acc (accumulate l).
Proof.
  unfold accumulate. revert acc.
  induction l as [|x l IH]; intros acc; cbn [foldl].
  - by rewrite add_comm, add_zero_l.
  - by rewrite IH, (IH (add zero x)), add_zero_l, add_assoc.
Qed.

Lemma accumulate_cons (x : F) (l : list F) :
  accumulate (x :: l) = add x (accumulate l).
Proof. unfold accumulate at 1. cbn [foldl]. by rewrite foldl_add, add_zero_l. Qed.

Lemma accumulate_app (l1 l2 : list F) :
  accumulate (l1 ++ l2) = add (accumulate l1) (accumulate l2).
Proof.
  induction l1 as [|x l1 IH]; cbn [app].
  - unfold accumulate at 2. cbn [foldl]. by rewrite add_zero_l.
  - by rewrite !accumulate_cons, IH, add_assoc.
Qed.

Lemma accumulate_zip_with (r : list F) : ∀ b : list F,
  length r = length b →
  accumulate (zip_with add r b) = add (accumulate r) (accumulate b).
Proof.
  induction r as [|x r IH]; intros [|y b] Hlen; try done.
  cbn [zip_with]. rewrite !accumulate_cons, IH by (simpl in Hlen; lia).
  rewrite !add_assoc. f_equal.
  rewrite <-!add_assoc. f_equal. apply add_comm.
Qed.

Lemma lanes_sum (blocks : nat) : ∀ r a : list F,
  length r = 8%nat → (8 * blocks ≤ length a)%nat →
  add (accumulate (lanes blocks r a).1) (accumulate (lanes blocks r a).2)
  = add (accumulate r) (accumulate a).
Proof.
  induction blocks as [|blocks IH]; intros r a Hr Ha; [done|].
  cbn [lanes]. rewrite IH.
  - rewrite accumulate_zip_with by (rewrite length_take; lia).
    rewrite <-add_assoc, <-accumulate_app. by rewrite take_drop.
  - rewrite length_zip_with, length_take. lia.
  - rewrite length_drop. lia.
Qed.

Lemma lanes_total_sum (r : list F) : lanes_total r = accumulate r.
Proof.
  do 8 (destruct r as [|? r]; [done|]). destruct r as [|? r]; [|done].
  unfold lanes_total, accumulate. cbn [foldl].
  by rewrite add_zero_l, !add_assoc.
Qed.

Lemma pairwise_block_sum (a : list F) :
  (8 ≤ length a)%nat → pairwise_block a = accumulate a.
Proof.
  intros Ha. unfold pairwise_block.
  pose proof (lanes_sum (length a / 8 - 1) (take 8 a) (drop 8 a)) as Hsum.
  destruct (lanes _ _ _) as [r rest]. cbn [fst snd] in Hsum.
  rewrite foldl_add, lanes_total_sum, Hsum.
  - by rewrite <-accumulate_app, take_drop.
  - rewrite length_take. lia.
  - rewrite length_drop.
    pose proof (Nat.div_mod_eq (length a) 8). lia.
Qed.

Lemma pairwise_sum_exact (fuel : nat) : ∀ a : list F,
  pairwise_sum fuel a = accumulate a.
Proof.
  induction fuel as [|fuel IH]; intros a; cbn [pairwise_sum].
  - destruct (Nat.ltb_spec (length a) 8); [done|].
    destruct (length a <=? 128)%nat; by apply pairwise_block_sum.
  - destruct (Nat.ltb_spec (length a) 8); [done|].
    destruct (length a <=? 128)%nat; [by apply pairwise_block_sum|].
    by rewrite !IH, <-accumulate_app, take_drop.
Qed.

Lemma np_sum_exact (a : list F) : np_sum a = accumulate a.
Proof. unfold np_sum. by rewrite pairwise_sum_exact, add_zero_l. Qed.
End PairwiseSum.

(** ** Exact arithmetic *)

Section Exact.
Local Open Scope Q_scope.
Implicit Types (x y acc : Q) (l p adj w : list Q).

Lemma Qltb_lt x y : ltb x y = true ↔ x < y.
Proof.
  cbn. unfold Qltb. rewrite negb_true_iff, <-not_true_iff_false, Qle_bool_iff.
  split; [apply Qnot_le_lt|apply Qlt_not_le].
Qed.

Lemma Qltb_ge x y : ltb x y = false ↔ y <= x.
Proof.
  cbn. unfold Qltb. by rewrite negb_false_iff, Qle_bool_iff.
Qed.

Lemma Qleb_le x y : leb x y = true ↔ x <= y.
Proof. cbn. apply Qle_bool_iff. Qed.

(** ** Sums *)

Lemma Qplus_assoc_eq x y z : Qplus x (Qplus y z) = Qplus (Qplus x y) z.
Proof.
  destruct x as [a b], y as [c d], z as [e f]. unfold Qplus. cbn [Qnum Qden].
  f_equal; [|apply Pos.mul_assoc]. rewrite !Pos2Z.inj_mul. ring.
Qed.

Lemma Qplus_comm_eq x y : Qplus x y = Qplus y x.
Proof.
  destruct x as [a b], y as [c d]. unfold Qplus. cbn [Qnum Qden].
  f_equal; [ring|apply Pos.mul_comm].
Qed.

Lemma Qplus_zero_eq x : Qplus 0 x = x.
Proof.
  destruct x as [a b]. unfold Qplus. cbn [Qnum Qden]. f_equal; ring.
Qed.

(** In exact arithmetic [np.sum] is the sum from left to right. *)
Lemma np_sum_accumulate l : np_sum l = accumulate l.
Proof.
  apply np_sum_exact;
    [exact Qplus_assoc_eq|exact Qplus_comm_eq|exact Qplus_zero_eq].
Qed.

Lemma foldl_Qplus acc l : foldl Qplus acc l == acc + np_sum l.
Proof.
  rewrite np_sum_accumulate. unfold accumulate. cbn [add zero Q_num].
  revert acc.
  induction l as [|x l IH]; intros acc; simpl.
  - lra.
  - rewrite IH, (IH (0 + x)). lra.
Qed.

Lemma np_sum_cons x l : np_sum (x :: l) == x + np_sum l.
Proof.
  rewrite (np_sum_accumulate (x :: l)). unfold accumulate.
  cbn [foldl add zero Q_num]. rewrite foldl_Qplus. lra.
Qed.

Lemma np_sum_nil : np_sum (@nil Q) == 0.
Proof. reflexivity. Qed.

Lemma np_sum_nonneg l : Forall (fun x => 0 <= x) l → 0 <= np_sum l.
Proof.
  induction 1 as [|x l Hx _ IH].
  - rewrite np_sum_nil. lra.
  - rewrite np_sum_cons. lra.
Qed.

Lemma np_sum_div l c :
  ¬ c == 0 → np_sum ((fun x => x / c) <$> l) == np_sum l / c.
Proof.
  intros Hc. induction l as [|x l IH].
  - rewrite fmap_nil, !np_sum_nil. field. done.
  - rewrite fmap_cons, !np_sum_cons, IH. field. done.
Qed.

Lemma np_sum_replicate (n : nat) c :
  np_sum (replicate n c) == inject_Z (Z.of_nat n) * c.
Proof.
  induction n as [|n IH].
  - cbn [replicate Z.of_nat]. rewrite np_sum_nil. ring.
  - cbn [replicate]. rewrite np_sum_cons, IH, Nat2Z.inj_succ.
    unfold Z.succ. rewrite inject_Z_plus. ring.
Qed.

Lemma np_sum_weighted p : ∀ adj,
  Forall (fun x => 0 <= x) p → Forall (fun x => 1 <= x) adj →
  (length p <= length adj)%nat →
  np_sum p <= np_sum (zip_with Qmult p adj).
Proof.
  induction p as [|x p IH]; intros adj Hp Hadj Hlen.
  - cbn [zip_with]. lra.
  - destruct adj as [|a adj]; [simpl in Hlen; lia|].
    apply Forall_cons in Hp as [Hx Hp]. apply Forall_cons in Hadj as [Ha Hadj].
    cbn [zip_with]. rewrite !np_sum_cons.
    specialize (IH adj Hp Hadj ltac:(simpl in Hlen; lia)).
    assert (x <= x * a) by nra. lra.
Qed.

Lemma zip_with_nonneg p : ∀ adj,
  Forall (fun x => 0 <= x) p → Forall (fun x => 1 <= x) adj →
  Forall (fun x => 0 <= x) (zip_with Qmult p adj).
Proof.
  induction p as [|x p IH]; intros adj Hp Hadj; [constructor|].
  destruct adj as [|a adj]; [constructor|].
  apply Forall_cons in Hp as [Hx Hp]. apply Forall_cons in Hadj as [Ha Hadj].
  cbn [zip_with]. constructor; [nra|by apply IH].
Qed.

(** ** The minimum *)

Lemma np_minimum_Q x y : np_minimum x y = if Qle_bool y x then y else x.
Proof.
  unfold np_minimum. cbn [ltb is_nan Q_num]. unfold Qltb.
  rewrite orb_false_r. by destruct (Qle_bool y x).
Qed.

Lemma np_minimum_cases x y :
  np_minimum x y = y ∧ y <= x ∨ np_minimum x y = x ∧ x < y.
Proof.
  rewrite np_minimum_Q. destruct (Qle_bool y x) eqn:Hle.
  - left. split; [done|]. by apply Qle_bool_iff.
  - right. split; [done|]. apply Qnot_le_lt.
    rewrite <-Qle_bool_iff. by rewrite Hle.
Qed.

Lemma foldl_np_minimum l : ∀ acc,
  foldl np_minimum acc l <= acc
  ∧ Forall (fun x => foldl np_minimum acc l <= x) l
  ∧ foldl np_minimum acc l ∈ acc :: l.
Proof.
  induction l as [|x l IH]; intros acc; cbn [foldl].
  - split; [lra|]. split; [constructor|]. by left.
  - destruct (IH (np_minimum acc x)) as (Hacc & Hall & Hin).
    destruct (np_minimum_cases acc x) as [[Heq Hle]|[Heq Hle]];
      rewrite Heq in *.
    + split; [lra|]. split; [by constructor|].
      apply elem_of_cons in Hin as [Hm|Hin]; [|by do 2 right].
      rewrite Hm. right; by left.
    + split; [done|]. split; [constructor; [lra|done]|].
      apply elem_of_cons in Hin as [Hm|Hin]; [|by do 2 right].
      rewrite Hm. by left.
Qed.

Lemma np_min_Q l m :
  np_min l = Ok m → Forall (fun x => m <= x) l ∧ m ∈ l.
Proof.
  destruct l as [|x l]; [done|]. intros [= <-].
  destruct (foldl_np_minimum l x) as (Hacc & Hall & Hin).
  split; [by constructor|done].
Qed.
End Exact.

(** ** Shares in exact arithmetic *)

Section TraceInduction.
Context {F : Type} `{Num F}.
Variable strategies : list string.
Variable pm : gmap string (gmap string F).
Variable P : list F → Prop.
Hypothesis P_uniform : P (Spec.uniform strategies).
Hypothesis P_update : ∀ p p', P p → Spec.update strategies pm p = Some p' → P p'.

Lemma trace_lookup_invariant t st :
  trace strategies pm t st →
  ∀ t', (t' ≤ t)%nat → ∃ p, history (run st) !! t' = Some p ∧ P p.
Proof.
  intros Htr. induction t' as [|t' IH]; intros Ht'.
  - exists (Spec.uniform strategies). split; [apply Htr|done].
  - destruct IH as (p & Hp & HP); [lia|].
    destruct (trace_step _ _ _ _ Htr t' p) as (p' & Hp' & Hup); [lia|done|].
    exists p'. split; [done|]. by eapply P_update.
Qed.

Lemma trace_history_invariant t st :
  trace strategies pm t st → Forall P (history (run st)).
Proof.
  intros Htr. apply Forall_lookup. intros t' p Hp.
  assert (t' ≤ t)%nat as Ht'.
  { apply lookup_lt_Some in Hp. rewrite (trace_length _ _ _ _ Htr) in Hp. lia. }
  destruct (trace_lookup_invariant t st Htr t' Ht') as (q & Hq & HP).
  by simplify_eq.
Qed.
End TraceInduction.

Section ExactShares.
Local Open Scope Q_scope.
Variable strategies : list string.
Variable pm : gmap string (gmap string Q).

Lemma multipliers_ge_one p adj :
  Spec.multipliers strategies pm p = Some adj →
  Forall (fun a => 1 <= a) adj.
Proof.
  unfold Spec.multipliers.
  destruct (np_min _) as [m|] eqn:Hmin; [|done]. intros [= <-].
  apply np_min_Q in Hmin as [Hall _].
  apply Forall_fmap. eapply Forall_impl; [exact Hall|].
  intros x Hx. unfold compose, Spec.multiplier. cbn beta in Hx |- *.
  destruct (ltb m zero) eqn:Hm; cbn [add sub one Q_num].
  - lra.
  - apply Qltb_ge in Hm. cbn [zero Q_num] in Hm. lra.
Qed.

Lemma uniform_distribution :
  strategies ≠ [] → distribution strategies (Spec.uniform strategies).
Proof.
  intros Hne. unfold distribution, Spec.uniform.
  assert (Hk : 0 < inject_Z (Z.of_nat (length strategies))).
  { change 0 with (inject_Z 0). rewrite <-Zlt_Qlt.
    destruct strategies; [done|]. simpl. lia. }
  split; [by rewrite length_replicate|]. split.
  - apply Forall_replicate. cbn [div one of_Z Q_num].
    apply Qle_shift_div_l; [done|]. lra.
  - rewrite np_sum_replicate. cbn [div one of_Z Q_num]. field. lra.
Qed.

Lemma denominator_positive p adj :
  distribution strategies p → Spec.multipliers strategies pm p = Some adj →
  length adj = length strategies →
  0 < np_sum (zip_with Qmult p adj).
Proof.
  intros (Hlen & Hpos & Hsum) Hadj Hadjlen.
  pose proof (np_sum_weighted p adj Hpos (multipliers_ge_one _ _ Hadj)
                ltac:(lia)).
  lra.
Qed.

Lemma update_distribution p p' :
  distribution strategies p → Spec.update strategies pm p = Some p' →
  distribution strategies p'.
Proof.
  intros Hp Hup. pose proof Hp as (Hlen & Hpos & Hsum).
  split; [by eapply update_length|].
  unfold Spec.update in Hup.
  destruct (Spec.multipliers strategies pm p) as [adj|] eqn:Hadj; [|done].
  simpl in Hup. injection Hup as <-.
  assert (Hadjlen : length adj = length strategies).
  { destruct (decide (strategies = [])) as [Hnil|Hne].
    - by rewrite multipliers_empty in Hadj.
    - destruct (multipliers_nonempty strategies pm p Hne) as (? & ? & ?).
      by simplify_eq. }
  pose proof (denominator_positive p adj Hp Hadj Hadjlen) as HS.
  pose proof (zip_with_nonneg p adj Hpos (multipliers_ge_one _ _ Hadj)) as Hw.
  unfold Spec.renormalize. cbn [mul div Q_num] in *. split.
  - apply Forall_fmap. eapply Forall_impl; [exact Hw|].
    intros x Hx. unfold compose. cbn beta in Hx |- *.
    apply Qle_shift_div_l; [done|]. lra.
  - rewrite np_sum_div by lra. field. lra.
Qed.
End ExactShares.

(** ** The laws of the order *)

#[global] Instance Q_order : OrderLaws Q.
Proof.
  split.
  - intros x y _ _. rewrite !Qleb_le.
    destruct (Qlt_le_dec x y); [left|right]; lra.
  - intros x y z. rewrite !Qleb_le. lra.
  - intros x y. rewrite Qltb_lt, Qleb_le. lra.
  - intros x y _ _. rewrite Qltb_ge, Qleb_le. lra.
  - done.
Qed.

(** *** The order of binary64 *)

Ltac compare_cases :=
  repeat match goal with
  | |- context [(?a ?= ?b)%Z] => destruct (Z.compare_spec a b)
  | H : context [(?a ?= ?b)%Z] |- _ => destruct (Z.compare_spec a b)
  | |- context [PosDef.Pos.compare_cont Eq ?a ?b] =>
      change (PosDef.Pos.compare_cont Eq a b) with (Pos.compare a b);
      destruct (Pos.compare_spec a b)
  | H : context [PosDef.Pos.compare_cont Eq ?a ?b] |- _ =>
      change (PosDef.Pos.compare_cont Eq a b) with (Pos.compare a b) in H;
      destruct (Pos.compare_spec a b)
  end.

Lemma SFleb_total (x y : spec_float) :
  x ≠ S754_nan → y ≠ S754_nan → SFleb x y = true ∨ SFleb y x = true.
Proof.
  intros Hx Hy. unfold SFleb, SFcompare.
  destruct x as [[]|[]| |[] mx ex], y as [[]|[]| |[] my ey]; try done;
    auto; compare_cases; cbn; auto; lia.
Qed.

Lemma SFleb_trans (x y z : spec_float) :
  SFleb x y = true → SFleb y z = true → SFleb x z = true.
Proof.
  unfold SFleb, SFcompare.
  destruct x as [[]|[]| |[] mx ex], y as [[]|[]| |[] my ey],
    z as [[]|[]| |[] mz ez]; try done;
    compare_cases; cbn; try done; try lia.
Qed.

Lemma SFltb_leb (x y : spec_float) : SFltb x y = true → SFleb x y = true.
Proof. unfold SFltb, SFleb. by destruct (SFcompare x y) as [[]|]. Qed.

Lemma SFleb_of_not_ltb (x y : spec_float) :
  x ≠ S754_nan → y ≠ S754_nan → SFltb x y = false → SFleb y x = true.
Proof.
  intros Hx Hy. unfold SFleb, SFltb, SFcompare.
  destruct x as [[]|[]| |[] mx ex], y as [[]|[]| |[] my ey]; try done;
    compare_cases; cbn; try done; try lia.
Qed.

Lemma SFltb_number (x y : spec_float) :
  SFltb x y = true → x ≠ S754_nan ∧ y ≠ S754_nan.
Proof.
  unfold SFltb, SFcompare.
  by destruct x as [[]|[]| |[] mx ex], y as [[]|[]| |[] my ey].
Qed.

Lemma is_nan_spec (x : float) :
  PrimFloat.is_nan x = false ↔ Prim2SF x ≠ S754_nan.
Proof.
  unfold PrimFloat.is_nan. rewrite FloatAxioms.eqb_spec.
  unfold SFeqb, SFcompare.
  destruct (Prim2SF x) as [[]|[]| |[] m e]; cbn; try done;
    rewrite ?Z.compare_refl;
    change (PosDef.Pos.compare_cont Eq m m) with (Pos.compare m m);
    rewrite ?Pos.compare_refl; done.
Qed.

#[global] Instance float_order : OrderLaws float.
Proof.
  split; cbn [leb ltb is_nan float_num]; intros x y.
  - rewrite !is_nan_spec, !FloatAxioms.leb_spec. apply SFleb_total.
  - intros z. rewrite !FloatAxioms.leb_spec. apply SFleb_trans.
  - rewrite FloatAxioms.ltb_spec, FloatAxioms.leb_spec. apply SFltb_leb.
  - rewrite !is_nan_spec, FloatAxioms.ltb_spec, FloatAxioms.leb_spec.
    apply SFleb_of_not_ltb.
  - rewrite !is_nan_spec, FloatAxioms.ltb_spec. apply SFltb_number.
Qed.

(** ** The smallest payoff *)

Section Minimum.
Context {F : Type} `{OrderLaws F}.

Lemma leb_refl (x : F) : is_nan x = false → leb x x = true.
Proof. intros Hx. by destruct (leb_total x x Hx Hx). Qed.





End Minimum.

(** ** The largest entry of a row *)

Section Argmax.
Context {F : Type} `{OrderLaws F}.

Lemma argmax_scan_max (a : list F) : ∀ pre mp max_ind,
  numbers (pre ++ a) →
  pre !! max_ind = Some mp →
  (∀ y, y ∈ pre → leb y mp = true) →
  ∃ v, (pre ++ a) !! argmax_scan mp max_ind (length pre) a = Some v
       ∧ ∀ y, y ∈ pre ++ a → leb y v = true.
Proof.
  induction a as [|x a IH]; intros pre mp max_ind Hnum Hmp Hmax;
    cbn [argmax_scan].
  all: assert (is_nan mp = false) as ->.
  all: try (eapply (proj1 (Forall_forall _ _) Hnum), elem_of_app; left;
            by eapply list_elem_of_lookup_2).
  - exists mp. rewrite app_nil_r. done.
  - assert (Hx : is_nan x = false).
    { eapply (proj1 (Forall_forall _ _) Hnum), elem_of_app. right. by left. }
    assert (Hmpn : is_nan mp = false).
    { eapply (proj1 (Forall_forall _ _) Hnum), elem_of_app; left.
      by eapply list_elem_of_lookup_2. }
    rewrite (assoc app pre [x] a : pre ++ x :: a = (pre ++ [x]) ++ a) in Hnum.
    destruct (leb x mp) eqn:Hxmp.
    + destruct (IH (pre ++ [x]) mp max_ind Hnum) as (v & Hv & Hall).
      { rewrite lookup_app_l; [done|]. by eapply lookup_lt_Some. }
      { intros y [Hy|Hy%list_elem_of_singleton]%elem_of_app;
          [by apply Hmax|by subst]. }
      rewrite length_app, Nat.add_1_r, <-app_assoc in Hv.
      rewrite <-app_assoc in Hall. by exists v.
    + destruct (IH (pre ++ [x]) x (length pre) Hnum) as (v & Hv & Hall).
      { rewrite lookup_app_r by lia. by rewrite Nat.sub_diag. }
      { intros y [Hy|Hy%list_elem_of_singleton]%elem_of_app.
        - apply (leb_trans y mp x); [by apply Hmax|].
          destruct (leb_total mp x Hmpn Hx) as [?|Hc]; [done|].
          by rewrite Hc in Hxmp.
        - subst. by apply leb_refl. }
      rewrite length_app, Nat.add_1_r, <-app_assoc in Hv.
      rewrite <-app_assoc in Hall. by exists v.
Qed.

Lemma np_argmax_max (a : list F) idx :
  numbers a → np_argmax a = Ok idx →
  ∃ v, a !! idx = Some v ∧ ∀ y, y ∈ a → leb y v = true.
Proof.
  destruct a as [|x a]; [done|]. intros Hnum [= <-].
  apply (argmax_scan_max a [x] x 0%nat); [done|done|].
  intros y ->%list_elem_of_singleton. apply leb_refl.
  by apply Forall_cons in Hnum as [? _].
Qed.

Variable strategies : list string.
Variable pm : gmap string (gmap string F).

Lemma best_response_in s :
  s ∈ strategies → best_response strategies pm s ∈ strategies.
Proof.
  intros Hs. unfold best_response.
  destruct (np_argmax_lt (Spec.entry pm s <$> strategies)) as (idx & Hidx & Hlt).
  { intros Hnil%fmap_nil_inv. rewrite Hnil in Hs. by apply elem_of_nil in Hs. }
  rewrite Hidx. rewrite length_fmap in Hlt.
  destruct (lookup_lt_is_Some_2 strategies idx Hlt) as [o Ho].
  rewrite Ho. simpl. by eapply list_elem_of_lookup_2.
Qed.

Lemma best_response_best s :
  s ∈ strategies →
  numbers (Spec.entry pm s <$> strategies) →
  Spec.best_opponent strategies pm s (best_response strategies pm s).
Proof.
  intros Hs Hnum. unfold best_response.
  destruct (np_argmax_lt (Spec.entry pm s <$> strategies)) as (idx & Hidx & Hlt).
  { intros Hnil%fmap_nil_inv. rewrite Hnil in Hs. by apply elem_of_nil in Hs. }
  rewrite Hidx. destruct (np_argmax_max _ _ Hnum Hidx) as (v & Hv & Hmax).
  rewrite list_lookup_fmap in Hv.
  destruct (strategies !! idx) as [o|] eqn:Ho; [|done].
  simpl in Hv. injection Hv as <-. simpl. split.
  - by eapply list_elem_of_lookup_2.
  - intros o' Ho'. apply Hmax. by apply list_elem_of_fmap_2.
Qed.
End Argmax.

Section AnyRun.
Context {F : Type} `{Num F}.
Variable strategies : list string.
Variable pm : gmap string (gmap string F).

Lemma period_body_history period st st' :
  period_body strategies pm period st = Ok st' →
  history (run st') = history (run st) ++ [probabilities st'].
Proof.
  unfold period_body.
  destruct (pairwise_payoffs _ _ _) as [[payoffs df]|]; [|done].
  cbn [mbind result_bind].
  destruct (period_strategies _ _) as [d|]; [|done]. cbn [mbind result_bind].
  destruct (store_payoffs _ _ _) as [ph|]; [|done]. cbn [mbind result_bind].
  destruct (adjust_payoffs _) as [adj|]; [|done]. cbn [mbind result_bind].
  by intros [= <-].
Qed.

Lemma loop_history periods : ∀ st st',
  for_each periods (period_body strategies pm) st = Ok st' →
  ∃ tail, history (run st') = history (run st) ++ tail
          ∧ length tail = length periods.
Proof.
  induction periods as [|period periods IH]; intros st st' Hrun.
  - injection Hrun as <-. exists []. by rewrite app_nil_r.
  - cbn [for_each] in Hrun.
    destruct (period_body _ _ period st) as [st1|] eqn:Hbody; [|done].
    cbn [mbind result_bind] in Hrun.
    destruct (IH _ _ Hrun) as (tail & Htail & Hlen).
    rewrite (period_body_history _ _ _ Hbody), <-app_assoc in Htail.
    eexists. split; [exact Htail|]. simpl. by rewrite Hlen.
Qed.
End AnyRun.

Lemma range_length n : length (range n) = Z.to_nat n.
Proof. unfold range. by rewrite length_seqZ. Qed.

Lemma range_pos n : 1 ≤ n → ∃ l, range n = 0 :: l.
Proof.
  intros Hn. unfold range, seqZ.
  destruct (Z.to_nat n) as [|k] eqn:Hk; [lia|]. simpl. eauto.
Qed.

(** ** Whole runs *)

Section Runs.
Context {F : Type} `{Num F}.
Variable strategies : list string.
Variable default_matrix : gmap string (gmap string F).

Lemma simulate_trace num_periods payoff_matrix :
  let matrix := default default_matrix payoff_matrix in
  strategies ≠ [] → NoDup strategies → Spec.complete strategies matrix = true →
  ∃ st,
    simulate_replication_dynamics strategies default_matrix num_periods
      payoff_matrix = Ok (run st)
    ∧ trace strategies matrix (Z.to_nat num_periods) st.
Proof.
  intros matrix Hne Hnd Hc. unfold simulate_replication_dynamics.
  fold matrix. rewrite range_of_nat.
  destruct (trace_loop strategies matrix (Z.to_nat num_periods) Hc Hne Hnd)
    as (st & -> & Htr).
  by exists st.
Qed.

Lemma simulate_nonpositive num_periods payoff_matrix :
  num_periods ≤ 0 →
  simulate_replication_dynamics strategies default_matrix num_periods
    payoff_matrix
  = Ok (mkSimulation [Spec.uniform strategies] ∅ [] [] []).
Proof.
  intros Hn. unfold simulate_replication_dynamics.
  rewrite range_nonpos by done. cbn [for_each fmap result_fmap].
  unfold initial_state. cbn [run]. by rewrite initial_probabilities_uniform.
Qed.

Lemma simulate_missing num_periods payoff_matrix :
  1 ≤ num_periods →
  Spec.complete strategies (default default_matrix payoff_matrix) = false →
  ∃ k, simulate_replication_dynamics strategies default_matrix num_periods
         payoff_matrix = Raise (KeyError k).
Proof.
  intros Hn Hc. unfold simulate_replication_dynamics.
  destruct (range_pos _ Hn) as [l ->]. cbn [for_each].
  destruct (period_body_missing strategies _ 0 (initial_state strategies) Hc)
    as [k ->].
  - cbn. unfold initial_probabilities, np_ones.
    by rewrite length_fmap, length_replicate.
  - by exists k.
Qed.

Lemma simulate_first num_periods payoff_matrix sim :
  simulate_replication_dynamics strategies default_matrix num_periods
    payoff_matrix = Ok sim →
  history sim !! 0%nat = Some (Spec.uniform strategies)
  ∧ length (history sim) = S (Z.to_nat num_periods).
Proof.
  unfold simulate_replication_dynamics.
  destruct (for_each _ _ _) as [st|] eqn:Hrun; [|done].
  cbn [fmap result_fmap]. intros [= <-].
  apply loop_history in Hrun as (tail & -> & Hlen).
  unfold initial_state. cbn [run history]. rewrite initial_probabilities_uniform.
  split; [done|]. simpl. by rewrite Hlen, range_length.
Qed.
End Runs.

(* ================================================================== *)
(** * The claims *)
(* ================================================================== *)

Lemma automatons_NoDup : NoDup automatons.
Proof. apply (bool_decide_unpack _). vm_compute. exact I. Qed.

Lemma default_payoff_matrix_complete_float :
  Spec.complete automatons (default_payoff_matrix (F:=float)) = true.
Proof. vm_compute. reflexivity. Qed.

Lemma default_payoff_matrix_complete_Q :
  Spec.complete automatons (default_payoff_matrix (F:=Q)) = true.
Proof. vm_compute. reflexivity. Qed.




(** C4: whenever a run returns, in either module, the first element of the
    returned history is the uniform vector [[1/K, ..., 1/K]] over the [K]
    strategies; the default strategy set has [K = 8], in binary64 its
    uniform vector is eight times [0.125], and that is how the history of
    the default run of 100 periods starts. *)
Theorem history_starts_uniform {F : Type} `{Num F}
    (strategies : list string) (default_matrix : gmap string (gmap string F))
    (payoff_matrix : option (gmap string (gmap string F))) (num_periods : Z) :
  (∀ sim,
     simulate_replication_dynamics strategies default_matrix num_periods
       payoff_matrix = Ok sim →
     history sim !! 0%nat = Some (Spec.uniform strategies))
  ∧ (∀ history payoff_history,
       ReplicationDynamics.simulate_replication_dynamics strategies
         default_matrix num_periods = Ok (history, payoff_history) →
       history !! 0%nat = Some (Spec.uniform strategies))
  ∧ length automatons = 8%nat
  ∧ Spec.uniform (F:=float) automatons = replicate 8 0.125%float
  ∧ (fun sim => history sim !! 0%nat)
      <$> simulate_replication_dynamics (F:=float) automatons
            default_payoff_matrix 100 None
    = Ok (Some (replicate 8 0.125%float)).
Proof.
  split; [|split; [|split; [done|split; by vm_compute]]].
  - intros sim Hrun. by apply simulate_first in Hrun as [? _].
  - intros h ph.
    rewrite (replication_dynamics_streamlit_app _ _ default_matrix).
    destruct (simulate_replication_dynamics _ _ _ _) as [sim|] eqn:Hrun; [|done].
    cbn [fmap result_fmap]. intros [= <- <-].
    by apply simulate_first in Hrun as [? _].
Qed.

(** C5: for a complete payoff matrix and [num_periods >= 1], the run
    returns (in both modules, with the same history and payoff history),
    the returned history has length [num_periods + 1], and the series of
    [payoff_history] for every strategy has length [num_periods]. *)
Theorem history_lengths {F : Type} `{Num F}
    (strategies : list string) (default_matrix : gmap string (gmap string F))
    (payoff_matrix : gmap string (gmap string F)) (num_periods : Z) :
  strategies ≠ [] → NoDup strategies →
  Spec.complete strategies payoff_matrix = true →
  1 ≤ num_periods →
  ∃ sim,
    simulate_replication_dynamics strategies default_matrix num_periods
      (Some payoff_matrix) = Ok sim
    ∧ ReplicationDynamics.simulate_replication_dynamics strategies
        payoff_matrix num_periods
      = Ok (history sim, payoff_history sim)
    ∧ Z.of_nat (length (history sim)) = num_periods + 1
    ∧ ∀ s, s ∈ strategies →
        ∃ series, payoff_history sim !! s = Some series
                  ∧ Z.of_nat (length series) = num_periods.
Proof.
  intros Hne Hnd Hc Hn.
  destruct (simulate_trace strategies default_matrix num_periods
              (Some payoff_matrix) Hne Hnd Hc) as (st & Hrun & Htr).
  exists (run st). split; [done|]. split; [|split].
  - rewrite (replication_dynamics_streamlit_app _ _ default_matrix), Hrun. done.
  - rewrite (trace_length _ _ _ _ Htr). lia.
  - intros s Hs.
    destruct (trace_recorded _ _ _ _ Htr s Hs) as [series Hseries]; [lia|].
    exists series. split; [done|].
    apply list_elem_of_lookup in Hs as [i Hi].
    pose proof (trace_payoffs _ _ _ _ Htr i s Hi) as Hpay.
    rewrite Hseries in Hpay. simpl in Hpay. rewrite Hpay.
    rewrite length_fmap, length_take, (trace_length _ _ _ _ Htr). lia.
Qed.

Lemma history_lengths_witness :
  automatons ≠ [] ∧ NoDup automatons
  ∧ Spec.complete automatons (default_payoff_matrix (F:=float)) = true
  ∧ 1 ≤ 100
  ∧ ∃ sim,
      simulate_replication_dynamics (F:=float) automatons
        default_payoff_matrix 100 (Some default_payoff_matrix) = Ok sim
      ∧ ReplicationDynamics.simulate_replication_dynamics automatons
          default_payoff_matrix 100
        = Ok (history sim, payoff_history sim)
      ∧ Z.of_nat (length (history sim)) = 100 + 1
      ∧ ∀ s, s ∈ automatons →
          ∃ series, payoff_history sim !! s = Some series
                    ∧ Z.of_nat (length series) = 100.
Proof.
  split; [done|]. split; [exact automatons_NoDup|].
  split; [exact default_payoff_matrix_complete_float|]. split; [lia|].
  apply (history_lengths automatons default_payoff_matrix default_payoff_matrix 100);
    [done|exact automatons_NoDup|exact default_payoff_matrix_complete_float|lia].
Defined.

(** C10: for [num_periods = 0] and for every negative [num_periods], and
    whatever the payoff matrix, neither module raises: the loop body never
    runs, the returned history is the single uniform initial vector, the
    payoff history is empty, and so are the three diagnostic histories of
    [streamlit_app.py]. *)
Theorem nonpositive_periods_noop {F : Type} `{Num F}
    (strategies : list string) (default_matrix : gmap string (gmap string F))
    (payoff_matrix : option (gmap string (gmap string F))) (num_periods : Z) :
  num_periods ≤ 0 →
  simulate_replication_dynamics strategies default_matrix num_periods
    payoff_matrix
  = Ok (mkSimulation [Spec.uniform strategies] ∅ [] [] [])
  ∧ ReplicationDynamics.simulate_replication_dynamics strategies
      default_matrix num_periods
    = Ok ([Spec.uniform strategies], ∅).
Proof.
  intros Hn. split; [by apply simulate_nonpositive|].
  rewrite (replication_dynamics_streamlit_app _ _ default_matrix).
  by rewrite simulate_nonpositive.
Qed.

Lemma nonpositive_periods_noop_witness :
  -5 ≤ 0
  ∧ simulate_replication_dynamics (F:=float) automatons default_payoff_matrix
      (-5) (Some ∅)
    = Ok (mkSimulation [replicate 8 0.125%float] ∅ [] [] [])
  ∧ ReplicationDynamics.simulate_replication_dynamics (F:=float) automatons
      default_payoff_matrix (-5)
    = Ok ([replicate 8 0.125%float], ∅).
Proof.
  split; [lia|].
  change (replicate 8 0.125%float) with (Spec.uniform (F:=float) automatons).
  apply (nonpositive_periods_noop (F:=float) automatons default_payoff_matrix
           (Some ∅) (-5)).
  lia.
Defined.

(** C8, as the code has it: there is no check of the period count.  A call
    that raises has [num_periods >= 1] (what it raises comes from the first
    period: a missing payoff entry or an empty strategy list), and a call
    with [num_periods <= 0], zero and negative alike, returns the initial
    state. *)
Theorem period_count_never_rejected {F : Type} `{Num F}
    (strategies : list string) (default_matrix : gmap string (gmap string F))
    (payoff_matrix : option (gmap string (gmap string F))) (num_periods : Z) :
  (∀ e,
     simulate_replication_dynamics strategies default_matrix num_periods
       payoff_matrix = Raise e → 1 ≤ num_periods)
  ∧ (∀ e,
       ReplicationDynamics.simulate_replication_dynamics strategies
         default_matrix num_periods = Raise e → 1 ≤ num_periods)
  ∧ (num_periods ≤ 0 →
     ∃ sim,
       simulate_replication_dynamics strategies default_matrix num_periods
         payoff_matrix = Ok sim
       ∧ history sim = [Spec.uniform strategies]).
Proof.
  split; [|split].
  - intros e He. destruct (Z_le_gt_dec num_periods 0) as [Hn|Hn]; [|lia].
    by rewrite simulate_nonpositive in He.
  - intros e He. destruct (Z_le_gt_dec num_periods 0) as [Hn|Hn]; [|lia].
    rewrite (replication_dynamics_streamlit_app _ _ default_matrix) in He.
    by rewrite simulate_nonpositive in He.
  - intros Hn. eexists. split; [by apply simulate_nonpositive|done].
Qed.

(** C8, as stated, fails: with the default globals and
    [num_periods = -1] (or [0]) the call does not raise. *)
Lemma negative_period_count_accepted :
  simulate_replication_dynamics (F:=float) automatons default_payoff_matrix
    (-1) None
  = Ok (mkSimulation [replicate 8 0.125%float] ∅ [] [] [])
  ∧ ¬ rejects_period_count (F:=float) automatons default_payoff_matrix (-1)
  ∧ ¬ rejects_period_count (F:=float) automatons default_payoff_matrix 0.
Proof.
  split; [by vm_compute|]. split.
  - intros Hrej. destruct Hrej as [e He]; [lia|].
    by rewrite simulate_nonpositive in He.
  - intros Hrej. destruct Hrej as [e He]; [lia|].
    by rewrite simulate_nonpositive in He.
Qed.

(** C9, as the code has it: there is no check of the matrix before the
    loop.  With [num_periods >= 1] an incomplete matrix makes the first
    period raise [KeyError] at the first missing lookup, so nothing is
    returned; with [num_periods <= 0] no entry is looked up and the call
    returns the initial state. *)
Theorem incomplete_matrix_raises_KeyError {F : Type} `{Num F}
    (strategies : list string) (default_matrix : gmap string (gmap string F))
    (payoff_matrix : gmap string (gmap string F)) (num_periods : Z) :
  Spec.complete strategies payoff_matrix = false →
  (1 ≤ num_periods →
   ∃ k, simulate_replication_dynamics strategies default_matrix num_periods
          (Some payoff_matrix) = Raise (KeyError k))
  ∧ (num_periods ≤ 0 →
     simulate_replication_dynamics strategies default_matrix num_periods
       (Some payoff_matrix)
     = Ok (mkSimulation [Spec.uniform strategies] ∅ [] [] [])).
Proof.
  intros Hc. split.
  - intros Hn. by apply simulate_missing.
  - intros Hn. by apply simulate_nonpositive.
Qed.

Lemma incomplete_matrix_raises_KeyError_witness :
  Spec.complete automatons (delete "HAWK" (default_payoff_matrix (F:=float)))
  = false
  ∧ (1 ≤ 10 →
     ∃ k, simulate_replication_dynamics (F:=float) automatons
            default_payoff_matrix 10
            (Some (delete "HAWK" default_payoff_matrix)) = Raise (KeyError k))
  ∧ (10 ≤ 0 →
     simulate_replication_dynamics (F:=float) automatons
       default_payoff_matrix 10 (Some (delete "HAWK" default_payoff_matrix))
     = Ok (mkSimulation [Spec.uniform automatons] ∅ [] [] [])).
Proof.
  assert (Hc : Spec.complete automatons
                 (delete "HAWK" (default_payoff_matrix (F:=float))) = false)
    by (vm_compute; reflexivity).
  split; [exact Hc|].
  exact (@incomplete_matrix_raises_KeyError float float_num automatons
           default_payoff_matrix (delete "HAWK" default_payoff_matrix) 10 Hc).
Defined.

(** C9, as stated, fails: the empty matrix lacks every entry, and with
    [num_periods = 0] the call returns instead of raising. *)
Lemma incomplete_matrix_accepted :
  Spec.complete automatons (∅ : gmap string (gmap string float)) = false
  ∧ simulate_replication_dynamics (F:=float) automatons default_payoff_matrix
      0 (Some ∅)
    = Ok (mkSimulation [replicate 8 0.125%float] ∅ [] [] [])
  ∧ ¬ rejects_incomplete (F:=float) automatons default_payoff_matrix ∅ 0.
Proof.
  split; [by vm_compute|]. split; [by vm_compute|].
  intros Hrej. destruct Hrej as [e He]; [by vm_compute|].
  by rewrite simulate_nonpositive in He.
Qed.

Lemma default_entries_numbers (s : string) :
  s ∈ automatons →
  numbers (Spec.entry (default_payoff_matrix (F:=float)) s <$> automatons).
Proof.
  intros Hs.
  assert (Hall : Forall
            (fun s => numbers (Spec.entry (default_payoff_matrix (F:=float)) s
                       <$> automatons)) automatons).
  { repeat constructor. }
  by apply (proj1 (Forall_forall _ _) Hall).
Qed.

(** C6: in a run over a complete matrix, every entry of
    [strategy_history] is the same mapping [best_responses], which is
    computed from the payoff matrix alone (neither the shares nor the
    period enter it).  It sends each strategy to one of the strategies, and
    when no entry of the strategy's row of the matrix is a NaN, to an
    opponent that maximizes that row.  This holds in both arithmetics,
    binary64 included. *)
Theorem best_response_static {F : Type} `{OrderLaws F}
    (strategies : list string) (default_matrix : gmap string (gmap string F))
    (payoff_matrix : gmap string (gmap string F)) (num_periods : Z) :
  strategies ≠ [] → NoDup strategies →
  Spec.complete strategies payoff_matrix = true →
  ∃ sim,
    simulate_replication_dynamics strategies default_matrix num_periods
      (Some payoff_matrix) = Ok sim
    ∧ length (strategy_history sim) = Z.to_nat num_periods
    ∧ ∀ (t : nat) recorded,
        strategy_history sim !! t = Some recorded →
        recorded = best_responses strategies payoff_matrix
        ∧ ∀ s, s ∈ strategies →
            ∃ o, recorded !! s = Some o
                 ∧ o ∈ strategies
                 ∧ (numbers (Spec.entry payoff_matrix s <$> strategies) →
                    Spec.best_opponent strategies payoff_matrix s o).
Proof.
  intros Hne Hnd Hc.
  destruct (simulate_trace strategies default_matrix num_periods
              (Some payoff_matrix) Hne Hnd Hc) as (st & Hrun & Htr).
  exists (run st). split; [done|].
  rewrite (trace_strategies _ _ _ _ Htr). split; [by rewrite length_replicate|].
  intros t recorded [-> _]%lookup_replicate. split; [done|].
  intros s Hs. exists (best_response strategies payoff_matrix s). split.
  - rewrite best_responses_lookup. by rewrite decide_True.
  - split; [by apply best_response_in|]. intros Hnum.
    by apply best_response_best.
Qed.

Lemma best_response_static_witness :
  automatons ≠ [] ∧ NoDup automatons
  ∧ Spec.complete automatons (default_payoff_matrix (F:=float)) = true
  ∧ ∃ sim,
      simulate_replication_dynamics (F:=float) automatons
        (default_payoff_matrix (F:=float)) 100
        (Some (default_payoff_matrix (F:=float))) = Ok sim
      ∧ length (strategy_history sim) = Z.to_nat 100
      ∧ ∀ (t : nat) recorded,
          strategy_history sim !! t = Some recorded →
          recorded
          = best_responses automatons (default_payoff_matrix (F:=float))
          ∧ ∀ s, s ∈ automatons →
              ∃ o, recorded !! s = Some o
                   ∧ Spec.best_opponent automatons
                       (default_payoff_matrix (F:=float)) s o.
Proof.
  split; [done|]. split; [exact automatons_NoDup|].
  split; [exact default_payoff_matrix_complete_float|].
  destruct (best_response_static (F:=float) automatons
              (default_payoff_matrix (F:=float))
              (default_payoff_matrix (F:=float)) 100
              ltac:(done) automatons_NoDup
              default_payoff_matrix_complete_float)
    as (sim & Hrun & Hlen & Hall).
  exists sim. split; [exact Hrun|]. split; [exact Hlen|].
  intros t recorded Hrec. destruct (Hall t recorded Hrec) as [Heq Hbest].
  split; [exact Heq|]. intros s Hs.
  destruct (Hbest s Hs) as (o & Ho & _ & Hmax).
  exists o. split; [exact Ho|]. exact (Hmax (default_entries_numbers s Hs)).
Defined.


Section ExactClaims.
Local Open Scope Q_scope.
Variable strategies : list string.
Variable matrix : gmap string (gmap string Q).






End ExactClaims.







Lemma trace_period_at {F : Type} `{Num F} (strategies : list string)
    (pm : gmap string (gmap string F)) (T : nat) st (t : nat) :
  trace strategies pm T st → (t < T)%nat →
  ∃ p p',
    history (run st) !! t = Some p
    ∧ history (run st) !! S t = Some p'
    ∧ Spec.update strategies pm p = Some p'
    ∧ ∀ s, s ∈ strategies →
        payoff_history (run st) !! s ≫= (.!! t)
        = Some (Spec.expected_payoff strategies pm p s).
Proof.
  intros Htr Hlt.
  destruct (lookup_lt_is_Some_2 (history (run st)) t) as [p Hp].
  { rewrite (trace_length _ _ _ _ Htr). lia. }
  destruct (trace_step _ _ _ _ Htr t p Hlt Hp) as (p' & Hp' & Hup).
  exists p, p'. do 3 (split; [done|]). intros s Hs.
  destruct (trace_recorded _ _ _ _ Htr s Hs) as [series Hseries]; [lia|].
  apply list_elem_of_lookup in Hs as [i Hi].
  pose proof (trace_payoffs _ _ _ _ Htr i s Hi) as Hpay.
  rewrite Hseries in Hpay |- *. simpl in Hpay |- *. rewrite Hpay.
  rewrite list_lookup_fmap, lookup_take_lt by done. by rewrite Hp.
Qed.

Section DominantExact.
Local Open Scope Q_scope.

Lemma dominant_matrix_complete :
  Spec.complete strategies_AB (dominant_matrix (F:=Q)) = true.
Proof. by vm_compute. Qed.

Lemma strategies_AB_NoDup : NoDup strategies_AB.
Proof. apply (bool_decide_unpack _). vm_compute. exact I. Qed.

Lemma dominant_entries :
  Spec.entry (F:=Q) dominant_matrix "A" "A" = 3
  ∧ Spec.entry (F:=Q) dominant_matrix "A" "B" = 3
  ∧ Spec.entry (F:=Q) dominant_matrix "B" "A" = 0
  ∧ Spec.entry (F:=Q) dominant_matrix "B" "B" = 0.
Proof. repeat split; by vm_compute. Qed.

Lemma dominant_payoff_A (a b : Q) :
  Spec.expected_payoff strategies_AB dominant_matrix [a; b] "A"
  = 0 + 3 * a + 3 * b.
Proof.
  destruct dominant_entries as (HAA & HAB & _).
  unfold Spec.expected_payoff, accumulate, strategies_AB.
  cbn [zip_with foldl]. by rewrite HAA, HAB.
Qed.

Lemma dominant_payoff_B (a b : Q) :
  Spec.expected_payoff strategies_AB dominant_matrix [a; b] "B"
  = 0 + 0 * a + 0 * b.
Proof.
  destruct dominant_entries as (_ & _ & HBA & HBB).
  unfold Spec.expected_payoff, accumulate, strategies_AB.
  cbn [zip_with foldl]. by rewrite HBA, HBB.
Qed.

Lemma ratio_facts (a b w1 w2 S : Q) :
  a + b == 1 → 0 < a → 0 < b →
  w1 == 4 * a → w2 == b → S == w1 + w2 →
  w1 / S + w2 / S == 1 ∧ 0 < w1 / S ∧ 0 < w2 / S
  ∧ a < w1 / S ∧ w1 / S < 1.
Proof.
  intros Hab Ha Hb Hw1 Hw2 HS.
  assert (HSpos : 0 < S) by lra.
  split.
  { assert (w1 / S + w2 / S == (w1 + w2) / S) as -> by (field; lra).
    rewrite <-HS. field. lra. }
  split; [apply Qlt_shift_div_l; lra|].
  split; [apply Qlt_shift_div_l; lra|]. split.
  - apply Qlt_shift_div_l; [done|]. rewrite HS, Hw1, Hw2. nra.
  - apply Qlt_shift_div_r; [done|]. lra.
Qed.

Lemma dominant_multipliers (a b : Q) :
  a + b == 1 →
  Spec.multipliers strategies_AB dominant_matrix [a; b]
  = Some [0 + 3 * a + 3 * b + 1; 0 + 0 * a + 0 * b + 1].
Proof.
  intros Hab. unfold Spec.multipliers, Spec.expected_payoffs, strategies_AB.
  cbn [fmap list_fmap].
  change ["A"; "B"] with strategies_AB.
  rewrite dominant_payoff_A, dominant_payoff_B. cbn [np_min foldl].
  destruct (np_minimum_cases (0 + 3 * a + 3 * b) (0 + 0 * a + 0 * b))
    as [[-> _]|[_ Hlt]]; [|lra].
  unfold Spec.multiplier.
  assert (ltb (0 + 0 * a + 0 * b) zero = false) as ->.
  { apply Qltb_ge. cbn [zero Q_num]. lra. }
  done.
Qed.

Lemma dominant_update (p : list Q) :
  two_shares p →
  ∃ a b a' b',
    p = [a; b]
    ∧ Spec.update strategies_AB dominant_matrix p = Some [a'; b']
    ∧ two_shares [a'; b'] ∧ a < a' ∧ a' < 1.
Proof.
  intros (a & b & -> & Hab & Ha & Hb).
  unfold Spec.update. rewrite dominant_multipliers by done.
  cbn [mbind option_bind zip_with Spec.renormalize fmap list_fmap mul div Q_num].
  set (w1 := a * (0 + 3 * a + 3 * b + 1)).
  set (w2 := b * (0 + 0 * a + 0 * b + 1)).
  set (S := np_sum [w1; w2]).
  destruct (ratio_facts a b w1 w2 S Hab Ha Hb) as (Hsum & Ha' & Hb' & Hlt & Hlt1).
  - unfold w1. nra.
  - unfold w2. nra.
  - unfold S. rewrite np_sum_accumulate. unfold accumulate.
    cbn [foldl add zero Q_num]. lra.
  - exists a, b, (w1 / S), (w2 / S). split; [done|]. split; [done|].
    split; [|done]. by exists (w1 / S), (w2 / S).
Qed.

Lemma uniform_two_shares : two_shares (Spec.uniform strategies_AB).
Proof.
  eexists _, _. split; [reflexivity|]. repeat split; by vm_compute.
Qed.

Lemma update_two_shares p p' :
  two_shares p → Spec.update strategies_AB dominant_matrix p = Some p' →
  two_shares p'.
Proof.
  intros Hp Hup.
  destruct (dominant_update p Hp) as (a & b & a' & b' & -> & Hup' & Htwo & _).
  by simplify_eq.
Qed.
End DominantExact.

(** C7, in exact arithmetic: in the scenario [A:{A:3,B:3}, B:{A:0,B:0}]
    every run returns, and in every period the recorded payoffs are [3] and
    [0], the multipliers [4] and [1], and the share of [A] strictly
    increases while staying strictly below [1].  (In binary64 the share is
    rounded to exactly [1] after finitely many periods.) *)
Theorem dominance_exact (num_periods : Z) : dominance (F:=Q) num_periods.
Proof.
  destruct (simulate_trace (F:=Q) strategies_AB dominant_matrix num_periods None)
    as (st & Hrun & Htr);
    [done|exact strategies_AB_NoDup|exact dominant_matrix_complete|].
  cbn [default] in Htr. exists (run st). split; [done|]. intros t Ht.
  destruct (trace_period_at _ _ _ _ t Htr) as (p & p' & Hp & Hp' & Hup & Hpay);
    [lia|].
  destruct (trace_lookup_invariant strategies_AB dominant_matrix two_shares
              uniform_two_shares update_two_shares _ _ Htr t)
    as (q & Hq & Htwo); [lia|].
  rewrite Hp in Hq. injection Hq as <-.
  destruct (dominant_update p Htwo) as (a & b & a' & b' & -> & Hup' & _ & Hlt & Hlt1).
  rewrite Hup in Hup'. injection Hup' as ->.
  destruct Htwo as (a0 & b0 & [= <- <-] & Hab & Ha & Hb).
  split.
  - unfold payoffs_as_stated.
    rewrite (Hpay "A"), (Hpay "B") by (unfold strategies_AB; set_solver).
    rewrite dominant_payoff_A, dominant_payoff_B.
    pose proof (adjust_payoffs_multipliers strategies_AB dominant_matrix [a; b])
      as Hadj.
    rewrite dominant_multipliers in Hadj by done.
    unfold Spec.expected_payoffs, strategies_AB in Hadj.
    cbn [fmap list_fmap] in Hadj. change ["A"; "B"] with strategies_AB in Hadj.
    rewrite dominant_payoff_A, dominant_payoff_B in Hadj. rewrite Hadj.
    unfold num_eq. rewrite !andb_true_iff, !Qleb_le.
    cbn [of_Z Q_num]. repeat split; 
      try (change (inject_Z 3) with 3%Q); try (change (inject_Z 0) with 0%Q);
      try (change (inject_Z 4) with 4%Q); try (change (inject_Z 1) with 1%Q); lra.
  - unfold share_grows. rewrite Hp, Hp'. cbn [mbind option_bind head].
    rewrite andb_true_iff. split; by apply Qltb_lt.
Qed.

(** C7, as stated, fails in binary64: in a run of 28 periods the share of
    [A] is exactly [1] after 27 periods and stays there, so it neither
    remains below [1] nor keeps increasing; and the payoff recorded for [A]
    in the second period is [3.0000000000000004], not [3]. *)
Lemma dominant_share_saturates :
  (fun sim =>
     (history sim !! 27%nat ≫= head, history sim !! 28%nat ≫= head,
      share_grows sim 26, share_grows sim 27,
      payoff_history sim !! "A" ≫= (.!! 1%nat)))
    <$> simulate_replication_dynamics (F:=float) strategies_AB
          dominant_matrix 28 None
  = Ok (Some 1%float, Some 1%float, false, false,
        Some 0x1.8000000000001p+1%float)
  ∧ ¬ dominance (F:=float) 28.
Proof.
  split; [by vm_compute|].
  intros (sim & Hrun & Hall).
  assert (Hb : match simulate_replication_dynamics (F:=float) strategies_AB
                       dominant_matrix 28 None with
               | Ok sim => share_grows sim 26
               | Raise _ => false
               end = false) by (vm_compute; reflexivity).
  rewrite Hrun in Hb. destruct (Hall 26%nat ltac:(lia)) as [_ Hgrow].
  congruence.
Qed.

(** The two modules agree: for the same strategies, matrix and period
    count, [replication_dynamics.py] returns the history and the payoff
    history that [streamlit_app.py] returns, and raises the exception that
    it raises. *)
Theorem modules_agree {F : Type} `{Num F} (strategies : list string)
    (default_matrix payoff_matrix : gmap string (gmap string F))
    (num_periods : Z) :
  ReplicationDynamics.simulate_replication_dynamics strategies payoff_matrix
    num_periods
  = (fun sim => (history sim, payoff_history sim))
      <$> simulate_replication_dynamics strategies default_matrix num_periods
            (Some payoff_matrix).
Proof. apply replication_dynamics_streamlit_app. Qed.

(* ================================================================== *)
(** * Further properties *)
(* ================================================================== *)

(** ** More on the loops *)

Lemma for_each_ext {A S : Type} (l : list A) (body1 body2 : A → S → result S)
    (s : S) :
  (∀ x s, x ∈ l → body1 x s = body2 x s) →
  for_each l body1 s = for_each l body2 s.
Proof.
  revert s. induction l as [|x l IH]; intros s Hb; simpl; [done|].
  rewrite Hb by left. destruct (body2 x s); simpl; [|done].
  apply IH. intros; apply Hb. by right.
Qed.

Lemma comprehension_ext {A B : Type} (f g : A → result B) (l : list A) :
  (∀ x, x ∈ l → f x = g x) → comprehension f l = comprehension g l.
Proof.
  induction l as [|x l IH]; intros Hfg; simpl; [done|].
  rewrite Hfg by left. rewrite IH; [done|]. intros; apply Hfg. by right.
Qed.

Lemma enumerate_elem_of {A} (l : list A) i x :
  (i, x) ∈ enumerate l → x ∈ l.
Proof. unfold enumerate. apply elem_of_zip_r. Qed.

Section Frame.
Context {F : Type} `{Num F}.
Variable strategies : list string.
Variable pm pm' : gmap string (gmap string F).
Hypothesis Hagree : agree_on strategies pm pm'.
Hypothesis Hcomplete : Spec.complete strategies pm = true.

Lemma complete_has_entry s o :
  s ∈ strategies → o ∈ strategies → Spec.has_entry pm s o = true.
Proof.
  intros Hs Ho. unfold Spec.complete in Hcomplete.
  rewrite forallb_forall in Hcomplete.
  specialize (Hcomplete s (proj1 (list_elem_of_In _ _) Hs)).
  rewrite forallb_forall in Hcomplete.
  exact (Hcomplete o (proj1 (list_elem_of_In _ _) Ho)).
Qed.

Lemma agree_lookup s o :
  s ∈ strategies → o ∈ strategies →
  (row ← dict_get pm' s; dict_get row o) = (row ← dict_get pm s; dict_get row o).
Proof.
  intros Hs Ho. pose proof (complete_has_entry s o Hs Ho) as Hhas.
  destruct (has_entry_get _ _ _ Hhas) as (row & Hrow & He).
  rewrite Hrow. cbn [mbind result_bind]. rewrite He.
  pose proof (Hagree s o Hs Ho) as Hag.
  unfold Spec.has_entry in Hhas. apply bool_decide_eq_true in Hhas.
  destruct Hhas as [v Hv]. rewrite Hv in Hag.
  unfold dict_get in *. destruct (pm !! s) as [r|]; [|done]. simpl in Hv.
  injection Hrow as <-. rewrite Hv in He. injection He as <-.
  destruct (pm' !! s) as [r'|]; [|done]. simpl in Hag |- *.
  by rewrite <-Hag.
Qed.

Lemma pairwise_step_agree p i ai j aj st :
  ai ∈ strategies → aj ∈ strategies →
  pairwise_step pm' p i ai j aj st = pairwise_step pm p i ai j aj st.
Proof.
  intros Hi Hj. destruct st as [payoffs df].
  assert (Hassoc : ∀ m : gmap string (gmap string F),
    pairwise_step m p i ai j aj (payoffs, df)
    = entry ← (row ← dict_get m ai; dict_get row aj);
      p_j ← list_get p j;
      old ← list_get payoffs i;
      Ok (<[i := add old (mul entry p_j)]> payoffs,
          df_loc_set df ai aj (mul entry p_j))).
  { intros m. unfold pairwise_step. by destruct (dict_get m ai). }
  by rewrite !Hassoc, agree_lookup.
Qed.

Lemma pairwise_payoffs_agree p :
  pairwise_payoffs strategies pm' p = pairwise_payoffs strategies pm p.
Proof.
  unfold pairwise_payoffs. apply for_each_ext.
  intros [i ai] st Hi%enumerate_elem_of. apply for_each_ext.
  intros [j aj] st' Hj%enumerate_elem_of. by apply pairwise_step_agree.
Qed.

Lemma period_strategies_agree :
  period_strategies strategies pm' = period_strategies strategies pm.
Proof.
  unfold period_strategies. apply for_each_ext.
  intros [i a] d Ha%enumerate_elem_of.
  rewrite (comprehension_ext
             (fun opp => row ← dict_get pm' a; dict_get row opp)
             (fun opp => row ← dict_get pm a; dict_get row opp)); [done|].
  intros o Ho. by apply agree_lookup.
Qed.

Lemma period_body_agree period st :
  period_body strategies pm' period st = period_body strategies pm period st.
Proof.
  unfold period_body. by rewrite pairwise_payoffs_agree, period_strategies_agree.
Qed.
End Frame.

(** Entries of the matrix for names outside the strategy list are never
    read: two matrices that agree on every ordered pair of strategies, one
    of them complete, give the same run. *)
Theorem other_entries_ignored {F : Type} `{Num F} (strategies : list string)
    (default_matrix pm pm' : gmap string (gmap string F)) (num_periods : Z) :
  agree_on strategies pm pm' →
  Spec.complete strategies pm = true →
  simulate_replication_dynamics strategies default_matrix num_periods (Some pm')
  = simulate_replication_dynamics strategies default_matrix num_periods
      (Some pm)
  ∧ ReplicationDynamics.simulate_replication_dynamics strategies pm'
      num_periods
    = ReplicationDynamics.simulate_replication_dynamics strategies pm
        num_periods.
Proof.
  intros Hagree Hc.
  assert (Hsim : simulate_replication_dynamics strategies default_matrix
                   num_periods (Some pm')
                 = simulate_replication_dynamics strategies default_matrix
                     num_periods (Some pm)).
  { unfold simulate_replication_dynamics. cbn [default]. f_equal.
    apply for_each_ext. intros period st _.
    by apply period_body_agree. }
  split; [done|].
  by rewrite !(replication_dynamics_streamlit_app _ _ default_matrix), Hsim.
Qed.

Lemma extra_not_automaton : "EXTRA" ∉ automatons.
Proof. apply (bool_decide_unpack _). vm_compute. exact I. Qed.

Lemma agree_on_insert {F : Type} (strategies : list string)
    (pm : gmap string (gmap string F)) (k : string) (row : gmap string F) :
  k ∉ strategies → agree_on strategies pm (<[k := row]> pm).
Proof.
  intros Hk s o Hs Ho. rewrite lookup_insert_ne; [done|]. by intros <-.
Qed.

Lemma other_entries_ignored_witness :
  agree_on automatons (default_payoff_matrix (F:=float))
    (<["EXTRA" := ∅]> (default_payoff_matrix (F:=float)))
  ∧ Spec.complete automatons (default_payoff_matrix (F:=float)) = true
  ∧ simulate_replication_dynamics (F:=float) automatons
      (default_payoff_matrix (F:=float)) 10
      (Some (<["EXTRA" := ∅]> (default_payoff_matrix (F:=float))))
    = simulate_replication_dynamics (F:=float) automatons
        (default_payoff_matrix (F:=float)) 10
        (Some (default_payoff_matrix (F:=float)))
  ∧ ReplicationDynamics.simulate_replication_dynamics (F:=float) automatons
      (<["EXTRA" := ∅]> (default_payoff_matrix (F:=float))) 10
    = ReplicationDynamics.simulate_replication_dynamics (F:=float) automatons
        (default_payoff_matrix (F:=float)) 10.
Proof.
  pose proof (agree_on_insert automatons (default_payoff_matrix (F:=float))
                "EXTRA" ∅ extra_not_automaton) as Hag.
  split; [exact Hag|]. split; [exact default_payoff_matrix_complete_float|].
  exact (other_entries_ignored (F:=float) automatons
           (default_payoff_matrix (F:=float))
           (default_payoff_matrix (F:=float))
           (<["EXTRA" := ∅]> (default_payoff_matrix (F:=float))) 10
           Hag default_payoff_matrix_complete_float).
Defined.

(** ** The exceptions of the first period *)

(** With an empty strategy list and [num_periods >= 1] both modules raise
    [ValueError], whatever the matrix: the nested loops do nothing and
    [np.min] is applied to an empty array. *)
Theorem empty_strategies_ValueError {F : Type} `{Num F}
    (default_matrix : gmap string (gmap string F))
    (payoff_matrix : option (gmap string (gmap string F))) (num_periods : Z) :
  1 ≤ num_periods →
  simulate_replication_dynamics [] default_matrix num_periods payoff_matrix
  = Raise ValueError
  ∧ ReplicationDynamics.simulate_replication_dynamics [] default_matrix
      num_periods
    = Raise ValueError.
Proof.
  intros Hn.
  assert (Hsim : ∀ pm, simulate_replication_dynamics [] default_matrix
                         num_periods pm = Raise ValueError).
  { intros pm. unfold simulate_replication_dynamics.
    destruct (range_pos _ Hn) as [l ->]. cbn [for_each].
    by rewrite period_body_empty. }
  split; [apply Hsim|].
  by rewrite (replication_dynamics_streamlit_app _ _ default_matrix), Hsim.
Qed.

Lemma empty_strategies_ValueError_witness :
  1 ≤ 10
  ∧ simulate_replication_dynamics (F:=float) []
      (default_payoff_matrix (F:=float)) 10 None
    = Raise ValueError
  ∧ ReplicationDynamics.simulate_replication_dynamics (F:=float) []
      (default_payoff_matrix (F:=float)) 10
    = Raise ValueError.
Proof.
  split; [lia|].
  apply (empty_strategies_ValueError (F:=float)
           (default_payoff_matrix (F:=float)) None 10).
  lia.
Defined.

Section MissingKey.
Context {F : Type} `{Num F}.
Variable pm : gmap string (gmap string F).
Variable p : list F.

Lemma pairwise_step_no_row i ai j aj st :
  pm !! ai = None →
  pairwise_step pm p i ai j aj st = Raise (KeyError ai).
Proof.
  intros Hrow. destruct st as [payoffs df]. unfold pairwise_step, dict_get.
  by rewrite Hrow.
Qed.

Lemma pairwise_step_no_entry i ai j aj st row :
  pm !! ai = Some row → row !! aj = None →
  pairwise_step pm p i ai j aj st = Raise (KeyError aj).
Proof.
  intros Hrow He. destruct st as [payoffs df]. unfold pairwise_step, dict_get.
  rewrite Hrow. cbn [mbind result_bind]. by rewrite He.
Qed.

Lemma has_entry_lookup ai o row :
  pm !! ai = Some row → Spec.has_entry pm ai o = true ↔ is_Some (row !! o).
Proof.
  intros Hrow. unfold Spec.has_entry. rewrite bool_decide_eq_true, Hrow. done.
Qed.

Lemma missing_in_row_None ai row os :
  pm !! ai = Some row →
  missing_in_row row os = None → forallb (Spec.has_entry pm ai) os = true.
Proof.
  intros Hrow. induction os as [|o os IH]; [done|]. cbn [missing_in_row forallb].
  destruct (row !! o) as [v|] eqn:Ho; [|done]. intros Hrest.
  rewrite IH by done. rewrite andb_true_r.
  apply (has_entry_lookup _ _ _ Hrow). by rewrite Ho.
Qed.

Lemma inner_loop_key i ai row os : ∀ s payoffs df k,
  pm !! ai = Some row → missing_in_row row os = Some k →
  (s + length os ≤ length p)%nat → (i < length payoffs)%nat →
  for_each (zip (seq s (length os)) os)
    (fun '(j, aj) st => pairwise_step pm p i ai j aj st) (payoffs, df)
  = Raise (KeyError k).
Proof.
  intros s payoffs df k Hrow. revert s payoffs df.
  induction os as [|o os IH]; intros s payoffs df Hk Hlen Hi; [done|].
  cbn [missing_in_row] in Hk. simpl in Hlen.
  cbn [length seq zip zip_with for_each].
  destruct (row !! o) as [v|] eqn:Ho.
  - destruct (lookup_lt_is_Some_2 p s) as [p_j Hp]; [lia|].
    destruct (lookup_lt_is_Some_2 payoffs i) as [old Hold]; [done|].
    rewrite (pairwise_step_ok pm p i ai s o payoffs df old p_j); [|
      apply (has_entry_lookup _ _ _ Hrow); by rewrite Ho|done|done].
    cbn [mbind result_bind]. apply IH; [done|lia|by rewrite length_insert].
  - injection Hk as <-. by rewrite (pairwise_step_no_entry _ _ _ _ _ row).
Qed.

Variable strategies : list string.

Lemma missing_key_nil rs : missing_key pm rs [] = None.
Proof. induction rs as [|r rs IH]; [done|]. exact IH. Qed.

Lemma missing_key_cons r rs os :
  os ≠ [] →
  missing_key pm (r :: rs) os
  = match pm !! r with
    | None => Some r
    | Some row =>
        match missing_in_row row os with
        | Some o => Some o
        | None => missing_key pm rs os
        end
    end.
Proof. by destruct os. Qed.

Lemma outer_loop_key rs : ∀ s payoffs df k,
  missing_key pm rs strategies = Some k →
  (length strategies ≤ length p)%nat →
  (s + length rs ≤ length payoffs)%nat →
  for_each (zip (seq s (length rs)) rs)
    (fun '(i, ai) st =>
       for_each (enumerate strategies)
         (fun '(j, aj) st => pairwise_step pm p i ai j aj st) st)
    (payoffs, df)
  = Raise (KeyError k).
Proof.
  destruct (decide (strategies = [])) as [Hnil|Hne].
  { intros s payoffs df k. by rewrite Hnil, missing_key_nil. }
  induction rs as [|r rs IH]; intros s payoffs df k Hk Hlen Hs; [done|].
  rewrite missing_key_cons in Hk by done. simpl in Hs.
  cbn [length seq zip zip_with for_each].
  destruct (pm !! r) as [row|] eqn:Hrow.
  - destruct (missing_in_row row strategies) as [k'|] eqn:Hmiss.
    + injection Hk as <-. unfold enumerate.
      by rewrite (inner_loop_key s r row strategies 0%nat payoffs df k')
        by (done || lia).
    + destruct (lookup_lt_is_Some_2 payoffs s) as [old Hold]; [lia|].
      destruct (row_loop_ok pm p s r strategies payoffs df old)
        as [df1 ->]; [by eapply missing_in_row_None|lia|done|].
      cbn [mbind result_bind]. apply IH; [done|done|].
      rewrite length_insert. lia.
  - injection Hk as <-. destruct strategies as [|o os]; [done|].
    cbn [enumerate length seq zip zip_with for_each].
    by rewrite pairwise_step_no_row.
Qed.

Lemma pairwise_payoffs_key k :
  missing_key pm strategies strategies = Some k →
  (length strategies ≤ length p)%nat →
  pairwise_payoffs strategies pm p = Raise (KeyError k).
Proof.
  intros Hk Hlen. unfold pairwise_payoffs, enumerate at 1.
  apply outer_loop_key; [done..|]. unfold np_zeros. rewrite length_replicate. lia.
Qed.

Lemma missing_key_complete rs os :
  missing_key pm rs os = None →
  forallb (fun s => forallb (Spec.has_entry pm s) os) rs = true.
Proof.
  destruct (decide (os = [])) as [->|Hne].
  { intros _. by induction rs. }
  induction rs as [|r rs IH]; [done|].
  rewrite missing_key_cons by done. cbn [forallb].
  destruct (pm !! r) as [row|] eqn:Hrow; [|done].
  destruct (missing_in_row row os) as [k'|] eqn:Hmiss; [done|]. intros Hk.
  rewrite (missing_in_row_None r row os Hrow Hmiss). by rewrite IH.
Qed.
End MissingKey.

Lemma period_body_key {F : Type} `{Num F} (strategies : list string)
    (pm : gmap string (gmap string F)) period st k :
  missing_key pm strategies strategies = Some k →
  length (probabilities st) = length strategies →
  period_body strategies pm period st = Raise (KeyError k).
Proof.
  intros Hk Hlen. unfold period_body.
  by rewrite (pairwise_payoffs_key pm (probabilities st) strategies k Hk) by lia.
Qed.

(** With [num_periods >= 1], the [KeyError] of an incomplete matrix names
    the first key the loops miss, scanning the pairs row by row: the first
    strategy that has no row, or the first opponent missing from a row.  A
    matrix with no such key is complete. *)
Theorem KeyError_names_first_missing {F : Type} `{Num F}
    (strategies : list string)
    (default_matrix payoff_matrix : gmap string (gmap string F))
    (num_periods : Z) :
  1 ≤ num_periods →
  match missing_key payoff_matrix strategies strategies with
  | Some k =>
      simulate_replication_dynamics strategies default_matrix num_periods
        (Some payoff_matrix) = Raise (KeyError k)
      ∧ ReplicationDynamics.simulate_replication_dynamics strategies
          payoff_matrix num_periods = Raise (KeyError k)
  | None => Spec.complete strategies payoff_matrix = true
  end.
Proof.
  intros Hn.
  destruct (missing_key payoff_matrix strategies strategies) as [k|] eqn:Hk;
    [|by apply missing_key_complete].
  assert (Hsim : simulate_replication_dynamics strategies default_matrix
                   num_periods (Some payoff_matrix) = Raise (KeyError k)).
  { unfold simulate_replication_dynamics.
    destruct (range_pos _ Hn) as [l ->]. cbn [for_each default].
    rewrite (period_body_key strategies payoff_matrix _ _ k Hk); [done|].
    cbn. unfold initial_probabilities, np_ones.
    by rewrite length_fmap, length_replicate. }
  split; [done|].
  by rewrite (replication_dynamics_streamlit_app _ _ default_matrix), Hsim.
Qed.

Lemma KeyError_names_first_missing_witness :
  1 ≤ 10
  ∧ match missing_key
            (<["GRIM" := delete "HAWK" (payoff_row (F:=float) [])]>
               (default_payoff_matrix (F:=float)))
            automatons automatons with
    | Some k =>
        simulate_replication_dynamics (F:=float) automatons
          (default_payoff_matrix (F:=float)) 10
          (Some (<["GRIM" := delete "HAWK" (payoff_row (F:=float) [])]>
                   (default_payoff_matrix (F:=float))))
        = Raise (KeyError k)
        ∧ ReplicationDynamics.simulate_replication_dynamics (F:=float)
            automatons
            (<["GRIM" := delete "HAWK" (payoff_row (F:=float) [])]>
               (default_payoff_matrix (F:=float))) 10
          = Raise (KeyError k)
    | None =>
        Spec.complete automatons
          (<["GRIM" := delete "HAWK" (payoff_row (F:=float) [])]>
             (default_payoff_matrix (F:=float))) = true
    end.
Proof.
  split; [lia|].
  apply (KeyError_names_first_missing (F:=float) automatons
           (default_payoff_matrix (F:=float))
           (<["GRIM" := delete "HAWK" (payoff_row (F:=float) [])]>
              (default_payoff_matrix (F:=float))) 10).
  lia.
Defined.

(** ** The tables of a period *)

Lemma zip_with_labels_notin {A} (f : A → A) (r : string) (labels : list string) :
  ∀ vals : list A,
  r ∉ labels → (length vals ≤ length labels)%nat →
  zip_with (fun l x => if decide (l = r) then f x else x) labels vals = vals.
Proof.
  induction labels as [|l labels IH]; intros vals Hr Hlen.
  - destruct vals; [done|simpl in Hlen; lia].
  - destruct vals as [|v vals]; [done|]. simpl in Hlen.
    apply not_elem_of_cons in Hr as [Hne Hr]. cbn [zip_with].
    rewrite decide_False by done. by rewrite IH by (done || lia).
Qed.

Lemma zip_with_labels_alter {A} (f : A → A) (r : string) (labels : list string) :
  ∀ (i : nat) (vals : list A),
  NoDup labels → labels !! i = Some r → (length vals ≤ length labels)%nat →
  zip_with (fun l x => if decide (l = r) then f x else x) labels vals
  = alter f i vals.
Proof.
  induction labels as [|l labels IH]; intros i vals Hnd Hi Hlen; [done|].
  apply NoDup_cons in Hnd as [Hl Hnd].
  destruct vals as [|v vals]; [by destruct i|]. simpl in Hlen.
  destruct i as [|i]; simpl in Hi.
  - injection Hi as ->. cbn [zip_with]. rewrite decide_True by done.
    by rewrite zip_with_labels_notin by (done || lia).
  - cbn [zip_with]. rewrite decide_False.
    + by rewrite (IH i) by (done || lia).
    + intros ->. apply Hl. by eapply list_elem_of_lookup_2.
Qed.

Lemma alter_middle {A} (f : A → A) (above below : list A) (x : A) :
  alter f (length above) (above ++ x :: below) = above ++ f x :: below.
Proof. induction above as [|y above IH]; [done|]. cbn. by rewrite <-IH. Qed.

Lemma df_loc_set_cell {F : Type} (labels : list string)
    (above below : list (list F)) (row : list F) (i j : nat) (r c : string)
    (v : F) :
  NoDup labels → labels !! i = Some r → labels !! j = Some c →
  length above = i → length row = length labels →
  (length (above ++ row :: below) ≤ length labels)%nat →
  df_loc_set (mkDataFrame labels labels (above ++ row :: below)) r c v
  = mkDataFrame labels labels (above ++ <[j := v]> row :: below).
Proof.
  intros Hnd Hi Hj Habove Hrow Hlen. unfold df_loc_set.
  cbn [df_index df_columns df_values]. f_equal.
  rewrite (zip_with_labels_alter _ r labels i) by done.
  subst i.
  rewrite alter_middle. do 2 f_equal.
  rewrite (zip_with_labels_alter (fun _ => v) c labels j) by (done || lia).
  clear. revert j. induction row as [|x row IH]; intros [|j]; try done.
  cbn. f_equal. apply IH.
Qed.

Section PairwiseTable.
Context {F : Type} `{Num F}.
Variable strategies : list string.
Variable pm : gmap string (gmap string F).
Variable p : list F.
Hypothesis strategies_NoDup : NoDup strategies.
Hypothesis shares_length : (length strategies ≤ length p)%nat.

Lemma contributions_length ai :
  length (contributions pm ai strategies p) = length strategies.
Proof. unfold contributions. rewrite length_zip_with. lia. Qed.

Lemma contributions_lookup ai j o p_j :
  strategies !! j = Some o → p !! j = Some p_j →
  contributions pm ai strategies p !! j = Some (mul (Spec.entry pm ai o) p_j).
Proof.
  intros Ho Hp. unfold contributions. by rewrite lookup_zip_with, Ho, Hp.
Qed.

Lemma inner_loop_table i ai os : ∀ s payoffs above below old,
  strategies !! i = Some ai → drop s strategies = os →
  forallb (Spec.has_entry pm ai) os = true →
  payoffs !! i = Some old → length above = i →
  (length above + S (length below) ≤ length strategies)%nat →
  for_each (zip (seq s (length os)) os)
    (fun '(j, aj) st => pairwise_step pm p i ai j aj st)
    (payoffs,
     mkDataFrame strategies strategies
       (above ++ (take s (contributions pm ai strategies p)
                  ++ replicate (length strategies - s) zero) :: below))
  = Ok (<[i := foldl add old (contributions pm ai os (drop s p))]> payoffs,
        mkDataFrame strategies strategies
          (above ++ contributions pm ai strategies p :: below)).
Proof.
  induction os as [|o os IH];
    intros s payoffs above below old Hi Hdrop Hc Hold Habove Hrows.
  - cbn [length seq zip zip_with for_each contributions foldl].
    rewrite list_insert_id by done.
    assert (length strategies ≤ s)%nat as Hs.
    { apply (f_equal length) in Hdrop. rewrite length_drop in Hdrop.
      simpl in Hdrop. lia. }
    rewrite take_ge by (rewrite contributions_length; lia).
    replace (length strategies - s)%nat with 0%nat by lia.
    by rewrite app_nil_r.
  - simpl in Hc. apply andb_true_iff in Hc as [Ho Hc].
    assert (strategies !! s = Some o) as Hso.
    { rewrite <-(Nat.add_0_r s), <-lookup_drop, Hdrop. done. }
    assert (drop (S s) strategies = os) as Hdrop'.
    { rewrite (drop_S _ _ _ Hso) in Hdrop. by injection Hdrop. }
    assert (s < length strategies)%nat as Hs by (by eapply lookup_lt_Some).
    destruct (lookup_lt_is_Some_2 p s) as [p_j Hp]; [lia|].
    cbn [length seq zip zip_with for_each].
    rewrite (pairwise_step_ok pm p i ai s o _ _ old p_j Ho Hp Hold).
    cbn [mbind result_bind].
    rewrite (df_loc_set_cell strategies above below _ i s ai o); try done.
    2:{ rewrite length_app, length_take, contributions_length, length_replicate.
        lia. }
    2:{ rewrite length_app. simpl. lia. }
    assert (Hrow : <[s := mul (Spec.entry pm ai o) p_j]>
                     (take s (contributions pm ai strategies p)
                      ++ replicate (length strategies - s) zero)
                   = take (S s) (contributions pm ai strategies p)
                     ++ replicate (length strategies - S s) zero).
    { rewrite (take_S_r _ _ _ (contributions_lookup ai s o p_j Hso Hp)).
      replace (length strategies - s)%nat
        with (S (length strategies - S s)) by lia.
      cbn [replicate]. rewrite insert_app_r_alt;
        rewrite length_take, contributions_length; [|lia].
      replace (s - s `min` length strategies)%nat with 0%nat by lia.
      cbn [insert list_insert]. by rewrite <-app_assoc. }
    rewrite Hrow.
    rewrite (IH (S s) _ above below (add old (mul (Spec.entry pm ai o) p_j)));
      try done.
    + rewrite list_insert_insert_eq. by rewrite (drop_S _ _ _ Hp).
    + apply list_lookup_insert_eq. by eapply lookup_lt_Some.
Qed.

Lemma outer_loop_table rs : ∀ i pre,
  drop i strategies = rs → length pre = i →
  forallb (fun s => forallb (Spec.has_entry pm s) strategies) rs = true →
  for_each (zip (seq i (length rs)) rs)
    (fun '(i, ai) st =>
       for_each (enumerate strategies)
         (fun '(j, aj) st => pairwise_step pm p i ai j aj st) st)
    (pre ++ replicate (length rs) zero,
     mkDataFrame strategies strategies
       (((fun s => contributions pm s strategies p) <$> take i strategies)
        ++ replicate (length rs) (replicate (length strategies) zero)))
  = Ok (pre ++ (Spec.expected_payoff strategies pm p <$> rs),
        mkDataFrame strategies strategies
          ((fun s => contributions pm s strategies p) <$> strategies)).
Proof.
  induction rs as [|r rs IH]; intros i pre Hdrop Hpre Hc.
  - cbn [length seq zip zip_with for_each replicate fmap list_fmap].
    rewrite !app_nil_r. rewrite take_ge; [done|].
    apply (f_equal length) in Hdrop. rewrite length_drop in Hdrop.
    simpl in Hdrop. lia.
  - simpl in Hc. apply andb_true_iff in Hc as [Hr Hc].
    assert (strategies !! i = Some r) as Hir.
    { rewrite <-(Nat.add_0_r i), <-lookup_drop, Hdrop. done. }
    assert (drop (S i) strategies = rs) as Hdrop'.
    { rewrite (drop_S _ _ _ Hir) in Hdrop. by injection Hdrop. }
    assert (i < length strategies)%nat as Hi by (by eapply lookup_lt_Some).
    assert (length rs = length strategies - S i)%nat as Hrs.
    { rewrite <-Hdrop', length_drop. done. }
    cbn [length seq zip zip_with for_each replicate].
    unfold enumerate.
    pose proof (inner_loop_table i r strategies 0%nat
      (pre ++ zero :: replicate (length rs) zero)
      ((fun s => contributions pm s strategies p) <$> take i strategies)
      (replicate (length rs) (replicate (length strategies) zero))
      zero Hir eq_refl Hr) as Hin.
    rewrite take_0, Nat.sub_0_r in Hin. cbn [app] in Hin.
    rewrite Hin; clear Hin.
    + cbn [mbind result_bind].
      rewrite insert_app_r_alt, Hpre, Nat.sub_diag by lia.
      cbn [insert list_insert].
      rewrite (cons_middle _ pre), app_assoc.
      rewrite (cons_middle (contributions pm r strategies p)), app_assoc.
      replace (((fun s => contributions pm s strategies p) <$> take i strategies)
               ++ [contributions pm r strategies p])
        with ((fun s => contributions pm s strategies p)
                <$> take (S i) strategies)
        by (by rewrite (take_S_r _ _ _ Hir), fmap_app).
      rewrite (IH (S i) (pre ++ [foldl add zero
                 (contributions pm r strategies (drop 0 p))]));
        [|done|rewrite length_app; simpl; lia|done].
      by rewrite <-app_assoc.
    + rewrite lookup_app_r by lia. by rewrite Hpre, Nat.sub_diag.
    + rewrite length_fmap, length_take. lia.
    + rewrite length_fmap, length_take, length_replicate. lia.
Qed.

Lemma pairwise_payoffs_table :
  Spec.complete strategies pm = true →
  pairwise_payoffs strategies pm p
  = Ok (Spec.expected_payoffs strategies pm p, pairwise_table strategies pm p).
Proof.
  intros Hc. unfold pairwise_payoffs, enumerate at 1.
  pose proof (outer_loop_table strategies 0%nat [] eq_refl eq_refl Hc) as Hout.
  rewrite take_0 in Hout. exact Hout.
Qed.
End PairwiseTable.

Section TablesLoop.
Context {F : Type} `{Num F}.
Variable strategies : list string.
Variable pm : gmap string (gmap string F).
Hypothesis strategies_nonempty : strategies ≠ [].
Hypothesis strategies_NoDup : NoDup strategies.
Hypothesis matrix_complete : Spec.complete strategies pm = true.

Lemma period_body_tables period st st' :
  length (probabilities st) = length strategies →
  period_body strategies pm period st = Ok st' →
  pairwise_payoffs_history (run st')
  = pairwise_payoffs_history (run st)
    ++ [pairwise_table strategies pm (probabilities st)]
  ∧ payoff_matrices (run st')
    = payoff_matrices (run st)
      ++ [df_column (Spec.expected_payoffs strategies pm (probabilities st))
            strategies ("t=" +:+ pretty period)].
Proof.
  intros Hlen. unfold period_body.
  rewrite pairwise_payoffs_table by (done || lia). cbn [mbind result_bind].
  destruct (period_strategies _ _) as [d|]; [|done]. cbn [mbind result_bind].
  destruct (store_payoffs _ _ _) as [ph|]; [|done]. cbn [mbind result_bind].
  destruct (adjust_payoffs _) as [adj|]; [|done]. cbn [mbind result_bind].
  by intros [= <-].
Qed.

Lemma tables_loop (t : nat) :
  ∃ st, for_each (range (Z.of_nat t)) (period_body strategies pm)
          (initial_state strategies) = Ok st
        ∧ trace strategies pm t st ∧ tables strategies pm t st.
Proof.
  induction t as [|t (st & Hrun & Htr & Htab)].
  - exists (initial_state strategies). split; [done|].
    split; [apply trace_initial|]. intros t' p Ht'. lia.
  - rewrite range_succ, for_each_snoc, Hrun. cbn [mbind result_bind].
    destruct (trace_period strategies pm t (Z.of_nat t) st)
      as (st' & Hbody & Htr'); try done.
    exists st'. split; [done|]. split; [done|].
    destruct (period_body_tables _ _ _ (trace_shares _ _ _ _ Htr) Hbody)
      as [Hpw Hmat].
    pose proof (period_body_history _ _ _ _ _ Hbody) as Hhist.
    intros t' p Ht' Hp. rewrite Hpw, Hmat.
    pose proof (trace_length _ _ _ _ Htr) as Hlen.
    pose proof (trace_pairwise _ _ _ _ Htr) as Hlpw.
    pose proof (trace_matrices _ _ _ _ Htr) as Hlmat.
    rewrite Hhist in Hp.
    destruct (decide (t' < t)%nat) as [Hlt|Hge].
    + rewrite lookup_app_l in Hp by lia.
      rewrite !lookup_app_l by lia. by apply Htab.
    + assert (t' = t) as -> by lia.
      rewrite lookup_app_l in Hp by lia.
      rewrite (trace_last _ _ _ _ Htr) in Hp. injection Hp as <-.
      rewrite !lookup_app_r by lia.
      rewrite Hlpw, Hlmat, Nat.sub_diag. done.
Qed.

Lemma simulate_tables num_periods :
  ∃ st,
    simulate_replication_dynamics strategies pm num_periods None = Ok (run st)
    ∧ trace strategies pm (Z.to_nat num_periods) st
    ∧ tables strategies pm (Z.to_nat num_periods) st.
Proof.
  unfold simulate_replication_dynamics. cbn [default]. rewrite range_of_nat.
  destruct (tables_loop (Z.to_nat num_periods)) as (st & -> & Htr & Htab).
  by exists st.
Qed.
End TablesLoop.

Lemma trace_rectangular {F : Type} `{Num F} (strategies : list string)
    (pm : gmap string (gmap string F)) t st :
  trace strategies pm t st →
  Forall (fun v => length v = length strategies) (history (run st)).
Proof.
  apply (trace_history_invariant strategies pm
           (fun v => length v = length strategies)).
  - unfold Spec.uniform. by rewrite length_replicate.
  - intros q q' Hq Hup. by eapply update_length.
Qed.

(** In a run over a complete matrix, the table recorded for period [t] in
    [pairwise_payoffs_history] is labelled by the strategies, its cell for
    the row of [s] and the column of [o] is
    [payoff_matrix[s][o] * history[t][o]], and the cells of the row of [s],
    added from left to right starting from zero, give the payoff recorded
    for [s] in that period. *)
Theorem pairwise_rows_add_up {F : Type} `{Num F} (strategies : list string)
    (matrix : gmap string (gmap string F)) (num_periods : Z) :
  strategies ≠ [] → NoDup strategies →
  Spec.complete strategies matrix = true →
  ∃ sim,
    simulate_replication_dynamics strategies matrix num_periods None = Ok sim
    ∧ ∀ t : nat, Z.of_nat t < num_periods →
        ∃ p table,
          history sim !! t = Some p
          ∧ pairwise_payoffs_history sim !! t = Some table
          ∧ df_index table = strategies ∧ df_columns table = strategies
          ∧ (∀ i j s o, strategies !! i = Some s → strategies !! j = Some o →
               ∃ p_j, p !! j = Some p_j
                      ∧ df_values table !! i ≫= (.!! j)
                        = Some (mul (Spec.entry matrix s o) p_j))
          ∧ (∀ i s, strategies !! i = Some s →
               ∃ row, df_values table !! i = Some row
                      ∧ payoff_history sim !! s ≫= (.!! t)
                        = Some (accumulate row)).
Proof.
  intros Hne Hnd Hc.
  destruct (simulate_tables strategies matrix Hne Hnd Hc num_periods)
    as (st & Hrun & Htr & Htab).
  exists (run st). split; [done|]. intros t Ht.
  destruct (trace_period_at _ _ _ _ t Htr) as (p & p' & Hp & _ & _ & Hpay);
    [lia|].
  destruct (Htab t p ltac:(lia) Hp) as [Hpw _].
  exists p, (pairwise_table strategies matrix p).
  do 4 (split; [done|]).
  pose proof (Forall_lookup_1 _ _ _ _ (trace_rectangular _ _ _ _ Htr) Hp)
    as Hplen. cbn beta in Hplen.
  split.
  - intros i j s o Hs Ho.
    destruct (lookup_lt_is_Some_2 p j) as [p_j Hpj].
    { rewrite Hplen. by eapply lookup_lt_Some. }
    exists p_j. split; [done|].
    unfold pairwise_table. cbn [df_values].
    rewrite list_lookup_fmap, Hs. cbn [fmap option_fmap option_map mbind option_bind].
    by apply contributions_lookup.
  - intros i s Hs. eexists. split.
    + unfold pairwise_table. cbn [df_values]. by rewrite list_lookup_fmap, Hs.
    + rewrite Hpay by (by eapply list_elem_of_lookup_2). done.
Qed.

Lemma pairwise_rows_add_up_witness :
  automatons ≠ [] ∧ NoDup automatons
  ∧ Spec.complete automatons (default_payoff_matrix (F:=float)) = true
  ∧ ∃ sim,
      simulate_replication_dynamics (F:=float) automatons
        (default_payoff_matrix (F:=float)) 10 None = Ok sim
      ∧ ∀ t : nat, Z.of_nat t < 10 →
          ∃ p table,
            history sim !! t = Some p
            ∧ pairwise_payoffs_history sim !! t = Some table
            ∧ df_index table = automatons ∧ df_columns table = automatons
            ∧ (∀ i j s o, automatons !! i = Some s → automatons !! j = Some o →
                 ∃ p_j, p !! j = Some p_j
                        ∧ df_values table !! i ≫= (.!! j)
                          = Some (mul (Spec.entry
                                         (default_payoff_matrix (F:=float)) s o)
                                    p_j))
            ∧ (∀ i s, automatons !! i = Some s →
                 ∃ row, df_values table !! i = Some row
                        ∧ payoff_history sim !! s ≫= (.!! t)
                          = Some (accumulate row)).
Proof.
  split; [done|]. split; [exact automatons_NoDup|].
  split; [exact default_payoff_matrix_complete_float|].
  apply (pairwise_rows_add_up (F:=float) automatons
           (default_payoff_matrix (F:=float)) 10);
    [done|exact automatons_NoDup|exact default_payoff_matrix_complete_float].
Defined.

(** In a run over a complete matrix there is one table in
    [payoff_matrices] per period; the table of period [t] has the
    strategies as rows and the single column ["t=<t>"], counted from
    [t=0], and its cell for a strategy is the payoff recorded for that
    strategy and period in [payoff_history]. *)
Theorem payoff_timeline_matches {F : Type} `{Num F} (strategies : list string)
    (matrix : gmap string (gmap string F)) (num_periods : Z) :
  strategies ≠ [] → NoDup strategies →
  Spec.complete strategies matrix = true →
  ∃ sim,
    simulate_replication_dynamics strategies matrix num_periods None = Ok sim
    ∧ length (payoff_matrices sim) = Z.to_nat num_periods
    ∧ ∀ t : nat, Z.of_nat t < num_periods →
        ∃ column,
          payoff_matrices sim !! t = Some column
          ∧ df_index column = strategies
          ∧ df_columns column = ["t=" +:+ pretty (Z.of_nat t)]
          ∧ ∀ i s, strategies !! i = Some s →
              ∃ x, df_values column !! i = Some [x]
                   ∧ payoff_history sim !! s ≫= (.!! t) = Some x.
Proof.
  intros Hne Hnd Hc.
  destruct (simulate_tables strategies matrix Hne Hnd Hc num_periods)
    as (st & Hrun & Htr & Htab).
  exists (run st). split; [done|]. split; [apply Htr|]. intros t Ht.
  destruct (trace_period_at _ _ _ _ t Htr) as (p & p' & Hp & _ & _ & Hpay);
    [lia|].
  destruct (Htab t p ltac:(lia) Hp) as [_ Hmat].
  exists (payoff_column strategies matrix t p). do 3 (split; [done|]).
  intros i s Hs. exists (Spec.expected_payoff strategies matrix p s). split.
  - unfold payoff_column, df_column, Spec.expected_payoffs. cbn [df_values].
    by rewrite !list_lookup_fmap, Hs.
  - apply Hpay. by eapply list_elem_of_lookup_2.
Qed.

Lemma payoff_timeline_matches_witness :
  automatons ≠ [] ∧ NoDup automatons
  ∧ Spec.complete automatons (default_payoff_matrix (F:=float)) = true
  ∧ ∃ sim,
      simulate_replication_dynamics (F:=float) automatons
        (default_payoff_matrix (F:=float)) 10 None = Ok sim
      ∧ length (payoff_matrices sim) = Z.to_nat 10
      ∧ ∀ t : nat, Z.of_nat t < 10 →
          ∃ column,
            payoff_matrices sim !! t = Some column
            ∧ df_index column = automatons
            ∧ df_columns column = ["t=" +:+ pretty (Z.of_nat t)]
            ∧ ∀ i s, automatons !! i = Some s →
                ∃ x, df_values column !! i = Some [x]
                     ∧ payoff_history sim !! s ≫= (.!! t) = Some x.
Proof.
  split; [done|]. split; [exact automatons_NoDup|].
  split; [exact default_payoff_matrix_complete_float|].
  apply (payoff_timeline_matches (F:=float) automatons
           (default_payoff_matrix (F:=float)) 10);
    [done|exact automatons_NoDup|exact default_payoff_matrix_complete_float].
Defined.

(** In a run over a complete matrix every vector of the history has one
    entry per strategy, so the history is a rectangular array of
    [num_periods + 1] rows and [K] columns; and when [num_periods >= 1] the
    keys of [payoff_history] are exactly the strategies. *)
Theorem history_rectangular {F : Type} `{Num F} (strategies : list string)
    (matrix : gmap string (gmap string F)) (num_periods : Z) :
  strategies ≠ [] → NoDup strategies →
  Spec.complete strategies matrix = true →
  ∃ sim,
    simulate_replication_dynamics strategies matrix num_periods None = Ok sim
    ∧ length (history sim) = S (Z.to_nat num_periods)
    ∧ Forall (fun v => length v = length strategies) (history sim)
    ∧ (1 ≤ num_periods →
       ∀ s, is_Some (payoff_history sim !! s) ↔ s ∈ strategies).
Proof.
  intros Hne Hnd Hc.
  destruct (simulate_trace strategies matrix num_periods None Hne Hnd Hc)
    as (st & Hrun & Htr).
  exists (run st). split; [done|]. split; [apply Htr|].
  split; [by eapply trace_rectangular|]. intros Hn s. split.
  - intros Hsome. destruct (decide (s ∈ strategies)) as [|Hnot]; [done|].
    rewrite (trace_others _ _ _ _ Htr s Hnot) in Hsome. by destruct Hsome.
  - intros Hs. apply (trace_recorded _ _ _ _ Htr s Hs). lia.
Qed.

Lemma history_rectangular_witness :
  automatons ≠ [] ∧ NoDup automatons
  ∧ Spec.complete automatons (default_payoff_matrix (F:=float)) = true
  ∧ ∃ sim,
      simulate_replication_dynamics (F:=float) automatons
        (default_payoff_matrix (F:=float)) 10 None = Ok sim
      ∧ length (history sim) = S (Z.to_nat 10)
      ∧ Forall (fun v => length v = length automatons) (history sim)
      ∧ (1 ≤ 10 →
         ∀ s, is_Some (payoff_history sim !! s) ↔ s ∈ automatons).
Proof.
  split; [done|]. split; [exact automatons_NoDup|].
  split; [exact default_payoff_matrix_complete_float|].
  apply (history_rectangular (F:=float) automatons
           (default_payoff_matrix (F:=float)) 10);
    [done|exact automatons_NoDup|exact default_payoff_matrix_complete_float].
Defined.

(** ** The reweighting in exact arithmetic *)

Section ExactReweighting.
Local Open Scope Q_scope.

Lemma np_sum_weighted_le (bound : Q) (p : list Q) : ∀ adj,
  Forall (fun x => 0 <= x) p → Forall (fun a => a <= bound) adj →
  length p = length adj →
  np_sum (zip_with Qmult p adj) <= bound * np_sum p.
Proof.
  induction p as [|x p IH]; intros adj Hp Hadj Hlen.
  - cbn [zip_with]. rewrite np_sum_nil. lra.
  - destruct adj as [|a adj]; [done|].
    apply Forall_cons in Hp as [Hx Hp]. apply Forall_cons in Hadj as [Ha Hadj].
    cbn [zip_with]. rewrite !np_sum_cons.
    specialize (IH adj Hp Hadj ltac:(by injection Hlen)).
    assert (x * a <= bound * x) by nra. lra.
Qed.

Lemma np_sum_weighted_ge (bound : Q) (p : list Q) : ∀ adj,
  Forall (fun x => 0 <= x) p → Forall (fun a => bound <= a) adj →
  length p = length adj →
  bound * np_sum p <= np_sum (zip_with Qmult p adj).
Proof.
  induction p as [|x p IH]; intros adj Hp Hadj Hlen.
  - cbn [zip_with]. rewrite np_sum_nil. lra.
  - destruct adj as [|a adj]; [done|].
    apply Forall_cons in Hp as [Hx Hp]. apply Forall_cons in Hadj as [Ha Hadj].
    cbn [zip_with]. rewrite !np_sum_cons.
    specialize (IH adj Hp Hadj ltac:(by injection Hlen)).
    assert (bound * x <= x * a) by nra. lra.
Qed.

Lemma Qmult_le_l' (x y z : Q) : 0 <= z → x <= y → z * x <= z * y.
Proof. intros. nra. Qed.

Lemma multiplier_monotone (m x y : Q) :
  x <= y → Spec.multiplier m x <= Spec.multiplier m y.
Proof.
  intros Hxy. unfold Spec.multiplier.
  destruct (ltb m zero); cbn [add sub one Q_num]; lra.
Qed.

Variable strategies : list string.
Variable pm : gmap string (gmap string Q).

Lemma multipliers_lookup p adj i π_i :
  Spec.multipliers strategies pm p = Some adj →
  Spec.expected_payoffs strategies pm p !! i = Some π_i →
  ∃ m, adj = Spec.multiplier m <$> Spec.expected_payoffs strategies pm p
       ∧ adj !! i = Some (Spec.multiplier m π_i).
Proof.
  unfold Spec.multipliers. destruct (np_min _) as [m|]; [|done].
  intros [= <-] Hπ. exists m. split; [done|].
  by rewrite list_lookup_fmap, Hπ.
Qed.

Lemma update_lookup p p' adj i p_i adj_i :
  Spec.multipliers strategies pm p = Some adj →
  Spec.update strategies pm p = Some p' →
  p !! i = Some p_i → adj !! i = Some adj_i →
  p' !! i = Some (p_i * adj_i / np_sum (zip_with Qmult p adj)).
Proof.
  intros Hadj Hup Hp Ha. unfold Spec.update in Hup. rewrite Hadj in Hup.
  cbn [mbind option_bind] in Hup. injection Hup as <-.
  unfold Spec.renormalize. cbn [mul div Q_num].
  by rewrite list_lookup_fmap, lookup_zip_with, Hp, Ha.
Qed.

(** One period, for the strategy at index [i]: with the largest payoff its
    share does not shrink, with the smallest it does not grow. *)
Lemma update_favours_payoff p p' i π_i p_i p_i' :
  strategies ≠ [] →
  distribution strategies p →
  Spec.update strategies pm p = Some p' →
  Spec.expected_payoffs strategies pm p !! i = Some π_i →
  p !! i = Some p_i → p' !! i = Some p_i' →
  (Forall (fun x => x <= π_i) (Spec.expected_payoffs strategies pm p) →
   p_i <= p_i')
  ∧ (Forall (fun x => π_i <= x) (Spec.expected_payoffs strategies pm p) →
     p_i' <= p_i).
Proof.
  intros Hne Hp Hup Hπ Hpi Hpi'. pose proof Hp as (Hlen & Hpos & Hsum).
  destruct (multipliers_nonempty strategies pm p Hne) as (adj & Hadj & Hadjlen).
  destruct (multipliers_lookup p adj i π_i Hadj Hπ) as (m & Hadjeq & Hai).
  rewrite (update_lookup p p' adj i p_i _ Hadj Hup Hpi Hai) in Hpi'.
  injection Hpi' as <-.
  pose proof (denominator_positive strategies pm p adj Hp Hadj Hadjlen) as HS.
  cbn [mul Q_num] in HS.
  assert (0 <= p_i) as Hpi0.
  { eapply (Forall_lookup_1 _ _ _ _ Hpos Hpi). }
  split; intros Hall.
  - assert (np_sum (zip_with Qmult p adj) <= Spec.multiplier m π_i * np_sum p).
    { apply np_sum_weighted_le; [done| |lia].
      rewrite Hadjeq. apply Forall_fmap. eapply Forall_impl; [exact Hall|].
      intros x Hx. by apply multiplier_monotone. }
    rewrite Hsum, Qmult_1_r in H.
    apply Qle_shift_div_l; [done|]. apply Qmult_le_l'; done.
  - assert (Spec.multiplier m π_i * np_sum p <= np_sum (zip_with Qmult p adj)).
    { apply np_sum_weighted_ge; [done| |lia].
      rewrite Hadjeq. apply Forall_fmap. eapply Forall_impl; [exact Hall|].
      intros x Hx. by apply multiplier_monotone. }
    rewrite Hsum, Qmult_1_r in H.
    apply Qle_shift_div_r; [done|]. apply Qmult_le_l'; done.
Qed.

(** Shares that are all positive stay all positive. *)
Lemma update_positive p p' :
  strategies ≠ [] →
  distribution strategies p → Forall (fun x => 0 < x) p →
  Spec.update strategies pm p = Some p' → Forall (fun x => 0 < x) p'.
Proof.
  intros Hne Hp Hpos Hup.
  destruct (multipliers_nonempty strategies pm p Hne) as (adj & Hadj & Hadjlen).
  pose proof (denominator_positive strategies pm p adj Hp Hadj Hadjlen) as HS.
  pose proof (multipliers_ge_one strategies pm p adj Hadj) as Hge.
  unfold Spec.update in Hup. rewrite Hadj in Hup.
  cbn [mbind option_bind] in Hup. injection Hup as <-.
  unfold Spec.renormalize. cbn [mul div Q_num] in *.
  apply Forall_fmap, Forall_lookup. intros i w Hw.
  apply lookup_zip_with_Some in Hw as (x & a & -> & Hx & Ha).
  pose proof (Forall_lookup_1 _ _ _ _ Hpos Hx) as Hx0.
  pose proof (Forall_lookup_1 _ _ _ _ Hge Ha) as Ha1.
  cbn beta in *. unfold compose. apply Qlt_shift_div_l; [done|]. nra.
Qed.
End ExactReweighting.

(** "Payoffs determine reweighting: highest gets more weight, lowest gets
    less" (the docstring of [replication_dynamics.py]), in exact
    arithmetic: in every period of a run over a complete matrix, the share
    of a strategy whose recorded payoff is the largest of the period does
    not shrink, and the share of one whose payoff is the smallest does not
    grow. *)
Theorem highest_payoff_gains (strategies : list string)
    (matrix : gmap string (gmap string Q)) (num_periods : Z) :
  strategies ≠ [] → NoDup strategies →
  Spec.complete strategies matrix = true →
  ∃ sim,
    simulate_replication_dynamics strategies matrix num_periods None = Ok sim
    ∧ ReplicationDynamics.simulate_replication_dynamics strategies matrix
        num_periods
      = Ok (history sim, payoff_history sim)
    ∧ ∀ t : nat, Z.of_nat t < num_periods →
        ∃ p p',
          history sim !! t = Some p ∧ history sim !! S t = Some p'
          ∧ ∀ i s π_i p_i p_i',
              strategies !! i = Some s →
              payoff_history sim !! s ≫= (.!! t) = Some π_i →
              p !! i = Some p_i → p' !! i = Some p_i' →
              ((∀ s' x, s' ∈ strategies →
                  payoff_history sim !! s' ≫= (.!! t) = Some x →
                  (x <= π_i)%Q) →
               (p_i <= p_i')%Q)
              ∧ ((∀ s' x, s' ∈ strategies →
                    payoff_history sim !! s' ≫= (.!! t) = Some x →
                    (π_i <= x)%Q) →
                 (p_i' <= p_i)%Q).
Proof.
  intros Hne Hnd Hc.
  destruct (simulate_trace strategies matrix num_periods None Hne Hnd Hc)
    as (st & Hrun & Htr).
  cbn [default] in Htr.
  exists (run st). split; [done|]. split.
  { rewrite (replication_dynamics_streamlit_app _ _ matrix).
    change (simulate_replication_dynamics strategies matrix num_periods
              (Some matrix))
      with (simulate_replication_dynamics strategies matrix num_periods None).
    by rewrite Hrun. }
  intros t Ht.
  destruct (trace_period_at _ _ _ _ t Htr) as (p & p' & Hp & Hp' & Hup & Hpay);
    [lia|].
  exists p, p'. do 2 (split; [done|]).
  intros i s π_i p_i p_i' Hs Hπ Hpi Hpi'.
  rewrite (Hpay s) in Hπ by (by eapply list_elem_of_lookup_2).
  injection Hπ as <-.
  pose proof (Forall_lookup_1 _ _ _ _
    (trace_history_invariant strategies matrix _
       (uniform_distribution strategies Hne)
       (update_distribution strategies matrix) _ _ Htr) Hp) as Hdist.
  assert (Hπi : Spec.expected_payoffs strategies matrix p !! i
                = Some (Spec.expected_payoff strategies matrix p s)).
  { unfold Spec.expected_payoffs. by rewrite list_lookup_fmap, Hs. }
  destruct (update_favours_payoff strategies matrix p p' i _ p_i p_i'
              Hne Hdist Hup Hπi Hpi Hpi') as [Hmax Hmin].
  split; intros Hall.
  - apply Hmax. unfold Spec.expected_payoffs. apply Forall_fmap, Forall_forall.
    intros s' Hs'. apply (Hall s'); [done|]. by apply Hpay.
  - apply Hmin. unfold Spec.expected_payoffs. apply Forall_fmap, Forall_forall.
    intros s' Hs'. apply (Hall s'); [done|]. by apply Hpay.
Qed.

Lemma highest_payoff_gains_witness :
  automatons ≠ [] ∧ NoDup automatons
  ∧ Spec.complete automatons (default_payoff_matrix (F:=Q)) = true
  ∧ ∃ sim,
      simulate_replication_dynamics (F:=Q) automatons
        (default_payoff_matrix (F:=Q)) 3 None = Ok sim
      ∧ ReplicationDynamics.simulate_replication_dynamics (F:=Q) automatons
          (default_payoff_matrix (F:=Q)) 3
        = Ok (history sim, payoff_history sim)
      ∧ ∀ t : nat, Z.of_nat t < 3 →
          ∃ p p',
            history sim !! t = Some p ∧ history sim !! S t = Some p'
            ∧ ∀ i s π_i p_i p_i',
                automatons !! i = Some s →
                payoff_history sim !! s ≫= (.!! t) = Some π_i →
                p !! i = Some p_i → p' !! i = Some p_i' →
                ((∀ s' x, s' ∈ automatons →
                    payoff_history sim !! s' ≫= (.!! t) = Some x →
                    (x <= π_i)%Q) →
                 (p_i <= p_i')%Q)
                ∧ ((∀ s' x, s' ∈ automatons →
                      payoff_history sim !! s' ≫= (.!! t) = Some x →
                      (π_i <= x)%Q) →
                   (p_i' <= p_i)%Q).
Proof.
  split; [done|]. split; [exact automatons_NoDup|].
  split; [exact default_payoff_matrix_complete_Q|].
  apply (highest_payoff_gains automatons (default_payoff_matrix (F:=Q)) 3);
    [done|exact automatons_NoDup|exact default_payoff_matrix_complete_Q].
Defined.

(** In exact arithmetic no strategy ever dies out: in a run over a
    complete matrix every share of every vector of the history is strictly
    positive. *)
Theorem shares_stay_positive (strategies : list string)
    (matrix : gmap string (gmap string Q)) (num_periods : Z) :
  strategies ≠ [] → NoDup strategies →
  Spec.complete strategies matrix = true →
  ∃ sim,
    simulate_replication_dynamics strategies matrix num_periods None = Ok sim
    ∧ ReplicationDynamics.simulate_replication_dynamics strategies matrix
        num_periods
      = Ok (history sim, payoff_history sim)
    ∧ Forall (Forall (fun x => (0 < x)%Q)) (history sim).
Proof.
  intros Hne Hnd Hc.
  destruct (simulate_trace strategies matrix num_periods None Hne Hnd Hc)
    as (st & Hrun & Htr).
  cbn [default] in Htr.
  exists (run st). split; [done|]. split.
  { rewrite (replication_dynamics_streamlit_app _ _ matrix).
    change (simulate_replication_dynamics strategies matrix num_periods
              (Some matrix))
      with (simulate_replication_dynamics strategies matrix num_periods None).
    by rewrite Hrun. }
  assert (Hinv : Forall
            (fun v => distribution strategies v ∧ Forall (fun x => (0 < x)%Q) v)
            (history (run st))).
  { apply (trace_history_invariant strategies matrix
             (fun v => distribution strategies v
                       ∧ Forall (fun x => (0 < x)%Q) v))
      with (t := Z.to_nat num_periods); [| |done].
    - split; [by apply uniform_distribution|].
      unfold Spec.uniform. apply Forall_replicate. cbn [div one of_Z Q_num].
      apply Qlt_shift_div_l; [|lra].
      change 0%Q with (inject_Z 0). rewrite <-Zlt_Qlt.
      destruct strategies; [done|]. simpl. lia.
    - intros p p' [Hd Hpos] Hup. split; [by eapply update_distribution|].
      by eapply update_positive. }
  eapply Forall_impl; [exact Hinv|]. by intros v [_ Hv].
Qed.

Lemma shares_stay_positive_witness :
  automatons ≠ [] ∧ NoDup automatons
  ∧ Spec.complete automatons (default_payoff_matrix (F:=Q)) = true
  ∧ ∃ sim,
      simulate_replication_dynamics (F:=Q) automatons
        (default_payoff_matrix (F:=Q)) 3 None = Ok sim
      ∧ ReplicationDynamics.simulate_replication_dynamics (F:=Q) automatons
          (default_payoff_matrix (F:=Q)) 3
        = Ok (history sim, payoff_history sim)
      ∧ Forall (Forall (fun x => (0 < x)%Q)) (history sim).
Proof.
  split; [done|]. split; [exact automatons_NoDup|].
  split; [exact default_payoff_matrix_complete_Q|].
  apply (shares_stay_positive automatons (default_payoff_matrix (F:=Q)) 3);
    [done|exact automatons_NoDup|exact default_payoff_matrix_complete_Q].
Defined.

(** ** Games that do not move, and the concentration metric *)

Lemma strategies_count_pos (strategies : list string) :
  strategies ≠ [] → (0 < inject_Z (Z.of_nat (length strategies)))%Q.
Proof.
  intros Hne. change 0%Q with (inject_Z 0). rewrite <-Zlt_Qlt.
  destruct strategies; [done|]. simpl. lia.
Qed.

Section ExactUniform.
Local Open Scope Q_scope.

Lemma np_sum_const (c : Q) (l : list Q) :
  Forall (fun x => x == c) l →
  np_sum l == inject_Z (Z.of_nat (length l)) * c.
Proof.
  induction 1 as [|x l Hx _ IH].
  - cbn [length Z.of_nat]. rewrite np_sum_nil. ring.
  - rewrite np_sum_cons, IH, Hx. cbn [length]. rewrite Nat2Z.inj_succ.
    unfold Z.succ. rewrite inject_Z_plus. ring.
Qed.

Lemma np_sum_scaled (f : string → Q) (u : Q) (os : list string) : ∀ q,
  Forall (fun x => x == u) q → length q = length os →
  np_sum (zip_with (fun o p_j => f o * p_j) os q) == u * np_sum (f <$> os).
Proof.
  induction os as [|o os IH]; intros q Hq Hlen.
  - cbn [zip_with fmap list_fmap]. rewrite np_sum_nil. ring.
  - destruct q as [|x q]; [done|]. apply Forall_cons in Hq as [Hx Hq].
    cbn [zip_with fmap list_fmap]. rewrite !np_sum_cons.
    rewrite (IH q Hq ltac:(by injection Hlen)), Hx. ring.
Qed.

Lemma zip_with_const (u a : Q) (p : list Q) : ∀ adj,
  Forall (fun x => x == u) p → Forall (fun x => x == a) adj →
  Forall (fun x => x == u * a) (zip_with Qmult p adj).
Proof.
  induction p as [|x p IH]; intros adj Hp Hadj; [constructor|].
  destruct adj as [|y adj]; [constructor|].
  apply Forall_cons in Hp as [Hx Hp]. apply Forall_cons in Hadj as [Hy Hadj].
  cbn [zip_with]. constructor; [by rewrite Hx, Hy|by apply IH].
Qed.

Variable strategies : list string.
Variable pm : gmap string (gmap string Q).
Hypothesis strategies_nonempty : strategies ≠ [].
Hypothesis equal_rows : ∀ s s', s ∈ strategies → s' ∈ strategies →
  row_sum strategies pm s == row_sum strategies pm s'.

Local Abbreviation u := (1 / inject_Z (Z.of_nat (length strategies))).

Lemma update_uniform p p' :
  length p = length strategies → Forall (fun x => x == u) p →
  Spec.update strategies pm p = Some p' →
  length p' = length strategies ∧ Forall (fun x => x == u) p'.
Proof.
  intros Hlen Hp Hup. split; [by eapply update_length|].
  pose proof (strategies_count_pos strategies strategies_nonempty) as HK.
  destruct strategies as [|s0 ss] eqn:Hstr; [done|]. rewrite <-Hstr in *.
  assert (Hs0 : s0 ∈ strategies) by (rewrite Hstr; by left).
  set (c := u * row_sum strategies pm s0).
  assert (Hπ : Forall (fun x => x == c)
                 (Spec.expected_payoffs strategies pm p)).
  { unfold Spec.expected_payoffs. apply Forall_fmap, Forall_forall.
    intros s Hs. unfold compose, Spec.expected_payoff.
    rewrite <-np_sum_accumulate.
    rewrite (np_sum_scaled (Spec.entry pm s) u strategies p Hp Hlen).
    unfold c. by rewrite <-(equal_rows s s0 Hs Hs0). }
  unfold Spec.update, Spec.multipliers in Hup.
  destruct (np_min _) as [m|] eqn:Hmin; [|done].
  cbn [mbind option_bind] in Hup. injection Hup as <-.
  apply np_min_Q in Hmin as [_ Hm].
  pose proof (proj1 (Forall_forall _ _) Hπ m Hm) as Hmc. cbn beta in Hmc.
  set (a := if ltb m zero then 1 else c + 1).
  assert (Hadj : Forall (fun x => x == a)
                   (Spec.multiplier m <$> Spec.expected_payoffs strategies pm p)).
  { apply Forall_fmap. eapply Forall_impl; [exact Hπ|].
    intros x Hx. unfold compose, Spec.multiplier, a.
    destruct (ltb m zero); cbn [add sub one Q_num]; rewrite Hx, ?Hmc; ring. }
  assert (Ha : 1 <= a).
  { unfold a. destruct (ltb m zero) eqn:Hlt; [lra|].
    apply Qltb_ge in Hlt. cbn [zero Q_num] in Hlt. lra. }
  pose proof (zip_with_const u a p _ Hp Hadj) as Hw.
  assert (HS : np_sum (zip_with Qmult p
                 (Spec.multiplier m <$> Spec.expected_payoffs strategies pm p))
               == a).
  { rewrite (np_sum_const _ _ Hw), length_zip_with, length_fmap.
    unfold Spec.expected_payoffs. rewrite length_fmap, Hlen, Nat.min_id.
    field. lra. }
  unfold Spec.renormalize. cbn [mul div Q_num].
  apply Forall_fmap. eapply Forall_impl; [exact Hw|].
  intros x Hx. unfold compose. rewrite Hx, HS. field. lra.
Qed.

Lemma uniform_uniform :
  length (Spec.uniform strategies) = length strategies
  ∧ Forall (fun x => x == u) (Spec.uniform strategies).
Proof.
  unfold Spec.uniform. split; [by rewrite length_replicate|].
  by apply Forall_replicate.
Qed.
End ExactUniform.

(** A game in which every row of the matrix has the same sum never moves
    (in exact arithmetic): every vector of the history is the uniform one.
    This covers the matrix with all payoffs equal and the one in which
    each strategy only earns against itself. *)
Theorem equal_rows_stay_uniform (strategies : list string)
    (matrix : gmap string (gmap string Q)) (num_periods : Z) :
  strategies ≠ [] → NoDup strategies →
  Spec.complete strategies matrix = true →
  (∀ s s', s ∈ strategies → s' ∈ strategies →
     (row_sum strategies matrix s == row_sum strategies matrix s')%Q) →
  ∃ sim,
    simulate_replication_dynamics strategies matrix num_periods None = Ok sim
    ∧ ReplicationDynamics.simulate_replication_dynamics strategies matrix
        num_periods
      = Ok (history sim, payoff_history sim)
    ∧ Forall
        (Forall (fun x =>
                   (x == 1 / inject_Z (Z.of_nat (length strategies)))%Q))
        (history sim).
Proof.
  intros Hne Hnd Hc Hrows.
  destruct (simulate_trace strategies matrix num_periods None Hne Hnd Hc)
    as (st & Hrun & Htr).
  cbn [default] in Htr.
  exists (run st). split; [done|]. split.
  { rewrite (replication_dynamics_streamlit_app _ _ matrix).
    change (simulate_replication_dynamics strategies matrix num_periods
              (Some matrix))
      with (simulate_replication_dynamics strategies matrix num_periods None).
    by rewrite Hrun. }
  assert (Hinv : Forall
            (fun v => length v = length strategies
                      ∧ Forall (fun x =>
                          (x == 1 / inject_Z (Z.of_nat (length strategies)))%Q)
                          v)
            (history (run st))).
  { apply (trace_history_invariant strategies matrix
             (fun v => length v = length strategies
                       ∧ Forall (fun x =>
                           (x == 1 / inject_Z (Z.of_nat (length strategies)))%Q)
                           v))
      with (t := Z.to_nat num_periods); [| |done].
    - apply uniform_uniform.
    - intros p p' [Hlen Hp] Hup. by eapply update_uniform. }
  eapply Forall_impl; [exact Hinv|]. by intros v [_ Hv].
Qed.

Lemma equal_rows_stay_uniform_witness :
  strategies_AB ≠ [] ∧ NoDup strategies_AB
  ∧ Spec.complete strategies_AB (self_reinforcing_matrix (F:=Q)) = true
  ∧ (∀ s s', s ∈ strategies_AB → s' ∈ strategies_AB →
       (row_sum strategies_AB (self_reinforcing_matrix (F:=Q)) s
        == row_sum strategies_AB (self_reinforcing_matrix (F:=Q)) s')%Q)
  ∧ ∃ sim,
      simulate_replication_dynamics (F:=Q) strategies_AB
        (self_reinforcing_matrix (F:=Q)) 5 None = Ok sim
      ∧ ReplicationDynamics.simulate_replication_dynamics (F:=Q)
          strategies_AB (self_reinforcing_matrix (F:=Q)) 5
        = Ok (history sim, payoff_history sim)
      ∧ Forall
          (Forall (fun x =>
                     (x == 1 / inject_Z (Z.of_nat (length strategies_AB)))%Q))
          (history sim).
Proof.
  assert (Hc : Spec.complete strategies_AB (self_reinforcing_matrix (F:=Q))
               = true) by (by vm_compute).
  assert (Hrows : ∀ s s', s ∈ strategies_AB → s' ∈ strategies_AB →
            (row_sum strategies_AB (self_reinforcing_matrix (F:=Q)) s
             == row_sum strategies_AB (self_reinforcing_matrix (F:=Q)) s')%Q).
  { intros s s' Hs Hs'. unfold strategies_AB in Hs, Hs'.
    apply elem_of_cons in Hs as [->|Hs%list_elem_of_singleton];
      apply elem_of_cons in Hs' as [->|Hs'%list_elem_of_singleton];
      subst; by vm_compute. }
  split; [done|]. split; [exact strategies_AB_NoDup|].
  split; [exact Hc|]. split; [exact Hrows|].
  exact (equal_rows_stay_uniform strategies_AB (self_reinforcing_matrix (F:=Q))
           5 ltac:(done) strategies_AB_NoDup Hc Hrows).
Defined.

Section Concentration.
Local Open Scope Q_scope.

Lemma py_index_last {A} (l : list A) (x : A) :
  last l = Some x → py_index l (-1) = Ok x.
Proof.
  intros Hlast. unfold py_index.
  rewrite decide_False by lia.
  assert (l ≠ []) as Hne by (by destruct l).
  rewrite decide_True by (destruct l; [done|simpl; lia]).
  unfold list_get. rewrite last_lookup in Hlast.
  replace (length l - Z.to_nat (- -1))%nat with (pred (length l)) by lia.
  by rewrite Hlast.
Qed.

Lemma sum_squares_le (l : list Q) :
  Forall (fun x => 0 <= x) l →
  np_sum ((fun x => x * x) <$> l) <= np_sum l * np_sum l.
Proof.
  induction 1 as [|x l Hx Hl IH].
  - cbn [fmap list_fmap]. rewrite np_sum_nil. lra.
  - cbn [fmap list_fmap]. rewrite !np_sum_cons.
    pose proof (np_sum_nonneg l Hl) as HS.
    pose proof (Qmult_le_0_compat _ _ Hx HS) as HxS.
    set (S := np_sum l) in *. set (Q2 := np_sum ((fun x => x * x) <$> l)) in *.
    assert ((x + S) * (x + S) == x * x + 2 * (x * S) + S * S) as -> by ring.
    lra.
Qed.

Lemma sum_squared_deviations (u : Q) (l : list Q) :
  np_sum ((fun x => (x - u) * (x - u)) <$> l)
  == np_sum ((fun x => x * x) <$> l) - 2 * u * np_sum l
     + inject_Z (Z.of_nat (length l)) * (u * u).
Proof.
  induction l as [|x l IH].
  - cbn [fmap list_fmap length Z.of_nat]. rewrite !np_sum_nil. ring.
  - cbn [fmap list_fmap length]. rewrite !np_sum_cons, IH, Nat2Z.inj_succ.
    unfold Z.succ. rewrite inject_Z_plus. ring.
Qed.

Lemma Qsquare_nonneg (y : Q) : 0 <= y * y.
Proof.
  destruct (Qlt_le_dec y 0) as [Hneg|Hpos].
  - assert (y * y == (- y) * (- y)) as -> by ring.
    apply Qmult_le_0_compat; lra.
  - by apply Qmult_le_0_compat.
Qed.

Lemma sum_squared_deviations_nonneg (u : Q) (l : list Q) :
  0 <= np_sum ((fun x => (x - u) * (x - u)) <$> l).
Proof.
  apply np_sum_nonneg, Forall_fmap, Forall_forall. intros x _.
  unfold compose. apply Qsquare_nonneg.
Qed.

Lemma concentration_bounds (strategies : list string) (p : list Q) :
  strategies ≠ [] → distribution strategies p →
  1 / inject_Z (Z.of_nat (length strategies)) <= concentration p
  ∧ concentration p <= 1.
Proof.
  intros Hne (Hlen & Hpos & Hsum). unfold concentration. cbn [mul Q_num].
  pose proof (strategies_count_pos strategies Hne) as HK. split.
  - pose proof (sum_squared_deviations_nonneg
                  (1 / inject_Z (Z.of_nat (length strategies))) p) as Hdev.
    rewrite sum_squared_deviations, Hsum, Hlen in Hdev.
    set (K := inject_Z (Z.of_nat (length strategies))) in *.
    assert (K * (1 / K * (1 / K)) == 1 / K) as HKu by (field; lra).
    rewrite HKu in Hdev. lra.
  - pose proof (sum_squares_le p Hpos) as Hle. rewrite Hsum in Hle. lra.
Qed.
End Concentration.

(** The "Concentration" metric shown for a run over a complete matrix,
    [np.sum(final_probs ** 2)] with [final_probs = history[-1]] the last
    vector of the history, lies between [1/K] and [1] (in exact
    arithmetic). *)
Theorem concentration_in_range (strategies : list string)
    (matrix : gmap string (gmap string Q)) (num_periods : Z) :
  strategies ≠ [] → NoDup strategies →
  Spec.complete strategies matrix = true →
  ∃ sim final,
    simulate_replication_dynamics strategies matrix num_periods None = Ok sim
    ∧ final_probs (history sim) = Ok final
    ∧ history sim !! Z.to_nat num_periods = Some final
    ∧ (1 / inject_Z (Z.of_nat (length strategies)) <= concentration final)%Q
    ∧ (concentration final <= 1)%Q.
Proof.
  intros Hne Hnd Hc.
  destruct (simulate_trace strategies matrix num_periods None Hne Hnd Hc)
    as (st & Hrun & Htr).
  cbn [default] in Htr.
  exists (run st), (probabilities st). split; [done|].
  pose proof (trace_last _ _ _ _ Htr) as Hlast. split; [|split; [done|]].
  - apply py_index_last. rewrite last_lookup, (trace_length _ _ _ _ Htr). done.
  - apply (concentration_bounds strategies); [done|].
    eapply (Forall_lookup_1 _ _ _ _
      (trace_history_invariant strategies matrix _
         (uniform_distribution strategies Hne)
         (update_distribution strategies matrix) _ _ Htr) Hlast).
Qed.

Lemma concentration_in_range_witness :
  automatons ≠ [] ∧ NoDup automatons
  ∧ Spec.complete automatons (default_payoff_matrix (F:=Q)) = true
  ∧ ∃ sim final,
      simulate_replication_dynamics (F:=Q) automatons
        (default_payoff_matrix (F:=Q)) 3 None = Ok sim
      ∧ final_probs (history sim) = Ok final
      ∧ history sim !! Z.to_nat 3 = Some final
      ∧ (1 / inject_Z (Z.of_nat (length automatons)) <= concentration final)%Q
      ∧ (concentration final <= 1)%Q.
Proof.
  split; [done|]. split; [exact automatons_NoDup|].
  split; [exact default_payoff_matrix_complete_Q|].
  apply (concentration_in_range automatons (default_payoff_matrix (F:=Q)) 3);
    [done|exact automatons_NoDup|exact default_payoff_matrix_complete_Q].
Defined.

(** ** The sidebar and the detailed period analysis *)

Lemma foldl_insert_lookup_map {V : Type} (f : string → V) (rs : list string) :
  ∀ (d : gmap string V) s,
  foldl (fun d s => <[s := f s]> d) d rs !! s
  = if decide (s ∈ rs) then Some (f s) else d !! s.
Proof.
  induction rs as [|r rs IH]; intros d s.
  - cbn [foldl]. case_decide as Hin; [|done]. by apply elem_of_nil in Hin.
  - cbn [foldl]. rewrite IH.
    destruct (decide (s ∈ rs)) as [Hin|Hin].
    + case_decide as Hin'; [done|]. destruct Hin'. by right.
    + destruct (decide (s = r)) as [->|Hne].
      * rewrite lookup_insert_eq. case_decide as Hin'; [done|].
        destruct Hin'. by left.
      * rewrite lookup_insert_ne by done. case_decide as Hin'; [|done].
        apply elem_of_cons in Hin' as [?|?]; done.
Qed.

Section SidebarProofs.
Context {F : Type} `{Num F}.
Variable strategies : list string.
Variable default_matrix : gmap string (gmap string F).
Variable number_input : string → F → F.
Hypothesis default_complete : Spec.complete strategies default_matrix = true.
Local Abbreviation field := (field_value default_matrix number_input).

Lemma field_step s o (d : gmap string F) :
  s ∈ strategies → o ∈ strategies →
  (row ← dict_get default_matrix s;
   default_val ← dict_get row o;
   Ok (<[o := number_input (s +:+ " vs " +:+ o) default_val]> d))
  = Ok (<[o := field s o]> d).
Proof.
  intros Hs Ho.
  destruct (has_entry_get default_matrix s o) as (row & Hrow & He).
  { by apply complete_has_entry with (strategies := strategies). }
  rewrite Hrow. cbn [mbind result_bind]. rewrite He. done.
Qed.

Lemma custom_row_loop s os : ∀ i0 (d : gmap string F),
  s ∈ strategies → os ⊆ strategies →
  for_each (zip (seq i0 (length os)) os)
    (fun '(idx, opponent) row_data =>
       row ← dict_get default_matrix s;
       default_val ← dict_get row opponent;
       Ok (<[opponent := number_input (s +:+ " vs " +:+ opponent) default_val]>
             row_data))
    d
  = Ok (foldl (fun d o => <[o := field s o]> d) d os).
Proof.
  induction os as [|o os IH]; intros i0 d Hs Hos; [done|].
  cbn [length seq zip zip_with for_each].
  rewrite field_step; [|done|apply Hos; by left].
  cbn [mbind result_bind foldl].
  apply IH; [done|]. intros x Hx. apply Hos. by right.
Qed.

Lemma custom_row_ok s :
  s ∈ strategies →
  custom_row strategies default_matrix number_input s
  = Ok (foldl (fun d o => <[o := field s o]> d) ∅ strategies).
Proof. intros Hs. by apply custom_row_loop. Qed.

Lemma custom_data_loop rs : ∀ (d : gmap string (gmap string F)),
  rs ⊆ strategies →
  for_each rs
    (fun automaton custom_payoff_data =>
       row_data ← custom_row strategies default_matrix number_input automaton;
       Ok (<[automaton := row_data]> custom_payoff_data))
    d
  = Ok (foldl
          (fun d s =>
             <[s := foldl (fun d o => <[o := field s o]> d) ∅ strategies]>
               d)
          d rs).
Proof.
  induction rs as [|r rs IH]; intros d Hrs; [done|].
  cbn [for_each foldl]. rewrite custom_row_ok by (apply Hrs; by left).
  cbn [mbind result_bind]. apply IH. intros x Hx. apply Hrs. by right.
Qed.

Lemma custom_payoff_data_ok :
  ∃ m,
    custom_payoff_data strategies default_matrix number_input = Ok m
    ∧ ∀ s o, s ∈ strategies → o ∈ strategies →
        m !! s ≫= (.!! o) = Some (field s o).
Proof.
  eexists. split; [by apply custom_data_loop|].
  intros s o Hs Ho.
  rewrite (foldl_insert_lookup_map
             (fun s => foldl (fun d o => <[o := field s o]> d) ∅
                         strategies)).
  rewrite decide_True by done. cbn [mbind option_bind].
  rewrite (foldl_insert_lookup_map (field s)).
  by rewrite decide_True.
Qed.
End SidebarProofs.

Lemma lookup_has_entry {F : Type} `{Num F} (m : gmap string (gmap string F)) s o v :
  m !! s ≫= (.!! o) = Some v →
  Spec.has_entry m s o = true ∧ Spec.entry m s o = v.
Proof.
  intros Hv. unfold Spec.has_entry, Spec.entry. rewrite Hv.
  split; [|done]. by apply bool_decide_eq_true.
Qed.

Lemma lookups_complete {F : Type} `{Num F} (strategies : list string)
    (m : gmap string (gmap string F)) :
  (∀ s o, s ∈ strategies → o ∈ strategies → is_Some (m !! s ≫= (.!! o))) →
  Spec.complete strategies m = true.
Proof.
  intros Hm. unfold Spec.complete. apply forallb_forall.
  intros s Hs%list_elem_of_In. apply forallb_forall.
  intros o Ho%list_elem_of_In. unfold Spec.has_entry.
  apply bool_decide_eq_true. by apply Hm.
Qed.

(** With "Edit Payoff Matrix" ticked and a complete default matrix, the
    sidebar builds without an error a matrix that is complete for the
    strategies and whose entry for a strategy and an opponent is the number
    in the field labelled "<strategy> vs <opponent>", which starts at the
    default entry. *)
Theorem custom_matrix_as_entered {F : Type} `{Num F}
    (strategies : list string) (default_matrix : gmap string (gmap string F))
    (number_input : string → F → F) :
  Spec.complete strategies default_matrix = true →
  ∃ m,
    sidebar_payoff_matrix strategies default_matrix number_input true = Ok m
    ∧ Spec.complete strategies m = true
    ∧ ∀ s o, s ∈ strategies → o ∈ strategies →
        Spec.entry m s o
        = number_input (s +:+ " vs " +:+ o) (Spec.entry default_matrix s o).
Proof.
  intros Hc.
  destruct (custom_payoff_data_ok strategies default_matrix number_input Hc)
    as (m & Hm & Hlookup).
  exists m. split; [done|]. split.
  - apply lookups_complete. intros s o Hs Ho. by rewrite Hlookup.
  - intros s o Hs Ho. by apply (lookup_has_entry m s o), Hlookup.
Qed.

Lemma custom_matrix_as_entered_witness :
  Spec.complete automatons (default_payoff_matrix (F:=float)) = true
  ∧ ∃ m,
      sidebar_payoff_matrix (F:=float) automatons
        (default_payoff_matrix (F:=float)) (fun _ v => (v + 1)%float) true
      = Ok m
      ∧ Spec.complete automatons m = true
      ∧ ∀ s o, s ∈ automatons → o ∈ automatons →
          Spec.entry m s o
          = (Spec.entry (default_payoff_matrix (F:=float)) s o + 1)%float.
Proof.
  split; [exact default_payoff_matrix_complete_float|].
  exact (custom_matrix_as_entered (F:=float) automatons
           (default_payoff_matrix (F:=float)) (fun _ v => (v + 1)%float)
           default_payoff_matrix_complete_float).
Defined.

(** When no field of the form is changed, the run with "Edit Payoff Matrix"
    ticked is the run with the default matrix. *)
Theorem untouched_form_runs_default {F : Type} `{Num F}
    (strategies : list string) (default_matrix : gmap string (gmap string F))
    (number_input : string → F → F) (num_periods : Z) :
  Spec.complete strategies default_matrix = true →
  (∀ label value, number_input label value = value) →
  run_simulation strategies default_matrix number_input num_periods true
  = run_simulation strategies default_matrix number_input num_periods false.
Proof.
  intros Hc Hsame. unfold run_simulation, sidebar_payoff_matrix.
  destruct (custom_payoff_data_ok strategies default_matrix number_input Hc)
    as (m & -> & Hlookup).
  cbn [mbind result_bind]. unfold simulate_replication_dynamics.
  cbn [default from_option id]. f_equal. apply for_each_ext.
  intros period st _. apply period_body_agree; [|done]. intros s o Hs Ho.
  rewrite Hlookup by done. unfold field_value. rewrite Hsame.
  destruct (has_entry_get default_matrix s o) as (row & Hrow & He).
  { by apply complete_has_entry with (strategies := strategies). }
  unfold dict_get in Hrow, He. unfold Spec.entry in He |- *.
  destruct (default_matrix !! s) as [row'|]; [|done].
  injection Hrow as ->. cbn [mbind option_bind] in He |- *.
  by destruct (row !! o).
Qed.

Lemma untouched_form_runs_default_witness :
  Spec.complete automatons (default_payoff_matrix (F:=float)) = true
  ∧ (∀ (label : string) (value : float), (fun _ v => v) label value = value)
  ∧ run_simulation (F:=float) automatons (default_payoff_matrix (F:=float))
      (fun _ v => v) 100 true
    = run_simulation (F:=float) automatons (default_payoff_matrix (F:=float))
        (fun _ v => v) 100 false.
Proof.
  split; [exact default_payoff_matrix_complete_float|]. split; [done|].
  exact (untouched_form_runs_default (F:=float) automatons
           (default_payoff_matrix (F:=float)) (fun _ v => v) 100
           default_payoff_matrix_complete_float (fun _ _ => eq_refl)).
Defined.

(** With a complete default matrix, "Run Simulation" never raises, whatever
    numbers were typed into the form and whether or not the form is used:
    it returns a run whose history has one vector more than the period
    count of the slider, each with one share for every strategy. *)
Theorem run_simulation_never_raises {F : Type} `{Num F}
    (strategies : list string) (default_matrix : gmap string (gmap string F))
    (number_input : string → F → F) (num_periods : Z)
    (use_custom_payoff : bool) :
  strategies ≠ [] → NoDup strategies →
  Spec.complete strategies default_matrix = true →
  ∃ sim,
    run_simulation strategies default_matrix number_input num_periods
      use_custom_payoff = Ok sim
    ∧ length (history sim) = S (Z.to_nat num_periods)
    ∧ Forall (fun v => length v = length strategies) (history sim).
Proof.
  intros Hne Hnd Hc. unfold run_simulation.
  assert (∃ m,
    sidebar_payoff_matrix strategies default_matrix number_input
      use_custom_payoff = Ok m
    ∧ Spec.complete strategies m = true) as (m & -> & Hm).
  { destruct use_custom_payoff; [|by exists default_matrix].
    destruct (custom_payoff_data_ok strategies default_matrix number_input Hc)
      as (m & Hrun & Hlookup).
    exists m. split; [done|]. apply lookups_complete.
    intros s o Hs Ho. by rewrite Hlookup. }
  cbn [mbind result_bind].
  destruct (simulate_trace strategies default_matrix num_periods (Some m)
              Hne Hnd Hm) as (st & Hrun & Htr).
  exists (run st). split; [done|]. split; [apply Htr|].
  by eapply trace_rectangular.
Qed.

Lemma run_simulation_never_raises_witness :
  automatons ≠ [] ∧ NoDup automatons
  ∧ Spec.complete automatons (default_payoff_matrix (F:=float)) = true
  ∧ ∃ sim,
      run_simulation (F:=float) automatons (default_payoff_matrix (F:=float))
        (fun _ _ => infinity) 200 true = Ok sim
      ∧ length (history sim) = S (Z.to_nat 200)
      ∧ Forall (fun v => length v = length automatons) (history sim).
Proof.
  split; [done|]. split; [exact automatons_NoDup|].
  split; [exact default_payoff_matrix_complete_float|].
  apply (run_simulation_never_raises (F:=float) automatons
           (default_payoff_matrix (F:=float)) (fun _ _ => infinity)
           200 true);
    [done|exact automatons_NoDup|exact default_payoff_matrix_complete_float].
Defined.

(** ** The detailed period analysis *)

Lemma comprehension_map {A B : Type} (f : A → result B) (g : A → B)
    (l : list A) :
  (∀ x, x ∈ l → f x = Ok (g x)) → comprehension f l = Ok (g <$> l).
Proof.
  induction l as [|x l IH]; intros Hf; [done|].
  cbn [comprehension]. rewrite Hf by left. cbn [mbind result_bind].
  rewrite IH; [done|]. intros y Hy. apply Hf. by right.
Qed.

Lemma py_index_nat {A : Type} (l : list A) (i : Z) (x : A) :
  0 ≤ i → l !! Z.to_nat i = Some x → py_index l i = Ok x.
Proof.
  intros Hi Hx. unfold py_index, list_get. rewrite decide_True by done.
  by rewrite Hx.
Qed.

Lemma py_index_beyond {A : Type} (l : list A) (i : Z) :
  Z.of_nat (length l) ≤ i → py_index l i = Raise IndexError.
Proof.
  intros Hi. unfold py_index, list_get. rewrite decide_True by lia.
  rewrite lookup_ge_None_2; [done|lia].
Qed.

Lemma comprehension_first_raises {A B : Type} (f : A → result B) (l : list A)
    (x : A) (e : exn) :
  l !! 0%nat = Some x → f x = Raise e → comprehension f l = Raise e.
Proof.
  destruct l as [|y l]; [done|]. intros [= ->] Hx.
  cbn [comprehension]. by rewrite Hx.
Qed.

Lemma first_strategy (strategies : list string) :
  strategies ≠ [] → ∃ s, strategies !! 0%nat = Some s ∧ s ∈ strategies.
Proof.
  destruct strategies as [|s l]; [done|]. intros _. exists s.
  split; [done|]. by left.
Qed.

Section DetailViewProofs.
Context {F : Type} `{Num F}.
Variable strategies : list string.
Variable pm : gmap string (gmap string F).
Variable T : nat.
Variable st : loop_state F.
Hypothesis strategies_nonempty : strategies ≠ [].
Hypothesis run_trace : trace strategies pm T st.
Hypothesis run_tables : tables strategies pm T st.

Lemma payoff_series_length s :
  s ∈ strategies →
  length (defaultdict_get (payoff_history (run st)) s) = T.
Proof.
  intros [i Hi]%list_elem_of_lookup. unfold defaultdict_get.
  rewrite (trace_payoffs _ _ _ _ run_trace i s Hi).
  rewrite length_fmap, length_take, (trace_length _ _ _ _ run_trace). lia.
Qed.

Lemma last_period_ok :
  last_period strategies (run st) = Ok (Z.of_nat T - 1).
Proof.
  unfold last_period.
  destruct (first_strategy strategies strategies_nonempty) as (s & Hs & Hin).
  rewrite (py_index_nat strategies 0 s) by done.
  cbn [mbind result_bind]. by rewrite payoff_series_length.
Qed.

Lemma period_details_ok (period : Z) :
  0 ≤ period < Z.of_nat T →
  ∃ p,
    history (run st) !! Z.to_nat period = Some p
    ∧ period_details strategies (run st) period
      = Ok (Spec.expected_payoffs strategies pm p,
            best_responses strategies pm,
            pairwise_table strategies pm p).
Proof.
  intros Hperiod.
  destruct (trace_period_at strategies pm T st (Z.to_nat period) run_trace)
    as (p & p' & Hp & _ & _ & Hpay); [lia|].
  exists p. split; [done|]. unfold period_details.
  rewrite (comprehension_map _ (Spec.expected_payoff strategies pm p)).
  2:{ intros s Hs. apply py_index_nat; [lia|]. unfold defaultdict_get.
      specialize (Hpay s Hs).
      destruct (payoff_history (run st) !! s) as [series|]; [done|done]. }
  cbn [mbind result_bind].
  rewrite (py_index_nat _ period (best_responses strategies pm)); [|lia|].
  2:{ rewrite (trace_strategies _ _ _ _ run_trace).
      apply lookup_replicate_2. lia. }
  cbn [mbind result_bind].
  destruct (run_tables (Z.to_nat period) p) as [Htable _]; [lia|done|].
  rewrite (py_index_nat _ period (pairwise_table strategies pm p));
    [done|lia|done].
Qed.

Lemma period_details_beyond (period : Z) :
  Z.of_nat T ≤ period →
  period_details strategies (run st) period = Raise IndexError.
Proof.
  intros Hperiod. unfold period_details.
  destruct (first_strategy strategies strategies_nonempty) as (s & Hs & Hin).
  rewrite (comprehension_first_raises _ strategies s IndexError Hs); [done|].
  apply py_index_beyond. by rewrite payoff_series_length.
Qed.
End DetailViewProofs.

Lemma comprehension_raises {A B : Type} (f : A → result B) (g : A → B)
    (l1 l2 : list A) (x : A) (e : exn) :
  (∀ y, y ∈ l1 → f y = Ok (g y)) → f x = Raise e →
  comprehension f (l1 ++ x :: l2) = Raise e.
Proof.
  induction l1 as [|y l1 IH]; intros Hl1 Hx.
  - cbn [app comprehension]. by rewrite Hx.
  - cbn [app comprehension]. rewrite Hl1 by left. cbn [mbind result_bind].
    rewrite IH; [done| |done]. intros z Hz. apply Hl1. by right.
Qed.

(** A selection within the recorded periods is read without an error, one
    row per period. *)
Lemma detail_view_rows {F : Type} `{Num F} (strategies : list string)
    (pm : gmap string (gmap string F)) (T : nat) (st : loop_state F)
    (lo hi : Z) :
  strategies ≠ [] → trace strategies pm T st → tables strategies pm T st →
  0 ≤ lo → hi < Z.of_nat T →
  ∃ rows,
    detail_view strategies (run st) (lo, hi) = Ok rows
    ∧ length rows = Z.to_nat (hi + 1 - lo)
    ∧ ∀ (k : nat) row, rows !! k = Some row →
        ∃ p,
          history (run st) !! (Z.to_nat lo + k)%nat = Some p
          ∧ row = (Spec.expected_payoffs strategies pm p,
                   best_responses strategies pm,
                   pairwise_table strategies pm p).
Proof.
  intros Hne Htr Htab Hlo Hhi.
  pose (g := fun period : Z =>
    let p := default [] (history (run st) !! Z.to_nat period) in
    (Spec.expected_payoffs strategies pm p, best_responses strategies pm,
     pairwise_table strategies pm p)).
  assert (Hg : ∀ period, 0 ≤ period < Z.of_nat T →
    ∃ p, history (run st) !! Z.to_nat period = Some p
         ∧ period_details strategies (run st) period = Ok (g period)
         ∧ g period = (Spec.expected_payoffs strategies pm p,
                       best_responses strategies pm,
                       pairwise_table strategies pm p)).
  { intros period Hperiod.
    destruct (period_details_ok strategies pm T st Htr Htab period Hperiod)
      as (p & Hp & Hdetails).
    exists p. split; [done|]. unfold g. rewrite Hp. by split. }
  exists (g <$> range_from lo (hi + 1)). split; [|split].
  - unfold detail_view. cbn [fst snd]. apply comprehension_map.
    intros period Hin. unfold range_from in Hin.
    apply elem_of_seqZ in Hin.
    destruct (Hg period) as (p & _ & Hdetails & _); [lia|done].
  - unfold range_from. by rewrite length_fmap, length_seqZ.
  - intros k row Hrow. rewrite list_lookup_fmap in Hrow.
    unfold range_from in Hrow.
    destruct (seqZ lo (hi + 1 - lo) !! k) as [period|] eqn:Hk; [|done].
    apply lookup_seqZ in Hk as [-> Hk]. injection Hrow as <-.
    destruct (Hg (lo + Z.of_nat k)) as (p & Hp & _ & Heq); [lia|].
    exists p. split; [|done].
    by replace (Z.to_nat lo + k)%nat with (Z.to_nat (lo + Z.of_nat k)) by lia.
Qed.

Lemma detail_view_raises {F : Type} `{Num F} (strategies : list string)
    (pm : gmap string (gmap string F)) (T : nat) (st : loop_state F)
    (lo hi : Z) :
  strategies ≠ [] → trace strategies pm T st → tables strategies pm T st →
  0 ≤ lo ≤ hi → Z.of_nat T ≤ hi →
  detail_view strategies (run st) (lo, hi) = Raise IndexError.
Proof.
  intros Hne Htr Htab Hlo Hhi. unfold detail_view, range_from. cbn [fst snd].
  pose (first_bad := Z.max lo (Z.of_nat T)).
  replace (hi + 1 - lo) with ((first_bad - lo) + (1 + (hi - first_bad)))
    by lia.
  rewrite seqZ_app by lia. rewrite (seqZ_cons _ (1 + _)) by lia.
  replace (lo + (first_bad - lo)) with first_bad by lia.
  pose (g := fun period : Z =>
    let p := default [] (history (run st) !! Z.to_nat period) in
    (Spec.expected_payoffs strategies pm p, best_responses strategies pm,
     pairwise_table strategies pm p)).
  apply (comprehension_raises _ g).
  - intros period Hin%elem_of_seqZ.
    destruct (period_details_ok strategies pm T st Htr Htab period)
      as (p & Hp & Hdetails); [lia|].
    unfold g. by rewrite Hp.
  - apply (period_details_beyond strategies pm T st Hne Htr). lia.
Qed.

(** In a run over a complete matrix, the slider of the detailed period
    analysis ends at the last period of the run, and for every selection
    within the slider the view is built without an error: it has one row for
    each period from the lower to the upper end, and the row for period [t]
    holds the payoffs, the best responses and the pairwise table computed
    from [history[t]]. *)
Theorem detail_view_shows_periods {F : Type} `{Num F}
    (strategies : list string) (matrix : gmap string (gmap string F))
    (num_periods : Z) :
  strategies ≠ [] → NoDup strategies →
  Spec.complete strategies matrix = true → 1 ≤ num_periods →
  ∃ sim,
    simulate_replication_dynamics strategies matrix num_periods None = Ok sim
    ∧ last_period strategies sim = Ok (num_periods - 1)
    ∧ ∀ lo hi, 0 ≤ lo → hi ≤ num_periods - 1 →
        ∃ rows,
          detail_view strategies sim (lo, hi) = Ok rows
          ∧ length rows = Z.to_nat (hi + 1 - lo)
          ∧ ∀ (k : nat) row, rows !! k = Some row →
              ∃ p,
                history sim !! (Z.to_nat lo + k)%nat = Some p
                ∧ row = (Spec.expected_payoffs strategies matrix p,
                         best_responses strategies matrix,
                         pairwise_table strategies matrix p).
Proof.
  intros Hne Hnd Hc Hn.
  destruct (simulate_tables strategies matrix Hne Hnd Hc num_periods)
    as (st & Hrun & Htr & Htab).
  exists (run st). split; [done|]. split.
  - rewrite (last_period_ok strategies matrix _ st Hne Htr). f_equal. lia.
  - intros lo hi Hlo Hhi.
    apply (detail_view_rows strategies matrix (Z.to_nat num_periods));
      [done..|lia].
Qed.

Lemma detail_view_shows_periods_witness :
  automatons ≠ [] ∧ NoDup automatons
  ∧ Spec.complete automatons (default_payoff_matrix (F:=float)) = true
  ∧ 1 ≤ 100
  ∧ ∃ sim,
      simulate_replication_dynamics (F:=float) automatons
        (default_payoff_matrix (F:=float)) 100 None = Ok sim
      ∧ last_period automatons sim = Ok (100 - 1)
      ∧ ∀ lo hi, 0 ≤ lo → hi ≤ 100 - 1 →
          ∃ rows,
            detail_view automatons sim (lo, hi) = Ok rows
            ∧ length rows = Z.to_nat (hi + 1 - lo)
            ∧ ∀ (k : nat) row, rows !! k = Some row →
                ∃ p,
                  history sim !! (Z.to_nat lo + k)%nat = Some p
                  ∧ row = (Spec.expected_payoffs automatons
                             (default_payoff_matrix (F:=float)) p,
                           best_responses automatons
                             (default_payoff_matrix (F:=float)),
                           pairwise_table automatons
                             (default_payoff_matrix (F:=float)) p).
Proof.
  split; [done|]. split; [exact automatons_NoDup|].
  split; [exact default_payoff_matrix_complete_float|]. split; [lia|].
  apply (detail_view_shows_periods (F:=float) automatons
           (default_payoff_matrix (F:=float)) 100);
    [done|exact automatons_NoDup|exact default_payoff_matrix_complete_float
    |lia].
Defined.

(** The slider's upper end is the largest period the view can show: in a
    run over a complete matrix, a selection that starts at a period from 0
    on and reaches a period after the last one raises [IndexError]. *)
Theorem detail_view_past_run_IndexError {F : Type} `{Num F}
    (strategies : list string) (matrix : gmap string (gmap string F))
    (num_periods lo hi : Z) :
  strategies ≠ [] → NoDup strategies →
  Spec.complete strategies matrix = true →
  0 ≤ lo ≤ hi → num_periods ≤ hi →
  ∃ sim,
    simulate_replication_dynamics strategies matrix num_periods None = Ok sim
    ∧ detail_view strategies sim (lo, hi) = Raise IndexError.
Proof.
  intros Hne Hnd Hc Hlo Hhi.
  destruct (simulate_tables strategies matrix Hne Hnd Hc num_periods)
    as (st & Hrun & Htr & Htab).
  exists (run st). split; [done|].
  apply (detail_view_raises strategies matrix (Z.to_nat num_periods));
    [done..|lia].
Qed.

Lemma detail_view_past_run_IndexError_witness :
  automatons ≠ [] ∧ NoDup automatons
  ∧ Spec.complete automatons (default_payoff_matrix (F:=float)) = true
  ∧ 0 ≤ 5 ≤ 10 ∧ 10 ≤ 10
  ∧ ∃ sim,
      simulate_replication_dynamics (F:=float) automatons
        (default_payoff_matrix (F:=float)) 10 None = Ok sim
      ∧ detail_view automatons sim (5, 10) = Raise IndexError.
Proof.
  split; [done|]. split; [exact automatons_NoDup|].
  split; [exact default_payoff_matrix_complete_float|].
  split; [lia|]. split; [lia|].
  apply (detail_view_past_run_IndexError (F:=float) automatons
           (default_payoff_matrix (F:=float)) 10 5 10);
    [done|exact automatons_NoDup|exact default_payoff_matrix_complete_float
    |lia|lia].
Defined.

(** ** The strategy timeline *)

Lemma period_label_inj (t t' : Z) :
  "t=" +:+ pretty t = "t=" +:+ pretty t' → t = t'.
Proof. intros Heq. apply (inj pretty). by simplify_eq/=. Qed.

Lemma strategy_timeline_loop (l : list (gmap string string)) (k : nat) :
  (k ≤ length l)%nat →
  ∃ d : gmap string (gmap string string),
    for_each (seqZ 0 (Z.of_nat k))
      (fun period strategy_timeline_data =>
         period_strategies ← py_index l period;
         Ok (<["t=" +:+ pretty period := period_strategies]>
               strategy_timeline_data))
      ∅
    = Ok d
    ∧ size d = k
    ∧ ∀ t : nat,
        d !! ("t=" +:+ pretty (Z.of_nat t))
        = if decide (t < k)%nat then l !! t else None.
Proof.
  induction k as [|k IH]; intros Hk.
  - exists ∅. split; [done|]. split; [done|]. intros t.
    rewrite lookup_empty. by rewrite decide_False by lia.
  - destruct IH as (d & Hd & Hsize & Hlookup); [lia|].
    destruct (lookup_lt_is_Some_2 l k) as [row Hrow]; [lia|].
    exists (<["t=" +:+ pretty (Z.of_nat k) := row]> d).
    rewrite seqZ_S, for_each_snoc, Hd. cbn [mbind result_bind].
    rewrite Z.add_0_l.
    rewrite (py_index_nat l _ row) by (rewrite ?Nat2Z.id; done || lia).
    cbn [mbind result_bind].
    split; [done|]. split.
    + rewrite map_size_insert_None; [by rewrite Hsize|].
      rewrite Hlookup. by rewrite decide_False by lia.
    + intros t. destruct (decide (t = k)) as [->|Hne].
      * rewrite lookup_insert_eq. by rewrite decide_True by lia.
      * rewrite lookup_insert_ne.
        2:{ intros Heq%period_label_inj. lia. }
        rewrite Hlookup. repeat case_decide; (done || lia).
Qed.

(** The strategy timeline is built without an error and has exactly one
    entry for each recorded period: no two periods share a label, and the
    entry labelled "t=<t>" is [strategy_history[t]]. *)
Theorem strategy_timeline_one_entry_per_period
    (strategy_history : list (gmap string string)) :
  ∃ d,
    strategy_timeline_data strategy_history = Ok d
    ∧ size d = length strategy_history
    ∧ ∀ t : nat,
        d !! ("t=" +:+ pretty (Z.of_nat t)) = strategy_history !! t.
Proof.
  destruct (strategy_timeline_loop strategy_history (length strategy_history))
    as (d & Hd & Hsize & Hlookup); [done|].
  exists d. split; [done|]. split; [done|]. intros t.
  rewrite Hlookup. case_decide as Ht; [done|].
  symmetry. apply lookup_ge_None_2. lia.
Qed.
